(** * Reffect motion creator: brightness sampling and effect modules

    A shallow embedding of the numeric core of the repository:
    [engine/utils/math.js], [engine/svg-sampler.js] and the six effect
    modules (static [generate], animated [init] / [drawFrame]).

    Conventions of the embedding.
    - A JavaScript number that holds a 32-bit integer is a [Z]; the
      wrap-around of [| 0], [>>> 0] and [Math.imul] is written out.
    - Every other JavaScript number is a real number ([R]): arithmetic is
      exact, i.e. the rounding of binary64 values and of [Float32Array]
      stores is abstracted away.  [Math.sin] is the real sine.
    - A read outside an array (JavaScript: [undefined], then a [TypeError]
      or a [NaN]) is [None].
    - Where a quotient bounds a loop (the lattice of Star Glint), a zero
      divisor (JavaScript: an infinity or a [NaN]) is [None].
    - The SVG text and the canvas calls are represented by the list of
      primitives they describe, before [toFixed] formatting. *)

From Stdlib Require Import ZArith List Bool Lia Reals Lra Psatz String.
From stdpp Require Import base option strings gmap.
Import ListNotations.

Set Implicit Arguments.

(* ================================================================== *)
(** * Part I: the program *)
(* ================================================================== *)

(** ** 32-bit integer operators of JavaScript *)

Module Int32.
Local Open Scope Z_scope.

Definition two32 : Z := 4294967296.
Definition two31 : Z := 2147483648.

(** [ToUint32] and [ToInt32] of an integral number. *)
Definition toUint32 (z : Z) : Z := z mod two32.
Definition toInt32 (z : Z) : Z := (z + two31) mod two32 - two31.

(** [a | b], [a ^ b]: both operands go through [ToInt32]. *)
Definition bor (a b : Z) : Z := Z.lor (toInt32 a) (toInt32 b).
Definition bxor (a b : Z) : Z := Z.lxor (toInt32 a) (toInt32 b).

(** [a >>> n]: the operand goes through [ToUint32], the count is taken
    modulo 32. *)
Definition ushr (a n : Z) : Z := Z.shiftr (toUint32 a) (n mod 32).

(** [Math.imul(a, b)]. *)
Definition imul (a b : Z) : Z := toInt32 (toInt32 a * toInt32 b).

End Int32.

(** ** engine/utils/math.js *)

Module MathUtils.

(** *** mulberry32 *)

Section Mulberry.
Local Open Scope Z_scope.

(** [let s = seed | 0]: the captured state of the closure. *)
Definition mulberry32 (seed : Z) : Z := Int32.bor seed 0.

(** One call of the returned function: the new state and the 32-bit
    numerator of the result, [(t ^ (t >>> 14)) >>> 0]. *)
Definition next (s : Z) : Z * Z :=
  let s := Int32.bor (s + 1831565813) 0 in
  let t := Int32.imul (Int32.bxor s (Int32.ushr s 15)) (Int32.bor s 1) in
  let t := Int32.bxor t (t + Int32.imul (Int32.bxor t (Int32.ushr t 7))
                                         (Int32.bor t 61)) in
  (s, Int32.ushr (Int32.bxor t (Int32.ushr t 14)) 0).

(** The state after [n] calls, and the numerator returned by call
    number [n] (counting from 0). *)
Fixpoint state_after (n : nat) (s : Z) : Z :=
  match n with
  | O => s
  | S k => state_after k (fst (next s))
  end.

Definition output_bits (seed : Z) (n : nat) : Z :=
  snd (next (state_after n (mulberry32 seed))).

End Mulberry.

Local Open Scope R_scope.

(** The value returned by one call: the numerator over 4294967296. *)
Definition rand (s : Z) : R * Z :=
  (IZR (snd (next s)) / 4294967296, fst (next s)).

Definition output (seed : Z) (n : nat) : R :=
  IZR (output_bits seed n) / 4294967296.

(** *** lerp, clamp *)

Definition lerp (a b t : R) : R := a + (b - a) * t.

Definition clamp (val lo hi : R) : R := Rmin (Rmax val lo) hi.

(** *** sampleBilinear *)

(** [grid[r][c]] for integral [r], [c]; [None] outside the array. *)
Definition cell (grid : list (list R)) (r c : Z) : option R :=
  if (r <? 0)%Z || (c <? 0)%Z then None
  else row ← grid !! Z.to_nat r; row !! Z.to_nat c.

(** The two indices and the fraction along one axis:
    [x = u * (cols - 1)], [x0 = floor x], [x1 = min (x0 + 1, cols - 1)],
    [fx = x - x0]. *)
Definition axis (n : nat) (u : R) : Z * Z * R :=
  let x := u * (INR n - 1) in
  let x0 := Zfloor x in
  let x1 := Z.min (x0 + 1) (Z.of_nat n - 1) in
  (x0, x1, x - IZR x0).

Definition sampleBilinear (grid : list (list R)) (cols rows : nat)
    (u v : R) : option R :=
  let '(x0, x1, fx) := axis cols u in
  let '(y0, y1, fy) := axis rows v in
  g00 ← cell grid y0 x0;
  g01 ← cell grid y0 x1;
  g10 ← cell grid y1 x0;
  g11 ← cell grid y1 x1;
  Some (g00 * (1 - fx) * (1 - fy) + g01 * fx * (1 - fy)
        + g10 * (1 - fx) * fy + g11 * fx * fy).

End MathUtils.

(** ** JavaScript values, parameter objects, loops *)

Module Js.
Local Open Scope R_scope.

(** The values a parameter object holds: numbers, [null] (the default of
    [rows]) and colour strings.  A missing key is an absent binding. *)
Inductive value : Type :=
  | Num (r : R)
  | Null
  | Str (s : string).

(** [{ ...a, ...b }]: the bindings of [b] win. *)
Definition spread (a b : gmap string value) : gmap string value := b ∪ a.

(** A key used as a number.  Anything but a number is outside the
    model. *)
Definition num (o : gmap string value) (k : string) : option R :=
  match o !! k with
  | Some (Num r) => Some r
  | _ => None
  end.

(** [o.k ?? d], used as a number. *)
Definition nullish (o : gmap string value) (k : string) (d : R)
    : option R :=
  match o !! k with
  | None | Some Null => Some d
  | Some (Num r) => Some r
  | Some (Str _) => None
  end.

(** [a < b] and [a >= b] as tests. *)
Definition ltb (a b : R) : bool := if Rlt_dec a b then true else false.
Definition geb (a b : R) : bool := if Rle_dec b a then true else false.

(** [Math.round] with an integral result. *)
Definition round (x : R) : Z := Zfloor (x + 1 / 2).

(** The number of passes of [for (let i = 0; i < n; i++)]. *)
Definition passes (n : R) : nat := Z.to_nat (Zceil n).

(** A loop whose passes each push some elements, or fail. *)
Fixpoint collect {A B : Type} (body : A -> option (list B)) (l : list A)
    : option (list B) :=
  match l with
  | [] => Some []
  | i :: l' => out ← body i; rest ← collect body l'; Some (out ++ rest)
  end.

Definition for_loop {B : Type} (n : nat) (body : nat -> option (list B))
    : option (list B) :=
  collect body (seq 0 n).

(** A loop that updates its accumulators on each pass, or fails. *)
Fixpoint foldM {A S : Type} (step : S -> A -> option S) (s : S)
    (l : list A) : option S :=
  match l with
  | [] => Some s
  | i :: l' => s' ← step s i; foldM step s' l'
  end.

(** [new Float32Array(n)] whose first entries have been written: the
    rest stays zero.  A negative length is a [RangeError]. *)
Definition float32Array (n : Z) (written : list R) : option (list R) :=
  if (n <? 0)%Z then None
  else Some (written ++ repeat 0 (Z.to_nat n - length written)).

(** [Math.pow(x, y)] for a base that is not negative and a positive
    exponent.  (A negative base with a fractional exponent is [NaN],
    outside the model.) *)
Definition pow (x y : R) : R := if Rlt_dec 0 x then Rpower x y else 0.

(** [x | 0] of a number: the fraction is dropped, then [ToInt32]. *)
Definition truncate (x : R) : Z := if Rlt_dec x 0 then Zceil x else Zfloor x.

(** [n > 1 ? i / (n - 1) : 0.5], the normalised lattice coordinate every
    effect computes for its sample points. *)
Definition latticeCoord (n : R) (i : nat) : R :=
  if ltb 1 n then INR i / (n - 1) else 0.5.

(** [a / b] where the quotient decides how often a loop runs: the divisor
    is not zero.  (Over a zero divisor JavaScript gives an infinity or
    [NaN]; a loop bounded by it may never end.  Outside the model.) *)
Definition div (a b : R) : option R :=
  if Req_dec_T b 0 then None else Some (a / b).

End Js.

(** ** engine/svg-sampler.js *)

Module SvgSampler.
Local Open Scope R_scope.

Record dims : Type := Dims { width : R; height : R }.

Record sampleData : Type := SampleData {
  grid : list (list R);
  cols : nat;
  rows : nat;
  aspect : R;
  svgWidth : R;
  svgHeight : R
}.

(** [rows = Math.max(1, Math.round(targetCols / logoAspect))]. *)
Definition gridRows (d : dims) (targetCols : nat) : nat :=
  Z.to_nat (Z.max 1 (Js.round (INR targetCols / (width d / height d)))).

(** The brightness of pixel [(x, y)] of RGBA image data [cols] wide. *)
Definition brightness (data : list R) (cols y x : nat) : R :=
  let i := ((y * cols + x) * 4)%nat in
  (nth i data 0 + nth (i + 1) data 0 + nth (i + 2) data 0) / (3 * 255).

(** [sampleSVG], from the parsed dimensions on.  [render] stands for the
    browser: the RGBA data of the source drawn over white on a canvas of
    the given width and height. *)
Definition sampleSVG (render : nat -> nat -> list R) (d : dims)
    (targetCols : nat) : sampleData :=
  let cols := targetCols in
  let rows := gridRows d targetCols in
  let data := render cols rows in
  {| grid := map (fun y => map (brightness data cols y) (seq 0 cols))
                 (seq 0 rows);
     cols := cols;
     rows := rows;
     aspect := INR cols / INR rows;
     svgWidth := width d;
     svgHeight := height d |}.

End SvgSampler.

(** ** What an effect draws *)

Module Gfx.

(** [M x1,y1 L x2,y2] of a path, or [moveTo] / [lineTo] on a canvas. *)
Record segment : Type := Segment { x1 : R; y1 : R; x2 : R; y2 : R }.

(** A segment stroked with its own line width. *)
Record stroke : Type := Stroke { seg : segment; lineWidth : R }.

Record ellipse : Type := Ellipse { ecx : R; ecy : R; rx : R; ry : R }.

Record circle : Type := Circle { ccx : R; ccy : R; radius : R }.

(** The four-pointed glyph of Star Glint: four quadratic curves through
    the points at distance [scale] from the centre, with control points
    at [cpDist] along the diagonals. *)
Record glint : Type := Glint { gcx : R; gcy : R; scale : R; cpDist : R }.

(** One SVG [<path>] of segments: a single stroke width for all. *)
Record strokedPath : Type := StrokedPath {
  pathD : list segment;
  pathStroke : Js.value;
  strokeWidth : R
}.

(** Primitives painted in one colour, in drawing order. *)
Record painted (P : Type) : Type := Painted {
  colour : Js.value;
  prims : list P
}.

End Gfx.

(** ** engine/effects/vertical-lines.js *)

Module VerticalLines.
Local Open Scope R_scope.
Import MathUtils SvgSampler.

Definition getDefaultParams : gmap string Js.value :=
  list_to_map
    [("rows", Js.Null); ("maxLength", Js.Num 1); ("minLength", Js.Num 0.05);
     ("minStroke", Js.Num 0.5); ("maxStroke", Js.Num 4);
     ("speed", Js.Num 1.5); ("waveFreq", Js.Num 0.10);
     ("color", Js.Str "#000000")].

Definition generate (sd : sampleData) (params : gmap string Js.value)
    (outputWidth outputHeight : R) : option Gfx.strokedPath :=
  let merged := Js.spread getDefaultParams params in
  minStroke ← Js.num merged "minStroke";
  maxStroke ← Js.num merged "maxStroke";
  maxLength ← Js.num merged "maxLength";
  minLength ← Js.num merged "minLength";
  color ← merged !! "color";
  let safeMaxLength := Rmax maxLength minLength in
  let cols := cols sd in
  rows ← Js.nullish params "rows" (INR (rows sd));
  let cellW := outputWidth / INR cols in
  let cellH := outputHeight / rows in
  let strokeWidth := (minStroke + maxStroke) / 2 in
  pathD ← Js.for_loop cols (fun c =>
    let cx := INR c * cellW + cellW / 2 in
    let u := Js.latticeCoord (INR cols) c in
    Js.for_loop (Js.passes rows) (fun r =>
      let v := Js.latticeCoord rows r in
      brightness ← sampleBilinear (grid sd) (SvgSampler.cols sd)
                     (SvgSampler.rows sd) u v;
      let darkness := 1 - brightness in
      let h := lerp minLength safeMaxLength darkness * cellH in
      if Js.ltb h 0.5 then Some []
      else
        let cy := INR r * cellH + cellH / 2 in
        Some [Gfx.Segment cx (cy - h / 2) cx (cy + h / 2)]));
  Some (Gfx.StrokedPath pathD color strokeWidth).

End VerticalLines.

(** ** animate/effects/vertical-lines-anim.js *)

Module VerticalLinesAnim.
Local Open Scope R_scope.
Import MathUtils SvgSampler.

Definition getDefaultParams : gmap string Js.value :=
  list_to_map
    [("rows", Js.Null); ("maxLength", Js.Num 1); ("minLength", Js.Num 0.05);
     ("minStroke", Js.Num 0.5); ("maxStroke", Js.Num 4);
     ("speed", Js.Num 1.5); ("waveFreq", Js.Num 0.10);
     ("color", Js.Str "#000000")].

Record meta : Type := Meta { cx : R; segOffset : nat; segCount : nat }.

Record animState : Type := AnimState {
  colMeta : list meta;
  segData : list R;
  cols : nat;
  cellW : R;
  outputWidth : R;
  outputHeight : R;
  params : gmap string Js.value
}.

(** One pass of the outer loop of [init]: the column's segments are
    collected, its meta entry records where they start in the flat array,
    then they are appended to it. *)
Definition init_column (colSegs : nat -> option (list R)) (cellW : R)
    (acc : list meta * list R) (c : nat) : option (list meta * list R) :=
  let '(colMeta, segmentsFlat) := acc in
  segs ← colSegs c;
  Some (colMeta ++ [Meta (INR c * cellW + cellW / 2)
                         (length segmentsFlat) (length segs / 2)],
        segmentsFlat ++ segs).

Definition init (sd : sampleData) (params : gmap string Js.value)
    (outputWidth outputHeight : R) : option animState :=
  let merged := Js.spread getDefaultParams params in
  maxLength ← Js.num merged "maxLength";
  minLength ← Js.num merged "minLength";
  let safeMaxLength := Rmax maxLength minLength in
  let cols := SvgSampler.cols sd in
  rows ← Js.nullish merged "rows" (INR (rows sd));
  let cellW := outputWidth / INR cols in
  let cellH := outputHeight / rows in
  let colSegs := fun c : nat =>
    let u := Js.latticeCoord (INR cols) c in
    Js.for_loop (Js.passes rows) (fun r =>
      let v := Js.latticeCoord rows r in
      brightness ← sampleBilinear (grid sd) (SvgSampler.cols sd)
                     (SvgSampler.rows sd) u v;
      let darkness := 1 - brightness in
      let h := lerp minLength safeMaxLength darkness * cellH in
      if Js.ltb h 0.3 then Some []
      else
        let cy := INR r * cellH + cellH / 2 in
        Some [cy - h / 2; cy + h / 2]) in
  '(colMeta, segmentsFlat) ←
     Js.foldM (init_column colSegs cellW) ([], []) (seq 0 cols);
  Some (AnimState colMeta segmentsFlat cols cellW outputWidth outputHeight
          merged).

Definition drawFrame (st : animState) (t : R)
    : option (Gfx.painted Gfx.stroke) :=
  speed ← Js.num (params st) "speed";
  waveFreq ← Js.num (params st) "waveFreq";
  minStroke ← Js.num (params st) "minStroke";
  maxStroke ← Js.num (params st) "maxStroke";
  color ← params st !! "color";
  let safeMaxStroke := Rmax minStroke maxStroke in
  let safeMinStroke := Rmin minStroke safeMaxStroke in
  let maxStrokeByCell := cellW st * 1.35 in
  let effectiveMaxStroke := Rmin safeMaxStroke maxStrokeByCell in
  let effectiveMinStroke := Rmin safeMinStroke effectiveMaxStroke in
  strokes ← Js.for_loop (cols st) (fun c =>
    match colMeta st !! c with
    | None => Some []
    | Some m =>
      if (segCount m =? 0)%nat then Some []
      else
        let wave := 0.5 + 0.5 * sin (t * speed - INR c * waveFreq) in
        let strokeW := lerp effectiveMinStroke effectiveMaxStroke wave in
        Js.for_loop (segCount m) (fun s =>
          y1 ← segData st !! (segOffset m + s * 2)%nat;
          y2 ← segData st !! (segOffset m + s * 2 + 1)%nat;
          Some [Gfx.Stroke (Gfx.Segment (cx m) y1 (cx m) y2) strokeW])
    end);
  Some (Gfx.Painted color strokes).

End VerticalLinesAnim.

(** ** engine/effects/horizontal-lines.js *)

Module HorizontalLines.
Local Open Scope R_scope.
Import MathUtils SvgSampler.

Definition getDefaultParams : gmap string Js.value :=
  list_to_map
    [("rows", Js.Null); ("maxLength", Js.Num 1); ("minLength", Js.Num 0.08);
     ("minStroke", Js.Num 0.5); ("maxStroke", Js.Num 11);
     ("speed", Js.Num 1.5); ("waveFreq", Js.Num 0.20);
     ("color", Js.Str "#000000")].

Definition generate (sd : sampleData) (params : gmap string Js.value)
    (outputWidth outputHeight : R) : option Gfx.strokedPath :=
  let merged := Js.spread getDefaultParams params in
  maxLength ← Js.num merged "maxLength";
  minLength ← Js.num merged "minLength";
  minStroke ← Js.num merged "minStroke";
  maxStroke ← Js.num merged "maxStroke";
  color ← merged !! "color";
  let safeMinStroke := Rmin minStroke maxStroke in
  let safeMaxStroke := Rmax minStroke maxStroke in
  let safeMaxLength := Rmax maxLength minLength in
  let rows := rows sd in
  let cellH := outputHeight / INR rows in
  let maxStrokeByCell := cellH * 1.35 in
  let effectiveMaxStroke := Rmin safeMaxStroke maxStrokeByCell in
  let effectiveMinStroke := Rmin safeMinStroke effectiveMaxStroke in
  let strokeWidth := (effectiveMinStroke + effectiveMaxStroke) / 2 in
  let cols := cols sd in
  let cellW := outputWidth / INR cols in
  pathD ← Js.for_loop rows (fun r =>
    let cy := INR r * cellH + cellH / 2 in
    let v := Js.latticeCoord (INR rows) r in
    Js.for_loop cols (fun c =>
      let u := Js.latticeCoord (INR cols) c in
      brightness ← sampleBilinear (grid sd) (SvgSampler.cols sd)
                     (SvgSampler.rows sd) u v;
      let darkness := 1 - brightness in
      let w := lerp minLength safeMaxLength darkness * cellW in
      if Js.ltb w 0.3 then Some []
      else
        let cx := INR c * cellW + cellW / 2 in
        Some [Gfx.Segment (cx - w / 2) cy (cx + w / 2) cy]));
  Some (Gfx.StrokedPath pathD color strokeWidth).

End HorizontalLines.

(** ** animate/effects/horizontal-lines-anim.js *)

Module HorizontalLinesAnim.
Local Open Scope R_scope.
Import MathUtils SvgSampler.

Definition getDefaultParams : gmap string Js.value :=
  list_to_map
    [("rows", Js.Null); ("maxLength", Js.Num 1); ("minLength", Js.Num 0.08);
     ("minStroke", Js.Num 0.5); ("maxStroke", Js.Num 6);
     ("speed", Js.Num 4); ("waveFreq", Js.Num 0.20);
     ("color", Js.Str "#000000")].

Record meta : Type := Meta { y : R; segOffset : nat; segCount : nat }.

Record animState : Type := AnimState {
  rowMeta : list meta;
  segData : list R;
  rows : R;
  cellH : R;
  outputWidth : R;
  outputHeight : R;
  params : gmap string Js.value
}.

Definition init_row (rowSegs : nat -> option (list R)) (cellH : R)
    (acc : list meta * list R) (r : nat) : option (list meta * list R) :=
  let '(rowMeta, segmentsFlat) := acc in
  segs ← rowSegs r;
  Some (rowMeta ++ [Meta (INR r * cellH + cellH / 2)
                         (length segmentsFlat) (length segs / 2)],
        segmentsFlat ++ segs).

Definition init (sd : sampleData) (params : gmap string Js.value)
    (outputWidth outputHeight : R) : option animState :=
  let merged := Js.spread getDefaultParams params in
  maxLength ← Js.num merged "maxLength";
  minLength ← Js.num merged "minLength";
  let safeMaxLength := Rmax maxLength minLength in
  rows ← Js.nullish merged "rows" (INR (SvgSampler.rows sd));
  let cellH := outputHeight / rows in
  let cols := cols sd in
  let cellW := outputWidth / INR cols in
  let rowSegs := fun r : nat =>
    let v := Js.latticeCoord rows r in
    Js.for_loop cols (fun c =>
      let u := Js.latticeCoord (INR cols) c in
      brightness ← sampleBilinear (grid sd) (SvgSampler.cols sd)
                     (SvgSampler.rows sd) u v;
      let darkness := 1 - brightness in
      let w := lerp minLength safeMaxLength darkness * cellW in
      if Js.ltb w 0.3 then Some []
      else
        let cx := INR c * cellW + cellW / 2 in
        Some [cx - w / 2; cx + w / 2]) in
  '(rowMeta, segmentsFlat) ←
     Js.foldM (init_row rowSegs cellH) ([], []) (seq 0 (Js.passes rows));
  Some (AnimState rowMeta segmentsFlat rows cellH outputWidth outputHeight
          merged).

Definition drawFrame (st : animState) (t : R)
    : option (Gfx.painted Gfx.stroke) :=
  speed ← Js.num (params st) "speed";
  waveFreq ← Js.num (params st) "waveFreq";
  minStroke ← Js.num (params st) "minStroke";
  maxStroke ← Js.num (params st) "maxStroke";
  color ← params st !! "color";
  let safeMaxStroke := Rmax minStroke maxStroke in
  let safeMinStroke := Rmin minStroke safeMaxStroke in
  let maxStrokeByCell := cellH st * 1.35 in
  let effectiveMaxStroke := Rmin safeMaxStroke maxStrokeByCell in
  let effectiveMinStroke := Rmin safeMinStroke effectiveMaxStroke in
  strokes ← Js.for_loop (Js.passes (rows st)) (fun r =>
    match rowMeta st !! r with
    | None => Some []
    | Some m =>
      if (segCount m =? 0)%nat then Some []
      else
        let wave := 0.5 + 0.5 * sin (t * speed - INR r * waveFreq) in
        let strokeW := lerp effectiveMinStroke effectiveMaxStroke wave in
        Js.for_loop (segCount m) (fun s =>
          x1 ← segData st !! (segOffset m + s * 2)%nat;
          x2 ← segData st !! (segOffset m + s * 2 + 1)%nat;
          Some [Gfx.Stroke (Gfx.Segment x1 (y m) x2 (y m)) strokeW])
    end);
  Some (Gfx.Painted color strokes).

End HorizontalLinesAnim.

(** ** engine/effects/ellipse-grid.js *)

Module EllipseGrid.
Local Open Scope R_scope.
Import MathUtils SvgSampler.

Definition getDefaultParams : gmap string Js.value :=
  list_to_map
    [("cols", Js.Num 60); ("maxRy", Js.Num 18);
     ("eccentricity", Js.Num 0.40); ("speed", Js.Num 4);
     ("pulseFrac", Js.Num 0.5); ("color", Js.Str "#000000")].

Definition generate (sd : sampleData) (params : gmap string Js.value)
    (outputWidth outputHeight : R)
    : option (Gfx.painted Gfx.ellipse) :=
  let merged := Js.spread getDefaultParams params in
  cols ← Js.num merged "cols";
  maxRy ← Js.num merged "maxRy";
  eccentricity ← Js.num merged "eccentricity";
  color ← merged !! "color";
  let rows := Z.max 1 (Js.round (cols / aspect sd)) in
  let cellW := outputWidth / cols in
  let cellH := outputHeight / IZR rows in
  let scale := outputHeight / 1000 in
  let ryMax := maxRy * scale in
  elements ← Js.for_loop (Z.to_nat rows) (fun r =>
    Js.for_loop (Js.passes cols) (fun c =>
      let u := Js.latticeCoord cols c in
      let v := Js.latticeCoord (IZR rows) r in
      brightness ← sampleBilinear (grid sd) (SvgSampler.cols sd)
                     (SvgSampler.rows sd) u v;
      let darkness := 1 - brightness in
      let cx := INR c * cellW + cellW / 2 in
      let cy := INR r * cellH + cellH / 2 in
      let ry := lerp 0 ryMax darkness in
      let rx := Rmax (ry * eccentricity) 0.5 in
      if Js.ltb rx 0.3 && Js.ltb ry 0.3 then Some []
      else Some [Gfx.Ellipse cx cy rx ry]));
  Some (Gfx.Painted color elements).

End EllipseGrid.

(** ** animate/effects/ellipse-grid-anim.js

    [cellData] is the flat array in the order the passes fill it, which
    is the order of its indices [(r * cols + c) * 4] for an integral
    [cols]. *)

Module EllipseGridAnim.
Local Open Scope R_scope.
Import MathUtils SvgSampler.

Definition getDefaultParams : gmap string Js.value :=
  list_to_map
    [("cols", Js.Num 60); ("maxRy", Js.Num 18);
     ("eccentricity", Js.Num 0.40); ("speed", Js.Num 2);
     ("pulseFrac", Js.Num 0.5); ("color", Js.Str "#000000")].

Record animState : Type := AnimState {
  cellData : list R;
  cols : R;
  rows : Z;
  outputWidth : R;
  outputHeight : R;
  params : gmap string Js.value
}.

Definition init (sd : sampleData) (params : gmap string Js.value)
    (outputWidth outputHeight : R) : option animState :=
  let merged := Js.spread getDefaultParams params in
  cols ← Js.num merged "cols";
  maxRy ← Js.num merged "maxRy";
  let gridAspect := INR (SvgSampler.cols sd) / INR (SvgSampler.rows sd) in
  let rows := Z.max 1 (Js.round (cols / gridAspect)) in
  let cellW := outputWidth / cols in
  let cellH := outputHeight / IZR rows in
  let scale := outputHeight / 1000 in
  let ryMax := maxRy * scale in
  let waveFreqFixed := 0.35 in
  cellData ← Js.for_loop (Z.to_nat rows) (fun r =>
    Js.for_loop (Js.passes cols) (fun c =>
      let u := Js.latticeCoord cols c in
      let v := Js.latticeCoord (IZR rows) r in
      brightness ← sampleBilinear (grid sd) (SvgSampler.cols sd)
                     (SvgSampler.rows sd) u v;
      let darkness := 1 - brightness in
      let cx := INR c * cellW + cellW / 2 in
      let cy := INR r * cellH + cellH / 2 in
      let baseRy := lerp 0 ryMax darkness in
      let phase := (INR r + INR c) * waveFreqFixed in
      Some [cx; cy; baseRy; phase]));
  Some (AnimState cellData cols rows outputWidth outputHeight merged).

Definition drawFrame (st : animState) (t : R)
    : option (Gfx.painted Gfx.ellipse) :=
  speed ← Js.num (params st) "speed";
  eccentricity ← Js.num (params st) "eccentricity";
  pulseFrac ← Js.num (params st) "pulseFrac";
  color ← params st !! "color";
  let total := cols st * IZR (rows st) in
  drawn ← Js.for_loop (Js.passes total) (fun i =>
    cx ← cellData st !! (i * 4 + 0)%nat;
    cy ← cellData st !! (i * 4 + 1)%nat;
    baseRy ← cellData st !! (i * 4 + 2)%nat;
    phase ← cellData st !! (i * 4 + 3)%nat;
    let pulse := 0.5 + 0.5 * sin (t * speed + phase) in
    let ry := lerp (baseRy * (1 - pulseFrac)) baseRy pulse in
    let rx := Rmax (ry * eccentricity) 0.5 in
    if Js.ltb ry 0.5 then Some []
    else Some [Gfx.Ellipse cx cy rx ry]);
  Some (Gfx.Painted color drawn).

End EllipseGridAnim.

(** ** engine/effects/particle-scatter.js *)

Module ParticleScatter.
Local Open Scope R_scope.
Import MathUtils SvgSampler.

Definition getDefaultParams : gmap string Js.value :=
  list_to_map
    [("maxDots", Js.Num 6000); ("maxRadius", Js.Num 6);
     ("minRadius", Js.Num 0.5); ("seed", Js.Num 42);
     ("scatter", Js.Num 1); ("speed", Js.Num 4);
     ("color", Js.Str "#000000")].

Definition densityPower : R := 1.8.

(** The weight [w] of every cell, in the order of the two loops. *)
Definition cellWeights (sd : sampleData) : option (list R) :=
  Js.for_loop (rows sd) (fun r =>
    Js.for_loop (cols sd) (fun c =>
      row ← grid sd !! r;
      g ← row !! c;
      let darkness := 1 - g in
      Some [Js.pow darkness densityPower + 0.02])).

(** [totalWeight += w; weights.push(totalWeight)]. *)
Fixpoint cumulative (totalWeight : R) (ws : list R) : list R :=
  match ws with
  | [] => []
  | w :: ws' => (totalWeight + w) :: cumulative (totalWeight + w) ws'
  end.

(** The binary search of the dot loop; [hi - lo] shrinks on every pass,
    so [fuel = weights.length] passes are never used up. *)
Fixpoint search (fuel : nat) (weights : list R) (target : R)
    (lo hi : nat) : nat :=
  match fuel with
  | O => lo
  | S fuel' =>
    if (lo <? hi)%nat then
      let mid := ((lo + hi) / 2)%nat in
      if Js.ltb (nth mid weights 0) target
      then search fuel' weights target (mid + 1) hi
      else search fuel' weights target lo mid
    else lo
  end.

Definition pickCell (weights : list R) (target : R) : nat :=
  search (length weights) weights target 0 (length weights - 1).

Section DotLoop.

Variable sd : sampleData.
Variables weights : list R.
Variables totalWeight cellW cellH outputWidth outputHeight : R.
Variables scatter safeMinRadius safeMaxRadius : R.

(** One pass of the dot loop up to the first size test: the generator
    state after the pass and, unless the pass ended in [continue], the
    position and [baseR]. *)
Definition place (s : Z) : option (Z * option (R * R * R)) :=
  let '(r1, s) := rand s in
  let target := r1 * totalWeight in
  let cellIndex := pickCell weights target in
  let cr := (cellIndex / cols sd)%nat in
  let cc := (cellIndex mod cols sd)%nat in
  let '(r2, s) := rand s in
  let px := (INR cc + 0.5 + (r2 - 0.5) * (1 + scatter)) * cellW in
  let '(r3, s) := rand s in
  let py := (INR cr + 0.5 + (r3 - 0.5) * (1 + scatter)) * cellH in
  if Js.ltb px 0 || Js.ltb outputWidth px
     || Js.ltb py 0 || Js.ltb outputHeight py
  then Some (s, None)
  else
    let u := px / outputWidth in
    let v := py / outputHeight in
    brightness ← sampleBilinear (grid sd) (cols sd) (rows sd) u v;
    let darkness := 1 - brightness in
    let '(r4, s) := rand s in
    let baseR :=
      lerp safeMinRadius safeMaxRadius (darkness * (0.3 + r4 * 0.7)) in
    if Js.ltb baseR 0.15 then Some (s, None)
    else Some (s, Some (px, py, baseR)).

(** The dot loop of [generate], [n] passes from generator state [s]. *)
Fixpoint dots (n : nat) (s : Z) : option (list Gfx.circle) :=
  match n with
  | O => Some []
  | S n' =>
    '(s, placed) ← place s;
    match placed with
    | None => dots n' s
    | Some (px, py, baseR) =>
      let '(r5, s) := rand s in
      let ph := r5 * PI * 2 in
      let pulse := 0.5 + 0.5 * sin ph in
      let r := lerp safeMinRadius baseR pulse in
      if Js.ltb r 0.15 then dots n' s
      else rest ← dots n' s; Some (Gfx.Circle px py r :: rest)
    end
  end.

End DotLoop.

Definition generate (sd : sampleData) (params : gmap string Js.value)
    (outputWidth outputHeight : R)
    : option (Gfx.painted Gfx.circle) :=
  let merged := Js.spread getDefaultParams params in
  maxDots ← Js.num merged "maxDots";
  maxRadius ← Js.num merged "maxRadius";
  minRadius ← Js.num merged "minRadius";
  seed ← Js.num merged "seed";
  scatter ← Js.num merged "scatter";
  color ← merged !! "color";
  let safeMinRadius := Rmin minRadius maxRadius in
  let safeMaxRadius := Rmax minRadius maxRadius in
  let dotCount := Z.to_nat (Z.max 1 (Js.round maxDots)) in
  let rand0 := mulberry32 (Js.truncate seed) in
  ws ← cellWeights sd;
  let weights := cumulative 0 ws in
  let totalWeight := List.last weights 0 in
  if Req_dec_T totalWeight 0 then Some (Gfx.Painted color [])
  else
    let cellW := outputWidth / INR (cols sd) in
    let cellH := outputHeight / INR (rows sd) in
    circles ← dots sd weights totalWeight cellW cellH outputWidth
                 outputHeight scatter safeMinRadius safeMaxRadius
                 dotCount rand0;
    Some (Gfx.Painted color circles).

End ParticleScatter.

(** ** animate/effects/particle-scatter-anim.js

    The weight table, the binary search and the dot loop up to the test
    of [baseR] are the statements of particle-scatter.js again; the
    definitions above are reused for them. *)

Module ParticleScatterAnim.
Local Open Scope R_scope.
Import MathUtils SvgSampler.

Definition getDefaultParams : gmap string Js.value :=
  list_to_map
    [("maxDots", Js.Num 6000); ("maxRadius", Js.Num 6);
     ("minRadius", Js.Num 0.5); ("seed", Js.Num 42);
     ("scatter", Js.Num 1); ("speed", Js.Num 1.8);
     ("color", Js.Str "#000000")].

Record particle : Type :=
  Particle { x : R; y : R; baseR : R; phase : R }.

Record animState : Type := AnimState {
  px : list R;
  py : list R;
  pr : list R;
  ph : list R;
  count : nat;
  outputWidth : R;
  outputHeight : R;
  params : gmap string Js.value
}.

(** The dot loop of [init]: the particles in the order they are
    stored. *)
Fixpoint particles (place : Z -> option (Z * option (R * R * R)))
    (n : nat) (s : Z) : option (list particle) :=
  match n with
  | O => Some []
  | S n' =>
    '(s, placed) ← place s;
    match placed with
    | None => particles place n' s
    | Some (x, y, baseR) =>
      let '(r5, s) := rand s in
      rest ← particles place n' s;
      Some (Particle x y baseR (r5 * PI * 2) :: rest)
    end
  end.

Definition init (sd : sampleData) (params : gmap string Js.value)
    (outputWidth outputHeight : R) : option animState :=
  let merged := Js.spread getDefaultParams params in
  maxDots ← Js.num merged "maxDots";
  maxRadius ← Js.num merged "maxRadius";
  minRadius ← Js.num merged "minRadius";
  seed ← Js.num merged "seed";
  scatter ← Js.num merged "scatter";
  let safeMinRadius := Rmin minRadius maxRadius in
  let safeMaxRadius := Rmax minRadius maxRadius in
  let dotCount := Z.max 1 (Js.round maxDots) in
  let rand0 := mulberry32 (Js.truncate seed) in
  ws ← ParticleScatter.cellWeights sd;
  let weights := ParticleScatter.cumulative 0 ws in
  let totalWeight := List.last weights 0 in
  let cellW := outputWidth / INR (cols sd) in
  let cellH := outputHeight / INR (rows sd) in
  ps ← particles
         (ParticleScatter.place sd weights totalWeight cellW cellH
            outputWidth outputHeight scatter safeMinRadius safeMaxRadius)
         (Z.to_nat dotCount) rand0;
  px ← Js.float32Array dotCount (map x ps);
  py ← Js.float32Array dotCount (map y ps);
  pr ← Js.float32Array dotCount (map baseR ps);
  ph ← Js.float32Array dotCount (map phase ps);
  Some (AnimState px py pr ph (length ps) outputWidth outputHeight merged).

Definition drawFrame (st : animState) (t : R)
    : option (Gfx.painted Gfx.circle) :=
  speed ← Js.num (params st) "speed";
  minRadius ← Js.num (params st) "minRadius";
  color ← params st !! "color";
  maxRadius ← Js.num (params st) "maxRadius";
  let safeMinRadius := Rmin minRadius maxRadius in
  arcs ← Js.for_loop (count st) (fun i =>
    phi ← ph st !! i;
    pri ← pr st !! i;
    pxi ← px st !! i;
    pyi ← py st !! i;
    let pulse := 0.5 + 0.5 * sin (t * speed + phi) in
    let r := lerp safeMinRadius pri pulse in
    if Js.ltb r 0.15 then Some []
    else Some [Gfx.Circle pxi pyi r]);
  Some (Gfx.Painted color arcs).

End ParticleScatterAnim.

(** ** engine/effects/star-glint.js

    [cellW = outputWidth / cols] and [rows = Math.floor(outputHeight /
    cellW)] bound the two loops.  With [cols = 0] or [outputWidth = 0]
    one of the divisors is zero and the source goes on with an infinity
    or a [NaN] (an empty picture, a row loop that never ends or, in
    [init] of the animated variant, a [RangeError] from the typed
    arrays): [generate] and [init] are [None] there. *)

Module StarGlint.
Local Open Scope R_scope.
Import MathUtils SvgSampler.

Definition pseudoRandom (seed : R) : R :=
  let x := sin seed * 10000 in
  x - IZR (Zfloor x).

Definition getDefaultParams : gmap string Js.value :=
  list_to_map
    [("density", Js.Num 80); ("scale", Js.Num 15);
     ("sharpness", Js.Num 0.7); ("jitter", Js.Num 5);
     ("speed", Js.Num 4); ("color", Js.Str "#000000")].

Definition minScale : R := 1.

(** The body of the inner loop after the darkness test: the glyph of
    lattice cell [(r, c)] whose sample point has the given darkness. *)
Definition glyph (cols : Z) (cellW maxScale sharpness jitter : R)
    (r c : nat) (darkness : R) : list Gfx.glint :=
  let cellH := cellW in
  let seed := INR r * IZR cols + INR c in
  let rx := pseudoRandom (seed * 1.1) - 0.5 in
  let ry := pseudoRandom (seed * 1.2) - 0.5 in
  let rPhase := pseudoRandom (seed * 1.3) * PI * 2 in
  let maxJitter := Rmin jitter (cellW * 0.8) in
  let cx := INR c * cellW + cellW / 2 + rx * maxJitter in
  let cy := INR r * cellH + cellH / 2 + ry * maxJitter in
  let wave := 0.5 + 0.5 * sin rPhase in
  let weight := lerp (darkness * 0.2) darkness wave in
  let effectiveMaxScale := Rmin maxScale (cellW * 1.5) in
  let currentScale := lerp minScale effectiveMaxScale weight in
  if Js.ltb currentScale 0.5 then []
  else
    let cpDist := currentScale * (1 - sharpness) in
    [Gfx.Glint cx cy currentScale cpDist].

Definition generate (sd : sampleData) (params : gmap string Js.value)
    (outputWidth outputHeight : R) : option (Gfx.painted Gfx.glint) :=
  let merged := Js.spread getDefaultParams params in
  density ← Js.num merged "density";
  maxScale ← Js.num merged "scale";
  sharpness ← Js.num merged "sharpness";
  jitter ← Js.num merged "jitter";
  color ← merged !! "color";
  let cols := Zfloor density in
  cellW ← Js.div outputWidth (IZR cols);
  quot ← Js.div outputHeight cellW;
  let rows := Zfloor quot in
  paths ← Js.for_loop (Z.to_nat rows) (fun r =>
    let v := Js.latticeCoord (IZR rows) r in
    Js.for_loop (Z.to_nat cols) (fun c =>
      let u := Js.latticeCoord (IZR cols) c in
      brightness ← sampleBilinear (grid sd) (SvgSampler.cols sd)
                     (SvgSampler.rows sd) u v;
      let darkness := 1 - brightness in
      if Js.ltb darkness 0.3 then Some []
      else Some (glyph cols cellW maxScale sharpness jitter r c darkness)));
  Some (Gfx.Painted color paths).

End StarGlint.

(** ** animate/effects/star-glint-anim.js *)

Module StarGlintAnim.
Local Open Scope R_scope.
Import MathUtils SvgSampler.

Definition pseudoRandom (seed : R) : R :=
  let x := sin seed * 10000 in
  x - IZR (Zfloor x).

Definition getDefaultParams : gmap string Js.value :=
  list_to_map
    [("density", Js.Num 80); ("scale", Js.Num 15);
     ("sharpness", Js.Num 0.7); ("jitter", Js.Num 5);
     ("speed", Js.Num 4); ("color", Js.Str "#000000")].

Record star : Type :=
  Star { starX : R; starY : R; starD : R; starPhase : R }.

Record animState : Type := AnimState {
  count : nat;
  sx : list R;
  sy : list R;
  sd : list R;
  sPhase : list R;
  outputWidth : R;
  outputHeight : R;
  cellW : R;
  params : gmap string Js.value
}.

Definition init (sample : sampleData) (params : gmap string Js.value)
    (outputWidth outputHeight : R) : option animState :=
  let merged := Js.spread getDefaultParams params in
  density ← Js.num merged "density";
  jitter ← Js.num merged "jitter";
  let cols := Zfloor density in
  cellW ← Js.div outputWidth (IZR cols);
  quot ← Js.div outputHeight cellW;
  let rows := Zfloor quot in
  let cellH := cellW in
  let total := (rows * cols)%Z in
  stars ← Js.for_loop (Z.to_nat rows) (fun r =>
    let v := Js.latticeCoord (IZR rows) r in
    Js.for_loop (Z.to_nat cols) (fun c =>
      let u := Js.latticeCoord (IZR cols) c in
      brightness ← sampleBilinear (grid sample) (SvgSampler.cols sample)
                     (SvgSampler.rows sample) u v;
      let darkness := 1 - brightness in
      if Js.geb darkness 0.3 then
        let seed := INR r * IZR cols + INR c in
        let rx := pseudoRandom (seed * 1.1) - 0.5 in
        let ry := pseudoRandom (seed * 1.2) - 0.5 in
        let rPhase := pseudoRandom (seed * 1.3) * PI * 2 in
        let maxJitter := Rmin jitter (cellW * 0.8) in
        Some [Star (INR c * cellW + cellW / 2 + rx * maxJitter)
                   (INR r * cellH + cellH / 2 + ry * maxJitter)
                   darkness rPhase]
      else Some []));
  sx ← Js.float32Array total (map starX stars);
  sy ← Js.float32Array total (map starY stars);
  sd ← Js.float32Array total (map starD stars);
  sPhase ← Js.float32Array total (map starPhase stars);
  Some (AnimState (length stars) sx sy sd sPhase outputWidth outputHeight
          cellW merged).

Definition drawFrame (st : animState) (t : R)
    : option (Gfx.painted Gfx.glint) :=
  maxScale ← Js.num (params st) "scale";
  sharpness ← Js.num (params st) "sharpness";
  speed ← Js.num (params st) "speed";
  color ← params st !! "color";
  let minScale := 1 in
  glyphs ← Js.for_loop (count st) (fun i =>
    cx ← sx st !! i;
    cy ← sy st !! i;
    darkness ← sd st !! i;
    phase ← sPhase st !! i;
    let wave := 0.5 + 0.5 * sin (t * speed + phase) in
    let weight := lerp (darkness * 0.2) darkness wave in
    let effectiveMaxScale := Rmin maxScale (cellW st * 1.5) in
    let currentScale := lerp minScale effectiveMaxScale weight in
    if Js.ltb currentScale 0.5 then Some []
    else
      let cpDist := currentScale * (1 - sharpness) in
      Some [Gfx.Glint cx cy currentScale cpDist]);
  Some (Gfx.Painted color glyphs).

End StarGlintAnim.

(** ** engine/effects/line-halftone.js *)

Module LineHalftone.
Local Open Scope R_scope.
Import MathUtils SvgSampler.

Definition getDefaultParams : gmap string Js.value :=
  list_to_map
    [("density", Js.Num 80); ("contrast", Js.Num 15);
     ("pulse", Js.Num 1.5); ("speed", Js.Num 3);
     ("color", Js.Str "#000000")].

Definition stepsPerLine : nat := 300.

Definition generate (sd : sampleData) (params : gmap string Js.value)
    (outputWidth outputHeight : R) : option (Gfx.painted Gfx.stroke) :=
  let merged := Js.spread getDefaultParams params in
  density ← Js.num merged "density";
  contrast ← Js.num merged "contrast";
  pulse ← Js.num merged "pulse";
  color ← merged !! "color";
  let rows := Zfloor density in
  let cellH := outputHeight / IZR rows in
  let stepW := outputWidth / INR stepsPerLine in
  let minStroke := 0.5 in
  let maxStroke := Rmin contrast (cellH * 1.8) in
  paths ← Js.for_loop (Z.to_nat rows) (fun r =>
    let cy := INR r * cellH + cellH / 2 in
    let v := Js.latticeCoord (IZR rows) r in
    Js.for_loop stepsPerLine (fun c =>
      let u := INR c / (INR stepsPerLine - 1) in
      brightness ← sampleBilinear (grid sd) (SvgSampler.cols sd)
                     (SvgSampler.rows sd) u v;
      let darkness := 1 - brightness in
      if Js.ltb darkness 0.3 then Some []
      else
        let wave := 0.5 + 0.5 * sin (u * PI * 2 * pulse) in
        let weight := lerp (darkness * 0.2) darkness wave in
        let strokeW := lerp minStroke maxStroke weight in
        let cx := INR c * stepW + stepW / 2 in
        let x1 := cx - stepW / 2 in
        let x2 := cx + stepW / 2 + 0.5 in
        Some [Gfx.Stroke (Gfx.Segment x1 cy x2 cy) strokeW]));
  Some (Gfx.Painted color paths).

End LineHalftone.

(** ** animate/effects/line-halftone-anim.js *)

Module LineHalftoneAnim.
Local Open Scope R_scope.
Import MathUtils SvgSampler.

Definition getDefaultParams : gmap string Js.value :=
  list_to_map
    [("density", Js.Num 80); ("contrast", Js.Num 15);
     ("pulse", Js.Num 1.5); ("speed", Js.Num 3);
     ("color", Js.Str "#000000")].

Record piece : Type := Piece { pieceX : R; pieceY : R; pieceD : R }.

Record animState : Type := AnimState {
  count : nat;
  stepsPerLine : nat;
  stepW : R;
  sx : list R;
  sy : list R;
  sd : list R;
  outputWidth : R;
  outputHeight : R;
  cellH : R;
  params : gmap string Js.value
}.

Definition init (sample : sampleData) (params : gmap string Js.value)
    (outputWidth outputHeight : R) : option animState :=
  let merged := Js.spread getDefaultParams params in
  density ← Js.num merged "density";
  let rows := Zfloor density in
  let cellH := outputHeight / IZR rows in
  let stepsPerLine := 300%nat in
  let stepW := outputWidth / INR stepsPerLine in
  let totalSegments := (rows * Z.of_nat stepsPerLine)%Z in
  pieces ← Js.for_loop (Z.to_nat rows) (fun r =>
    let cy := INR r * cellH + cellH / 2 in
    let v := Js.latticeCoord (IZR rows) r in
    Js.for_loop stepsPerLine (fun c =>
      let cx := INR c * stepW + stepW / 2 in
      let u := Js.latticeCoord (INR stepsPerLine) c in
      brightness ← sampleBilinear (grid sample) (SvgSampler.cols sample)
                     (SvgSampler.rows sample) u v;
      let darkness := 1 - brightness in
      if Js.geb darkness 0.3 then Some [Piece cx cy darkness]
      else Some []));
  sx ← Js.float32Array totalSegments (map pieceX pieces);
  sy ← Js.float32Array totalSegments (map pieceY pieces);
  sd ← Js.float32Array totalSegments (map pieceD pieces);
  Some (AnimState (length pieces) stepsPerLine stepW sx sy sd outputWidth
          outputHeight cellH merged).

Definition drawFrame (st : animState) (t : R)
    : option (Gfx.painted Gfx.stroke) :=
  contrast ← Js.num (params st) "contrast";
  pulse ← Js.num (params st) "pulse";
  speed ← Js.num (params st) "speed";
  color ← params st !! "color";
  let minStroke := 0.5 in
  let maxStroke := Rmin contrast (cellH st * 1.8) in
  strokes ← Js.for_loop (count st) (fun i =>
    x ← sx st !! i;
    y ← sy st !! i;
    darkness ← sd st !! i;
    let u := x / outputWidth st in
    let phase := u * PI * 2 * pulse + t * speed * 2.0 in
    let wave := 0.5 + 0.5 * sin phase in
    let weight := lerp (darkness * 0.2) darkness wave in
    let currentWidth := lerp minStroke maxStroke weight in
    Some [Gfx.Stroke (Gfx.Segment (x - stepW st / 2) y
                                  (x + stepW st / 2 + 0.5) y)
                     currentWidth]);
  Some (Gfx.Painted color strokes).

End LineHalftoneAnim.

(** ** The documented recipe of the seeded generator

    Follows the words of the specification, not the source: every value
    is an unsigned 32-bit integer and every operation wraps modulo 2^32. *)

Module Recipe.
Local Open Scope Z_scope.

Definition wrap (z : Z) : Z := z mod 4294967296.

Definition step (s : Z) : Z * Z :=
  let s := wrap (s + 1831565813) in
  let t := wrap (Z.lxor s (Z.shiftr s 15) * Z.lor s 1) in
  let t := Z.lxor t (wrap (t + Z.lxor t (Z.shiftr t 7) * Z.lor t 61)) in
  (s, Z.lxor t (Z.shiftr t 14)).

Fixpoint state_after (n : nat) (s : Z) : Z :=
  match n with
  | O => s
  | S k => state_after k (fst (step s))
  end.

Definition output_bits (seed : Z) (n : nat) : Z :=
  snd (step (state_after n (wrap seed))).

End Recipe.

(** ** Vocabulary of the statements *)

Module Spec.
Local Open Scope R_scope.

(** A grid of [rows] rows of [cols] cells each. *)
Definition wf_grid (grid : list (list R)) (cols rows : nat) : Prop :=
  length grid = rows /\ Forall (fun row => length row = cols) grid.

(** The lower index [floor (u * (n - 1))] the sampler reads along an
    axis of [n] cells. *)
Definition floorIndex (n : nat) (u : R) : Z := Zfloor (u * (INR n - 1)).

(** The parameter object [p] with the pair [kmin], [kmax] set. *)
Definition with_pair (kmin kmax : string) (a b : R)
    (p : gmap string Js.value) : gmap string Js.value :=
  <[kmin := Js.Num a]> (<[kmax := Js.Num b]> p).

(** A grid that is white everywhere, and the 10 x 10 one as sample
    data. *)
Definition white (cols rows : nat) : list (list R) :=
  replicate rows (replicate cols 1).

Definition white10 : SvgSampler.sampleData :=
  SvgSampler.SampleData (white 10 10) 10 10 1 100 100.

(** A parameter set maps its keys to numbers, the colour excepted (and
    [rows], which may be [null]). *)
Definition numeric_params (p : gmap string Js.value) : Prop :=
  forall k v, p !! k = Some v ->
    k = "color"%string \/
    (k = "rows"%string /\ v = Js.Null) \/
    exists r, v = Js.Num r.

(** What [drawFrame] of Star Glint draws for one stored star. *)
Definition drawStar (maxScale sharpness speed cellW t : R)
    (s : StarGlintAnim.star) : list Gfx.glint :=
  let wave := 0.5 + 0.5 * sin (t * speed + StarGlintAnim.starPhase s) in
  let weight :=
    MathUtils.lerp (StarGlintAnim.starD s * 0.2) (StarGlintAnim.starD s)
      wave in
  let effectiveMaxScale := Rmin maxScale (cellW * 1.5) in
  let currentScale := MathUtils.lerp 1 effectiveMaxScale weight in
  if Js.ltb currentScale 0.5 then []
  else [Gfx.Glint (StarGlintAnim.starX s) (StarGlintAnim.starY s)
          currentScale (currentScale * (1 - sharpness))].

(** The star [init] stores for lattice cell [(r, c)] of darkness [d]. *)
Definition storedStar (cols : Z) (cellW jitter : R) (r c : nat) (d : R)
    : StarGlintAnim.star :=
  let seed := INR r * IZR cols + INR c in
  let maxJitter := Rmin jitter (cellW * 0.8) in
  StarGlintAnim.Star
    (INR c * cellW + cellW / 2
     + (StarGlintAnim.pseudoRandom (seed * 1.1) - 0.5) * maxJitter)
    (INR r * cellW + cellW / 2
     + (StarGlintAnim.pseudoRandom (seed * 1.2) - 0.5) * maxJitter)
    d (StarGlintAnim.pseudoRandom (seed * 1.3) * PI * 2).

(** What [drawFrame] of Particle Scatter draws for one stored
    particle. *)
Definition drawParticle (safeMinRadius speed t : R)
    (q : ParticleScatterAnim.particle) : list Gfx.circle :=
  let pulse :=
    0.5 + 0.5 * sin (t * speed + ParticleScatterAnim.phase q) in
  let r :=
    MathUtils.lerp safeMinRadius (ParticleScatterAnim.baseR q) pulse in
  if Js.ltb r 0.15 then []
  else [Gfx.Circle (ParticleScatterAnim.x q) (ParticleScatterAnim.y q) r].

(** The segment [drawFrame] of Line Halftone draws for a stored piece,
    whatever the time. *)
Definition pieceSegment (stepW : R) (q : LineHalftoneAnim.piece)
    : Gfx.segment :=
  Gfx.Segment (LineHalftoneAnim.pieceX q - stepW / 2)
    (LineHalftoneAnim.pieceY q)
    (LineHalftoneAnim.pieceX q + stepW / 2 + 0.5)
    (LineHalftoneAnim.pieceY q).

(** Sample data of a single cell, black or white, and a parameter set
    asking for one column. *)
Definition black1 : SvgSampler.sampleData :=
  SvgSampler.SampleData [[0]] 1 1 1 100 100.

Definition white1 : SvgSampler.sampleData :=
  SvgSampler.SampleData [[1]] 1 1 1 100 100.

Definition oneCol : gmap string Js.value :=
  list_to_map [("cols"%string, Js.Num 1)].

End Spec.

(** ** engine/utils/math.js: the range mapping

    Kept apart from [MathUtils] so that its name does not hide the [map]
    of lists. *)

Module MathMap.
Local Open Scope R_scope.

Definition map (value inMin inMax outMin outMax : R) : R :=
  outMin + ((value - inMin) / (inMax - inMin)) * (outMax - outMin).

End MathMap.

(** ** Vocabulary: bars on a flat array

    The animated line effects push the two ends of every bar on one flat
    array and keep, per line, the offset and the number of its bars. *)

Module Layout.

Definition ends (q : R * R) : list R := [fst q; snd q].

(** The flat array holds the bars [ps] from index [off] on. *)
Definition holds (flat : list R) (off : nat) (ps : list (R * R)) : Prop :=
  forall i q, ps !! i = Some q ->
    flat !! (off + i * 2)%nat = Some (fst q) /\
    flat !! (off + i * 2 + 1)%nat = Some (snd q).

(** After the lines below [a]: one entry per line, which records the
    number of its bars and where the array holds them.  [mk c o k] is the
    entry of line [c] with offset [o] and [k] bars, [bars c] the bars of
    line [c]. *)
Definition stored {M : Type} (mk : nat -> nat -> nat -> M)
    (bars : nat -> option (list (R * R)))
    (acc : list M * list R) (a : nat) : Prop :=
  length (fst acc) = a /\
  forall c m, fst acc !! c = Some m ->
    exists o ps, bars c = Some ps /\ m = mk c o (length ps) /\
                 holds (snd acc) o ps.

(** The bars of column [c] of Vertical Lines, as pairs of ends: the
    inner loop of [generate] (with [cut = 0.5]) and of [init] (with
    [cut = 0.3]). *)
Definition verticalBars (sd : SvgSampler.sampleData)
    (minLength safeMaxLength rows cellH cut : R) (c : nat)
    : option (list (R * R)) :=
  let u := Js.latticeCoord (INR (SvgSampler.cols sd)) c in
  Js.for_loop (Js.passes rows) (fun r =>
    let v := Js.latticeCoord rows r in
    brightness ← MathUtils.sampleBilinear (SvgSampler.grid sd)
                   (SvgSampler.cols sd) (SvgSampler.rows sd) u v;
    let darkness := (1 - brightness)%R in
    let h := (MathUtils.lerp minLength safeMaxLength darkness * cellH)%R in
    if Js.ltb h cut then Some []
    else
      let cy := (INR r * cellH + cellH / 2)%R in
      Some [((cy - h / 2)%R, (cy + h / 2)%R)]).

(** The bars of row [r] of Horizontal Lines, as pairs of ends: the
    inner loop of [generate] and of [init]. *)
Definition horizontalBars (sd : SvgSampler.sampleData)
    (minLength safeMaxLength rows cellW : R) (r : nat)
    : option (list (R * R)) :=
  let v := Js.latticeCoord rows r in
  Js.for_loop (SvgSampler.cols sd) (fun c =>
    let u := Js.latticeCoord (INR (SvgSampler.cols sd)) c in
    brightness ← MathUtils.sampleBilinear (SvgSampler.grid sd)
                   (SvgSampler.cols sd) (SvgSampler.rows sd) u v;
    let darkness := (1 - brightness)%R in
    let w := (MathUtils.lerp minLength safeMaxLength darkness * cellW)%R in
    if Js.ltb w 0.3 then Some []
    else
      let cx := (INR c * cellW + cellW / 2)%R in
      Some [((cx - w / 2)%R, (cx + w / 2)%R)]).

(** The four numbers [init] of Ellipse Grid stores for a cell, and the
    cells in the order of its two loops. *)
Definition quad (q : R * R * R * R) : list R :=
  let '(cx, cy, baseRy, phase) := q in [cx; cy; baseRy; phase].

Definition ellipseCells (sd : SvgSampler.sampleData) (cols : R) (rows : Z)
    (cellW cellH ryMax : R) : option (list (R * R * R * R)) :=
  Js.for_loop (Z.to_nat rows) (fun r =>
    Js.for_loop (Js.passes cols) (fun c =>
      let u := Js.latticeCoord cols c in
      let v := Js.latticeCoord (IZR rows) r in
      brightness ← MathUtils.sampleBilinear (SvgSampler.grid sd)
                     (SvgSampler.cols sd) (SvgSampler.rows sd) u v;
      let darkness := (1 - brightness)%R in
      Some [((INR c * cellW + cellW / 2)%R,
             (INR r * cellH + cellH / 2)%R,
             MathUtils.lerp 0 ryMax darkness,
             ((INR r + INR c) * 0.35)%R)])).

(** The ellipse [generate] draws for a cell, and what [drawFrame] draws
    for it at time [t]. *)
Definition staticEllipse (eccentricity : R) (q : R * R * R * R)
    : Gfx.ellipse :=
  let '(cx, cy, baseRy, phase) := q in
  Gfx.Ellipse cx cy (Rmax (baseRy * eccentricity) 0.5) baseRy.

Definition frameEllipse (speed eccentricity pulseFrac t : R)
    (q : R * R * R * R) : list Gfx.ellipse :=
  let '(cx, cy, baseRy, phase) := q in
  let pulse := (0.5 + 0.5 * sin (t * speed + phase))%R in
  let ry := MathUtils.lerp (baseRy * (1 - pulseFrac)) baseRy pulse in
  let rx := Rmax (ry * eccentricity) 0.5 in
  if Js.ltb ry 0.5 then [] else [Gfx.Ellipse cx cy rx ry].

End Layout.

(** ** animate/AnimatedCanvas.jsx: the size of the canvas *)

Module AnimatedCanvas.
Local Open Scope R_scope.

(** One entry of the resize callback: the display size given to the
    canvas in a container of [cw] by [ch], or nothing for a container
    under one pixel. *)
Definition displaySize (aspect cw ch : R) : option (Z * Z) :=
  if Js.ltb cw 1 || Js.ltb ch 1 then None
  else
    let w := cw in
    let h := cw / aspect in
    let '(w, h) := if Js.ltb ch h then (ch * aspect, ch) else (w, h) in
    Some (Zfloor w, Zfloor h).

End AnimatedCanvas.

(** ** animate/useAnimationLoop.js: the clock of the frames *)

Module AnimationLoop.
Local Open Scope R_scope.

(** One call of [tick]: the start reference after the call ([None] is
    [null]) and the time handed to [onFrame]. *)
Definition tick (startRef : option R) (timestamp : R) : option R * R :=
  let start := match startRef with None => timestamp | Some s => s end in
  (Some start, (timestamp - start) / 1000).

(** The times handed to [onFrame] over successive calls of [tick]. *)
Fixpoint frames (startRef : option R) (timestamps : list R) : list R :=
  match timestamps with
  | [] => []
  | ts :: rest =>
    let '(startRef, t) := tick startRef ts in t :: frames startRef rest
  end.

End AnimationLoop.

(** ** animate/AnimatedPanel.jsx: the names of the exported files

    A string is the list of its UTF-16 code units; the regular
    expressions have no [u] flag and work on code units. *)

Module AnimatedPanel.
Local Open Scope N_scope.

(** The class [a-z0-9]. *)
Definition lowerAlnum (c : N) : bool :=
  ((97 <=? c) && (c <=? 122)) || ((48 <=? c) && (c <=? 57)).

Definition dash : N := 45.
Definition dot : N := 46.
Definition slash : N := 47.
Definition underscore : N := 95.

(** [s.replace(/[^a-z0-9]+/g, '-')]: every maximal run of code units
    outside the class becomes one dash.  [inRun] tells that the run has
    begun. *)
Fixpoint dashRuns (inRun : bool) (s : list N) : list N :=
  match s with
  | [] => []
  | c :: s' =>
    if lowerAlnum c then c :: dashRuns false s'
    else if inRun then dashRuns true s'
    else dash :: dashRuns true s'
  end.

(** [s.replace(/\.[^/.]+$/, [])] with the empty string: the leftmost dot
    that only code units other than dot and slash follow, at least one,
    is removed with what follows. *)
Fixpoint stripExtension (s : list N) : list N :=
  match s with
  | [] => []
  | c :: s' =>
    if (c =? dot)
       && negb (match s' with [] => true | _ => false end)
       && forallb (fun d => negb ((d =? slash) || (d =? dot))) s'
    then []
    else c :: stripExtension s'
  end.

Section Names.

(** [String.prototype.toLowerCase], left abstract. *)
Variable toLowerCase : list N -> list N.

Definition baseLogoName (logoName : list N) : list N :=
  dashRuns false (toLowerCase (stripExtension logoName)).

Definition safeName (title : list N) : list N :=
  dashRuns false (toLowerCase title).

Definition exportPrefix (logoName title : list N) : list N :=
  baseLogoName logoName ++ [underscore] ++ safeName title.

End Names.

End AnimatedPanel.

(* ================================================================== *)
(** * Part II: properties *)
(* ================================================================== *)

Unset Implicit Arguments.

(** ** Wrap-around arithmetic *)

Section Int32Facts.
Local Open Scope Z_scope.
Import Int32.

Lemma toUint32_range z : 0 <= toUint32 z < two32.
Proof. unfold toUint32, two32. apply Z.mod_pos_bound. lia. Qed.

Lemma toInt32_range z : - two31 <= toInt32 z < two31.
Proof.
  unfold toInt32.
  pose proof (Z.mod_pos_bound (z + two31) two32 eq_refl) as H.
  unfold two31, two32 in *. lia.
Qed.

Lemma toUint32_toInt32 z : toUint32 (toInt32 z) = toUint32 z.
Proof.
  unfold toUint32, toInt32.
  rewrite Zminus_mod_idemp_l.
  f_equal. lia.
Qed.

Lemma toUint32_idem z : toUint32 (toUint32 z) = toUint32 z.
Proof. unfold toUint32. apply Z.mod_mod. discriminate. Qed.

Lemma toUint32_small z : 0 <= z < two32 -> toUint32 z = z.
Proof. intros. unfold toUint32. now apply Z.mod_small. Qed.

Lemma toUint32_land z : toUint32 z = Z.land z (Z.ones 32).
Proof. unfold toUint32, two32. now rewrite Z.land_ones. Qed.

Lemma toUint32_lxor a b :
  toUint32 (Z.lxor a b) = Z.lxor (toUint32 a) (toUint32 b).
Proof.
  rewrite !toUint32_land. apply Z.bits_inj'. intros n Hn.
  rewrite !Z.lxor_spec, !Z.land_spec, Z.lxor_spec.
  destruct (Z.testbit (Z.ones 32) n);
    now rewrite ?andb_true_r, ?andb_false_r.
Qed.

Lemma toUint32_lor a b :
  toUint32 (Z.lor a b) = Z.lor (toUint32 a) (toUint32 b).
Proof. rewrite !toUint32_land. apply Z.land_lor_distr_l. Qed.

Lemma toUint32_add a b :
  toUint32 (a + b) = toUint32 (toUint32 a + toUint32 b).
Proof. unfold toUint32. apply Z.add_mod. discriminate. Qed.

Lemma toUint32_mul a b :
  toUint32 (a * b) = toUint32 (toUint32 a * toUint32 b).
Proof. unfold toUint32. apply Z.mul_mod. discriminate. Qed.

(** What each JavaScript operator does to the unsigned view of its
    operands. *)

Lemma toUint32_bxor a b :
  toUint32 (bxor a b) = Z.lxor (toUint32 a) (toUint32 b).
Proof. unfold bxor. now rewrite toUint32_lxor, !toUint32_toInt32. Qed.

Lemma toUint32_bor a b :
  toUint32 (bor a b) = Z.lor (toUint32 a) (toUint32 b).
Proof. unfold bor. now rewrite toUint32_lor, !toUint32_toInt32. Qed.

Lemma toUint32_imul a b :
  toUint32 (imul a b) = toUint32 (toUint32 a * toUint32 b).
Proof.
  unfold imul.
  now rewrite toUint32_toInt32, toUint32_mul, !toUint32_toInt32.
Qed.

Lemma ushr_range a n : 0 <= ushr a n < two32.
Proof.
  unfold ushr.
  pose proof (toUint32_range a) as [H0 H1].
  pose proof (Z.mod_pos_bound n 32 eq_refl) as [Hn _].
  rewrite Z.shiftr_div_pow2 by assumption.
  assert (0 < 2 ^ (n mod 32)) by (apply Z.pow_pos_nonneg; lia).
  split.
  - apply Z.div_pos; lia.
  - apply Z.le_lt_trans with (toUint32 a); [|assumption].
    apply Z.div_le_upper_bound; nia.
Qed.

Lemma toUint32_ushr a n : toUint32 (ushr a n) = ushr a n.
Proof. apply toUint32_small, ushr_range. Qed.

End Int32Facts.

(** ** The seeded generator against its recipe *)

Section MulberryFacts.
Local Open Scope Z_scope.
Import Int32.

Lemma toUint32_const_small c z : 0 <= c < two32 ->
  toUint32 (toUint32 z + c) = toUint32 (z + c).
Proof.
  intros Hc. rewrite (toUint32_add z c).
  now rewrite (toUint32_small c).
Qed.

(** One call: the unsigned view of the new state and the returned
    numerator are those of the recipe. *)
Lemma next_step s :
  toUint32 (fst (MathUtils.next s)) = fst (Recipe.step (toUint32 s)) /\
  snd (MathUtils.next s) = snd (Recipe.step (toUint32 s)).
Proof.
  unfold MathUtils.next, Recipe.step. cbv zeta. cbn [fst snd].
  change Recipe.wrap with toUint32.
  set (s1 := bor (s + 1831565813) 0).
  assert (Hs1 : toUint32 s1 = toUint32 (toUint32 s + 1831565813)).
  { unfold s1. rewrite toUint32_bor.
    change (toUint32 0) with 0. rewrite Z.lor_0_r.
    rewrite toUint32_const_small; [reflexivity | unfold two32; lia]. }
  rewrite <- Hs1. split; [reflexivity|].
  set (u1 := toUint32 s1).
  set (t1 := imul (bxor s1 (ushr s1 15)) (bor s1 1)).
  assert (Ht1 : toUint32 t1 =
                toUint32 (Z.lxor u1 (Z.shiftr u1 15) * Z.lor u1 1)).
  { unfold t1. rewrite toUint32_imul, toUint32_bxor, toUint32_bor.
    rewrite toUint32_ushr. reflexivity. }
  rewrite <- Ht1.
  set (v1 := toUint32 t1).
  set (t2 := bxor t1 (t1 + imul (bxor t1 (ushr t1 7)) (bor t1 61))).
  assert (Ht2 : toUint32 t2 =
     Z.lxor v1 (toUint32 (v1 + Z.lxor v1 (Z.shiftr v1 7) * Z.lor v1 61))).
  { unfold t2. rewrite toUint32_bxor. fold v1. f_equal.
    rewrite toUint32_add, toUint32_imul, toUint32_bxor, toUint32_bor.
    rewrite toUint32_ushr. fold v1.
    change (toUint32 61) with 61.
    change (ushr t1 7) with (Z.shiftr v1 7).
    rewrite (toUint32_add v1 (toUint32 _)), toUint32_idem.
    now rewrite <- toUint32_add. }
  rewrite <- Ht2.
  unfold ushr at 1. change (0 mod 32) with 0. rewrite Z.shiftr_0_r.
  rewrite toUint32_bxor, toUint32_ushr. reflexivity.
Qed.

Lemma state_after_step n : forall s,
  toUint32 (MathUtils.state_after n s) =
  Recipe.state_after n (toUint32 s).
Proof.
  induction n as [|n IH]; intros s; cbn [MathUtils.state_after
    Recipe.state_after]; [reflexivity|].
  rewrite IH. f_equal. apply next_step.
Qed.

Lemma next_bits_range s : 0 <= snd (MathUtils.next s) < two32.
Proof. unfold MathUtils.next. cbv zeta. cbn [snd]. apply ushr_range. Qed.

End MulberryFacts.

(** The first outputs for the seed the effects use by default. *)
Example mulberry32_golden_42 :
  map (MathUtils.output_bits 42) [0; 1; 2]%nat
  = [2581720956; 1925393290; 3661312704]%Z.
Proof. vm_compute. reflexivity. Qed.

(** C2. For every integer seed, every call of the function returned by
    [mulberry32 seed] yields the numerator the documented recipe yields
    in unsigned 32-bit wrap-around arithmetic, so the two output
    sequences are bit-identical; and every output, the numerator over
    2^32, lies in [0, 1). *)
Theorem C2_mulberry32_follows_recipe (seed : Z) (n : nat) :
  MathUtils.output_bits seed n = Recipe.output_bits seed n /\
  MathUtils.output seed n = (IZR (Recipe.output_bits seed n) / 4294967296)%R /\
  (0 <= MathUtils.output seed n < 1)%R.
Proof.
  assert (Hbits : MathUtils.output_bits seed n = Recipe.output_bits seed n).
  { unfold MathUtils.output_bits, Recipe.output_bits, MathUtils.mulberry32.
    destruct (next_step (MathUtils.state_after n (Int32.bor seed 0)))
      as [_ ->].
    rewrite state_after_step, toUint32_bor.
    change (Int32.toUint32 0) with 0%Z. now rewrite Z.lor_0_r. }
  split; [exact Hbits|]. split.
  - unfold MathUtils.output. now rewrite Hbits.
  - unfold MathUtils.output, MathUtils.output_bits.
    destruct (next_bits_range
                (MathUtils.state_after n (MathUtils.mulberry32 seed)))
      as [H0 H1].
    apply IZR_le in H0. apply IZR_lt in H1.
    unfold Int32.two32 in H1. lra.
Qed.

(** ** The bilinear sampler *)

Section Bilinear.
Local Open Scope R_scope.
Import MathUtils Spec.

Lemma Zfloor_of_INR n : Zfloor (INR n) = Z.of_nat n.
Proof. rewrite INR_IZR_INZ. apply ZfloorZ. Qed.

Lemma cell_inside grid cols rows r c :
  wf_grid grid cols rows ->
  (0 <= r < Z.of_nat rows)%Z -> (0 <= c < Z.of_nat cols)%Z ->
  is_Some (cell grid r c).
Proof.
  intros [Hlen Hrows] Hr Hc. unfold cell.
  destruct (r <? 0)%Z eqn:Er; [lia|].
  destruct (c <? 0)%Z eqn:Ec; [lia|]. cbn [orb].
  destruct (lookup_lt_is_Some_2 grid (Z.to_nat r)) as [row Hrow]; [lia|].
  rewrite Hrow. cbn.
  apply lookup_lt_is_Some_2.
  rewrite (Forall_lookup_1 _ _ _ _ Hrows Hrow). lia.
Qed.

Lemma cell_outside grid cols rows r c :
  wf_grid grid cols rows ->
  is_Some (cell grid r c) ->
  (0 <= r < Z.of_nat rows)%Z /\ (0 <= c < Z.of_nat cols)%Z.
Proof.
  intros [Hlen Hrows] [g Hg]. unfold cell in Hg.
  destruct (r <? 0)%Z eqn:Er; [discriminate|].
  destruct (c <? 0)%Z eqn:Ec; [discriminate|]. cbn [orb] in Hg.
  destruct (grid !! Z.to_nat r) as [row|] eqn:Hrow; [|discriminate].
  cbn in Hg.
  pose proof (lookup_lt_Some _ _ _ Hrow) as H1.
  pose proof (lookup_lt_Some _ _ _ Hg) as H2.
  rewrite (Forall_lookup_1 _ _ _ _ Hrows Hrow) in H2. lia.
Qed.

Lemma axis_eq n u :
  axis n u = (floorIndex n u,
              Z.min (floorIndex n u + 1) (Z.of_nat n - 1),
              u * (INR n - 1) - IZR (floorIndex n u)).
Proof. reflexivity. Qed.

Lemma frac_range x : 0 <= x - IZR (Zfloor x) < 1.
Proof. pose proof (Zfloor_bound x). lra. Qed.

Lemma floorIndex_unit n u :
  (1 <= n)%nat -> 0 <= u <= 1 ->
  (0 <= floorIndex n u < Z.of_nat n)%Z.
Proof.
  intros Hn Hu. unfold floorIndex.
  assert (H1 : 1 <= INR n) by (apply (le_INR 1); lia).
  assert (Hx : 0 <= u * (INR n - 1) <= INR n - 1) by nra.
  split.
  - apply (Zfloor_lub 0). apply Hx.
  - assert (Zfloor (u * (INR n - 1)) <= Zfloor (INR n - 1))%Z
      by (apply Zfloor_le; apply Hx).
    assert (Hfl : Zfloor (INR n - 1) = (Z.of_nat n - 1)%Z).
    { rewrite INR_IZR_INZ, <- minus_IZR. apply ZfloorZ. }
    lia.
Qed.

Lemma sampleBilinear_in_bounds grid cols rows u v :
  wf_grid grid cols rows ->
  (is_Some (sampleBilinear grid cols rows u v) <->
   (0 <= floorIndex cols u < Z.of_nat cols)%Z /\
   (0 <= floorIndex rows v < Z.of_nat rows)%Z).
Proof.
  intros Hwf. unfold sampleBilinear. rewrite !axis_eq.
  set (x0 := floorIndex cols u). set (y0 := floorIndex rows v).
  split.
  - intros [s Hs].
    destruct (cell grid y0 x0) as [g00|] eqn:E00; [|discriminate].
    destruct (cell_outside grid cols rows y0 x0 Hwf) as [Hy Hx];
      [rewrite E00; eauto|].
    tauto.
  - intros [Hx Hy].
    destruct (cell_inside grid cols rows y0 x0 Hwf) as [g00 ->]; [lia..|].
    destruct (cell_inside grid cols rows y0
                (Z.min (x0 + 1) (Z.of_nat cols - 1)) Hwf)
      as [g01 ->]; [lia..|].
    destruct (cell_inside grid cols rows
                (Z.min (y0 + 1) (Z.of_nat rows - 1)) x0 Hwf)
      as [g10 ->]; [lia..|].
    destruct (cell_inside grid cols rows
                (Z.min (y0 + 1) (Z.of_nat rows - 1))
                (Z.min (x0 + 1) (Z.of_nat cols - 1)) Hwf)
      as [g11 ->]; [lia..|].
    cbn. eauto.
Qed.

(** The value at a point whose two lower indices are inside the grid. *)
Lemma sampleBilinear_value grid cols rows u v :
  wf_grid grid cols rows ->
  (0 <= floorIndex cols u < Z.of_nat cols)%Z ->
  (0 <= floorIndex rows v < Z.of_nat rows)%Z ->
  let x0 := floorIndex cols u in
  let y0 := floorIndex rows v in
  let x1 := Z.min (x0 + 1) (Z.of_nat cols - 1) in
  let y1 := Z.min (y0 + 1) (Z.of_nat rows - 1) in
  let fx := u * (INR cols - 1) - IZR x0 in
  let fy := v * (INR rows - 1) - IZR y0 in
  exists g00 g01 g10 g11,
    cell grid y0 x0 = Some g00 /\ cell grid y0 x1 = Some g01 /\
    cell grid y1 x0 = Some g10 /\ cell grid y1 x1 = Some g11 /\
    sampleBilinear grid cols rows u v =
      Some (g00 * (1 - fx) * (1 - fy) + g01 * fx * (1 - fy)
            + g10 * (1 - fx) * fy + g11 * fx * fy).
Proof.
  intros Hwf Hx Hy x0 y0 x1 y1 fx fy.
  destruct (cell_inside grid cols rows (y0) (x0) Hwf) as [g00 E00];
    [subst x0 y0; lia..|].
  destruct (cell_inside grid cols rows (y0) (x1) Hwf) as [g01 E01];
    [subst x0 y0 x1; lia..|].
  destruct (cell_inside grid cols rows (y1) (x0) Hwf) as [g10 E10];
    [subst x0 y0 y1; lia..|].
  destruct (cell_inside grid cols rows (y1) (x1) Hwf) as [g11 E11];
    [subst x0 y0 x1 y1; lia..|].
  exists g00, g01, g10, g11. repeat (split; [assumption|]).
  unfold sampleBilinear. rewrite !axis_eq.
  fold x0 y0. fold x1 y1. rewrite E00, E01, E10, E11. reflexivity.
Qed.

Lemma bilinear_between g00 g01 g10 g11 fx fy lo hi :
  0 <= fx <= 1 -> 0 <= fy <= 1 ->
  lo <= g00 <= hi -> lo <= g01 <= hi -> lo <= g10 <= hi -> lo <= g11 <= hi ->
  lo <= g00 * (1 - fx) * (1 - fy) + g01 * fx * (1 - fy)
        + g10 * (1 - fx) * fy + g11 * fx * fy <= hi.
Proof.
  intros Hfx Hfy H00 H01 H10 H11.
  assert (W00 : 0 <= (1 - fx) * (1 - fy)) by nra.
  assert (W01 : 0 <= fx * (1 - fy)) by nra.
  assert (W10 : 0 <= (1 - fx) * fy) by nra.
  assert (W11 : 0 <= fx * fy) by nra.
  assert (0 <= (g00 - lo) * ((1 - fx) * (1 - fy))) by (apply Rmult_le_pos; lra).
  assert (0 <= (g01 - lo) * (fx * (1 - fy))) by (apply Rmult_le_pos; lra).
  assert (0 <= (g10 - lo) * ((1 - fx) * fy)) by (apply Rmult_le_pos; lra).
  assert (0 <= (g11 - lo) * (fx * fy)) by (apply Rmult_le_pos; lra).
  assert (0 <= (hi - g00) * ((1 - fx) * (1 - fy))) by (apply Rmult_le_pos; lra).
  assert (0 <= (hi - g01) * (fx * (1 - fy))) by (apply Rmult_le_pos; lra).
  assert (0 <= (hi - g10) * ((1 - fx) * fy)) by (apply Rmult_le_pos; lra).
  assert (0 <= (hi - g11) * (fx * fy)) by (apply Rmult_le_pos; lra).
  split; nra.
Qed.

End Bilinear.

(** ** Tests and lattice coordinates *)

Section JsFacts.
Local Open Scope R_scope.

Lemma ltb_true a b : Js.ltb a b = true <-> a < b.
Proof. unfold Js.ltb. destruct (Rlt_dec a b); intuition discriminate. Qed.

Lemma ltb_false a b : Js.ltb a b = false <-> b <= a.
Proof.
  unfold Js.ltb. destruct (Rlt_dec a b); split; intros; try discriminate;
    try reflexivity; lra.
Qed.

Lemma geb_true a b : Js.geb a b = true <-> b <= a.
Proof. unfold Js.geb. destruct (Rle_dec b a); intuition discriminate. Qed.

Lemma geb_ltb a b : Js.geb a b = negb (Js.ltb a b).
Proof.
  unfold Js.geb, Js.ltb.
  destruct (Rle_dec b a), (Rlt_dec a b); try reflexivity; lra.
Qed.

Lemma div_Some a b : b <> 0 -> Js.div a b = Some (a / b).
Proof. intros Hb. unfold Js.div. now destruct (Req_dec_T b 0). Qed.

Lemma div_inv a b q : Js.div a b = Some q -> b <> 0 /\ q = a / b.
Proof.
  unfold Js.div. destruct (Req_dec_T b 0); [discriminate|].
  intros E. injection E as <-. now split.
Qed.

Lemma latticeCoord_unit (n : Z) (i : nat) :
  (Z.of_nat i < n)%Z -> 0 <= Js.latticeCoord (IZR n) i <= 1.
Proof.
  intros Hi. unfold Js.latticeCoord.
  destruct (Js.ltb 1 (IZR n)) eqn:E; [|lra].
  apply ltb_true in E.
  assert (Hn : IZR (Z.of_nat i) <= IZR n - 1).
  { rewrite <- (minus_IZR n 1). apply IZR_le. lia. }
  rewrite <- INR_IZR_INZ in Hn.
  pose proof (pos_INR i).
  assert (Hinv : 0 < / (IZR n - 1)) by (apply Rinv_0_lt_compat; lra).
  assert (Hone : (IZR n - 1) * / (IZR n - 1) = 1) by (field; lra).
  unfold Rdiv. split; nra.
Qed.

End JsFacts.

(** ** What the sampler returns *)

Section BilinearValues.
Local Open Scope R_scope.
Import MathUtils Spec.

Lemma floorIndex_centre n u c :
  u * (INR n - 1) = INR c -> floorIndex n u = Z.of_nat c.
Proof. intros H. unfold floorIndex. rewrite H. apply Zfloor_of_INR. Qed.

Lemma sampleBilinear_centre grid cols rows u v r c :
  wf_grid grid cols rows ->
  (r < rows)%nat -> (c < cols)%nat ->
  u * (INR cols - 1) = INR c -> v * (INR rows - 1) = INR r ->
  is_Some (cell grid (Z.of_nat r) (Z.of_nat c)) /\
  sampleBilinear grid cols rows u v = cell grid (Z.of_nat r) (Z.of_nat c).
Proof.
  intros Hwf Hr Hc Hu Hv.
  pose proof (floorIndex_centre _ _ _ Hu) as Ex.
  pose proof (floorIndex_centre _ _ _ Hv) as Ey.
  destruct (sampleBilinear_value grid cols rows u v Hwf)
    as (g00 & g01 & g10 & g11 & E00 & _ & _ & _ & Es); [lia..|].
  rewrite Ex, Ey in E00. rewrite E00. split; [eauto|].
  rewrite Es. f_equal. rewrite Ex, Ey, Hu, Hv, <- !INR_IZR_INZ. ring.
Qed.

(** The lattice coordinate of index [i] is the centre of cell [i]. *)
Lemma latticeCoord_centre n i :
  (i < n)%nat -> Js.latticeCoord (INR n) i * (INR n - 1) = INR i.
Proof.
  intros Hi. unfold Js.latticeCoord.
  destruct (Js.ltb 1 (INR n)) eqn:E.
  - apply ltb_true in E. field. lra.
  - apply ltb_false in E.
    assert (n = 1%nat) as ->.
    { assert (E1 : INR n <= INR 1) by (cbn; lra).
      apply INR_le in E1. lia. }
    assert (i = 0%nat) as -> by lia. cbn. lra.
Qed.

(** C4. On a grid of [rows] x [cols] cells ([rows], [cols] >= 1):
    at the exact centre of cell [(r, c)], i.e. where [u * (cols - 1) = c]
    and [v * (rows - 1) = r] (for [cols > 1] that is [u = c / (cols - 1)];
    on a single column every [u]), the sampler returns that cell's value,
    in particular at the lattice coordinates the effects compute; at the
    four corners [u, v] in {0, 1} it returns the corner cells; and for
    every [u, v] in [0, 1] it reads four cells inside the grid, the upper
    indices clamped at the last row and column, and returns a value
    between their minimum and maximum. *)
Theorem C4_sampleBilinear_interpolates grid cols rows :
  wf_grid grid cols rows -> (1 <= cols)%nat -> (1 <= rows)%nat ->
  (forall r c u v, (r < rows)%nat -> (c < cols)%nat ->
     u * (INR cols - 1) = INR c -> v * (INR rows - 1) = INR r ->
     is_Some (cell grid (Z.of_nat r) (Z.of_nat c)) /\
     sampleBilinear grid cols rows u v
       = cell grid (Z.of_nat r) (Z.of_nat c)) /\
  (forall r c, (r < rows)%nat -> (c < cols)%nat ->
     sampleBilinear grid cols rows (Js.latticeCoord (INR cols) c)
       (Js.latticeCoord (INR rows) r)
       = cell grid (Z.of_nat r) (Z.of_nat c)) /\
  (sampleBilinear grid cols rows 0 0 = cell grid 0 0 /\
   sampleBilinear grid cols rows 1 0 = cell grid 0 (Z.of_nat cols - 1) /\
   sampleBilinear grid cols rows 0 1 = cell grid (Z.of_nat rows - 1) 0 /\
   sampleBilinear grid cols rows 1 1
     = cell grid (Z.of_nat rows - 1) (Z.of_nat cols - 1)) /\
  (forall u v, 0 <= u <= 1 -> 0 <= v <= 1 ->
     exists x0 x1 y0 y1 g00 g01 g10 g11 s,
       x0 = floorIndex cols u /\ x1 = Z.min (x0 + 1) (Z.of_nat cols - 1) /\
       y0 = floorIndex rows v /\ y1 = Z.min (y0 + 1) (Z.of_nat rows - 1) /\
       (0 <= x0 <= x1)%Z /\ (x1 <= Z.of_nat cols - 1)%Z /\
       (0 <= y0 <= y1)%Z /\ (y1 <= Z.of_nat rows - 1)%Z /\
       cell grid y0 x0 = Some g00 /\ cell grid y0 x1 = Some g01 /\
       cell grid y1 x0 = Some g10 /\ cell grid y1 x1 = Some g11 /\
       sampleBilinear grid cols rows u v = Some s /\
       Rmin (Rmin g00 g01) (Rmin g10 g11) <= s
         <= Rmax (Rmax g00 g01) (Rmax g10 g11)).
Proof.
  intros Hwf Hcols Hrows.
  assert (Hcentre : forall r c u v, (r < rows)%nat -> (c < cols)%nat ->
     u * (INR cols - 1) = INR c -> v * (INR rows - 1) = INR r ->
     is_Some (cell grid (Z.of_nat r) (Z.of_nat c)) /\
     sampleBilinear grid cols rows u v
       = cell grid (Z.of_nat r) (Z.of_nat c)).
  { intros. now apply sampleBilinear_centre. }
  assert (Hlast : forall n, (1 <= n)%nat ->
            1 * (INR n - 1) = INR (n - 1)).
  { intros n Hn. rewrite minus_INR by lia. cbn. ring. }
  assert (Hzero : forall n, 0 * (INR n - 1) = INR 0).
  { intros n. cbn. ring. }
  assert (Hpred : forall n, (1 <= n)%nat ->
            Z.of_nat (n - 1) = (Z.of_nat n - 1)%Z) by (intros; lia).
  split; [exact Hcentre|]. split; [|split].
  - intros r c Hr Hc.
    apply Hcentre; auto using latticeCoord_centre.
  - repeat split.
    + apply (Hcentre 0%nat 0%nat); auto; lia.
    + rewrite <- Hpred by lia.
      apply (Hcentre 0%nat (cols - 1)%nat); auto; lia.
    + rewrite <- Hpred by lia.
      apply (Hcentre (rows - 1)%nat 0%nat); auto; lia.
    + rewrite <- !Hpred by lia.
      apply (Hcentre (rows - 1)%nat (cols - 1)%nat); auto; lia.
  - intros u v Hu Hv.
    pose proof (floorIndex_unit cols u Hcols Hu) as Hx.
    pose proof (floorIndex_unit rows v Hrows Hv) as Hy.
    destruct (sampleBilinear_value grid cols rows u v Hwf Hx Hy)
      as (g00 & g01 & g10 & g11 & E00 & E01 & E10 & E11 & Es).
    do 8 eexists. eexists.
    repeat (split; [reflexivity|]).
    repeat (split; [lia|]).
    refine (conj E00 (conj E01 (conj E10 (conj E11 (conj Es _))))).
    apply bilinear_between.
    + unfold floorIndex. pose proof (frac_range (u * (INR cols - 1))). lra.
    + unfold floorIndex. pose proof (frac_range (v * (INR rows - 1))). lra.
    + split; [eapply Rle_trans; [apply Rmin_l|apply Rmin_l]
             | eapply Rle_trans; [|apply Rmax_l]; apply Rmax_l].
    + split; [eapply Rle_trans; [apply Rmin_l|apply Rmin_r]
             | eapply Rle_trans; [|apply Rmax_l]; apply Rmax_r].
    + split; [eapply Rle_trans; [apply Rmin_r|apply Rmin_l]
             | eapply Rle_trans; [|apply Rmax_r]; apply Rmax_l].
    + split; [eapply Rle_trans; [apply Rmin_r|apply Rmin_r]
             | eapply Rle_trans; [|apply Rmax_r]; apply Rmax_r].
Qed.

End BilinearValues.

Lemma C4_witness :
  let g := [[0; 1]; [1; 0]]%R in
  Spec.wf_grid g 2 2 /\ (1 <= 2)%nat /\
  MathUtils.sampleBilinear g 2 2 1 1 = MathUtils.cell g 1 1.
Proof.
  intros g.
  assert (Hwf : Spec.wf_grid g 2 2)
    by (split; [reflexivity | repeat constructor]).
  split; [exact Hwf|]. split; [lia|].
  pose proof (C4_sampleBilinear_interpolates g 2 2 Hwf
                ltac:(lia) ltac:(lia)) as (_ & _ & (_ & _ & _ & H) & _).
  exact H.
Defined.

(** ** Reads inside the grid *)

Section Bounds.
Local Open Scope R_scope.
Import MathUtils Spec.

Lemma floorIndex_inside n u :
  (0 <= floorIndex n u < Z.of_nat n)%Z <-> 0 <= u * (INR n - 1) < INR n.
Proof.
  unfold floorIndex. set (x := u * (INR n - 1)).
  pose proof (Zfloor_bound x) as [Hlo Hhi].
  rewrite (INR_IZR_INZ n). split.
  - intros [H0 H1]. apply IZR_le in H0.
    assert (H2 : (Zfloor x + 1 <= Z.of_nat n)%Z) by lia.
    apply IZR_le in H2. rewrite plus_IZR in H2. lra.
  - intros [H0 H1]. split.
    + apply (Zfloor_lub 0). exact H0.
    + apply lt_IZR. lra.
Qed.

Lemma sampleBilinear_unit grid cols rows u v :
  wf_grid grid cols rows -> (1 <= cols)%nat -> (1 <= rows)%nat ->
  0 <= u <= 1 -> 0 <= v <= 1 ->
  is_Some (sampleBilinear grid cols rows u v).
Proof.
  intros Hwf Hc Hr Hu Hv.
  apply sampleBilinear_in_bounds; [assumption|].
  split; now apply floorIndex_unit.
Qed.

Lemma sampleBilinear_negative_u grid cols rows u v :
  wf_grid grid cols rows -> (2 <= cols)%nat -> u < 0 ->
  sampleBilinear grid cols rows u v = None.
Proof.
  intros Hwf Hc Hu.
  destruct (sampleBilinear grid cols rows u v) eqn:E; [|reflexivity].
  exfalso.
  assert (Hs : is_Some (sampleBilinear grid cols rows u v))
    by (rewrite E; eauto).
  apply sampleBilinear_in_bounds in Hs; [|assumption].
  destruct Hs as [Hx _]. apply floorIndex_inside in Hx.
  assert (2 <= INR cols) by (apply (le_INR 2); lia).
  nra.
Qed.

Lemma sampleBilinear_negative_v grid cols rows u v :
  wf_grid grid cols rows -> (2 <= rows)%nat -> v < 0 ->
  sampleBilinear grid cols rows u v = None.
Proof.
  intros Hwf Hc Hu.
  destruct (sampleBilinear grid cols rows u v) eqn:E; [|reflexivity].
  exfalso.
  assert (Hs : is_Some (sampleBilinear grid cols rows u v))
    by (rewrite E; eauto).
  apply sampleBilinear_in_bounds in Hs; [|assumption].
  destruct Hs as [_ Hy]. apply floorIndex_inside in Hy.
  assert (2 <= INR rows) by (apply (le_INR 2); lia).
  nra.
Qed.

(** A position that passes the bounds test of the dot loop has
    normalised coordinates in [0, 1]. *)
Lemma guarded_position px py W H :
  0 < W -> 0 < H ->
  Js.ltb px 0 || Js.ltb W px || Js.ltb py 0 || Js.ltb H py = false ->
  0 <= px / W <= 1 /\ 0 <= py / H <= 1.
Proof.
  intros HW HH Hg.
  repeat (apply orb_false_elim in Hg; destruct Hg as [Hg ?]).
  repeat match goal with
         | E : Js.ltb _ _ = false |- _ => apply ltb_false in E
         end.
  assert (0 < / W) by now apply Rinv_0_lt_compat.
  assert (0 < / H) by now apply Rinv_0_lt_compat.
  assert (W * / W = 1) by (field; lra).
  assert (H * / H = 1) by (field; lra).
  unfold Rdiv. repeat split; nra.
Qed.

Lemma place_in_bounds sd ws tw cellW cellH W H scatter rmin rmax s :
  wf_grid (SvgSampler.grid sd) (SvgSampler.cols sd) (SvgSampler.rows sd) ->
  (1 <= SvgSampler.cols sd)%nat -> (1 <= SvgSampler.rows sd)%nat ->
  0 < W -> 0 < H ->
  is_Some (ParticleScatter.place sd ws tw cellW cellH W H scatter rmin rmax
             s).
Proof.
  intros Hwf Hc Hr HW HH. unfold ParticleScatter.place, rand.
  cbv zeta.
  match goal with
  | |- context [if ?g then _ else _] => destruct g eqn:Hg
  end; [eauto|].
  apply guarded_position in Hg as [Hu Hv]; [|assumption..].
  destruct (sampleBilinear_unit _ _ _ _ _ Hwf Hc Hr Hu Hv) as [b ->].
  cbn.
  match goal with
  | |- context [if ?g then _ else _] => destruct g
  end; eauto.
Qed.

(** C10 (as amended). The sampler clamps its indices at the upper edge
    only.  On a grid of [rows] x [cols] cells ([rows], [cols] >= 1) all
    four reads are inside the grid whenever [0 <= u <= 1] and
    [0 <= v <= 1]; exactly, they are inside iff
    [0 <= u * (cols - 1) < cols] and [0 <= v * (rows - 1) < rows]; so a
    negative [u] reads outside when there are at least two columns, and a
    negative [v] when there are at least two rows.  The call sites keep
    to [0, 1]: the lattice coordinate of an index below an integral count
    lies in [0, 1], and a pass of the dot loop of Particle Scatter, whose
    position is tested against the output rectangle first, never reads
    outside the grid for a positive output size. *)
Theorem C10_sampleBilinear_reads_in_bounds grid cols rows :
  wf_grid grid cols rows -> (1 <= cols)%nat -> (1 <= rows)%nat ->
  (forall u v, 0 <= u <= 1 -> 0 <= v <= 1 ->
     is_Some (sampleBilinear grid cols rows u v)) /\
  (forall u v,
     is_Some (sampleBilinear grid cols rows u v) <->
     0 <= u * (INR cols - 1) < INR cols /\
     0 <= v * (INR rows - 1) < INR rows) /\
  (forall u v, (2 <= cols)%nat -> u < 0 ->
     sampleBilinear grid cols rows u v = None) /\
  (forall u v, (2 <= rows)%nat -> v < 0 ->
     sampleBilinear grid cols rows u v = None) /\
  (forall (n : Z) (i : nat), (Z.of_nat i < n)%Z ->
     0 <= Js.latticeCoord (IZR n) i <= 1) /\
  (forall sd ws tw cellW cellH W H scatter rmin rmax s,
     SvgSampler.grid sd = grid -> SvgSampler.cols sd = cols ->
     SvgSampler.rows sd = rows -> 0 < W -> 0 < H ->
     is_Some (ParticleScatter.place sd ws tw cellW cellH W H scatter
                rmin rmax s)).
Proof.
  intros Hwf Hc Hr.
  refine (conj _ (conj _ (conj _ (conj _ (conj _ _))))).
  - intros u v Hu Hv. now apply sampleBilinear_unit.
  - intros u v.
    rewrite sampleBilinear_in_bounds by assumption.
    now rewrite !floorIndex_inside.
  - intros u v H2 Hu. now apply sampleBilinear_negative_u.
  - intros u v H2 Hv. now apply sampleBilinear_negative_v.
  - apply latticeCoord_unit.
  - intros sd ws tw cellW cellH W H scatter rmin rmax s <- <- <- HW HH.
    now apply place_in_bounds.
Qed.

Lemma C10_witness :
  let g := [[0; 1]; [1; 0]]%R in
  wf_grid g 2 2 /\ (1 <= 2)%nat /\
  is_Some (sampleBilinear g 2 2 (1 / 2) (1 / 2)).
Proof.
  intros g.
  assert (Hwf : wf_grid g 2 2)
    by (split; [reflexivity | repeat constructor]).
  split; [exact Hwf|]. split; [lia|].
  assert (H1 : (1 <= 2)%nat) by lia.
  apply (proj1 (C10_sampleBilinear_reads_in_bounds g 2 2 Hwf H1 H1)); lra.
Defined.

(** C10 as stated fails: the reads are inside the grid for a [u], [v]
    outside [0, 1], namely for negative coordinates on a grid of a single
    cell, and for [u = 3/2] on a grid of two columns. *)
Lemma C10_counterexample :
  (is_Some (sampleBilinear [[1]] 1 1 (-1) (-1)) /\
   ~ (0 <= -1 <= 1 /\ 0 <= -1 <= 1)) /\
  (is_Some (sampleBilinear [[0; 1]] 2 1 (3 / 2) 0) /\
   ~ (0 <= 3 / 2 <= 1 /\ 0 <= 0 <= 1)).
Proof.
  split; (split; [|lra]).
  - apply (sampleBilinear_in_bounds [[1]] 1 1).
    + split; [reflexivity | repeat constructor].
    + rewrite !floorIndex_inside. cbn [INR]. lra.
  - apply (sampleBilinear_in_bounds [[0; 1]] 2 1).
    + split; [reflexivity | repeat constructor].
    + rewrite !floorIndex_inside. cbn [INR]. lra.
Qed.

End Bounds.

(** ** The sampler's grid shape *)

Section Sampler.
Local Open Scope R_scope.
Import SvgSampler Spec.

Lemma round_bound x : IZR (Js.round x) - 1 / 2 <= x < IZR (Js.round x) + 1 / 2.
Proof. unfold Js.round. pose proof (Zfloor_bound (x + 1 / 2)). lra. Qed.

Lemma sampleSVG_grid render d C :
  wf_grid (grid (sampleSVG render d C)) C (gridRows d C).
Proof.
  unfold sampleSVG. cbn [grid]. split.
  - now rewrite length_map, length_seq.
  - apply Stdlib.Lists.List.Forall_forall. intros row Hrow.
    apply in_map_iff in Hrow as (y & <- & _).
    now rewrite length_map, length_seq.
Qed.

(** C5 (as amended). For a source of positive declared width and height,
    aspect [A = width / height], and [C >= 1] target columns, the sampler
    returns a grid of [C] columns and [max(1, round(C / A))] rows, and its
    [aspect] field is [cols / rows].  When [C / A >= 1/2], so that the
    rounded row count is not raised to 1, the row count is within 1/2 of
    [C / A] and the aspect field within [A / (2 rows)] of [A]; otherwise
    there is one row and the aspect field is [C]. *)
Theorem C5_sampler_aspect render d C :
  0 < width d -> 0 < height d -> (1 <= C)%nat ->
  let sd := sampleSVG render d C in
  let A := width d / height d in
  cols sd = C /\
  rows sd = Z.to_nat (Z.max 1 (Js.round (INR C / A))) /\
  (1 <= rows sd)%nat /\
  aspect sd = INR (cols sd) / INR (rows sd) /\
  wf_grid (grid sd) (cols sd) (rows sd) /\
  (1 / 2 <= INR C / A ->
     Rabs (INR (rows sd) - INR C / A) <= 1 / 2 /\
     Rabs (aspect sd - A) <= A / (2 * INR (rows sd))) /\
  (INR C / A < 1 / 2 -> rows sd = 1%nat /\ aspect sd = INR C).
Proof.
  intros Hw Hh HC sd A.
  assert (HA : 0 < A) by (apply Rdiv_lt_0_compat; assumption).
  assert (HCr : 1 <= INR C) by (apply (le_INR 1); lia).
  set (q := INR C / A).
  assert (Hq : 0 < q) by (apply Rdiv_lt_0_compat; lra).
  pose proof (round_bound q) as Hk.
  set (k := Js.round q) in *.
  assert (Hrows : rows sd = Z.to_nat (Z.max 1 k)) by reflexivity.
  assert (Hasp : aspect sd = INR C / INR (rows sd)) by reflexivity.
  refine (conj eq_refl (conj Hrows (conj _ (conj eq_refl (conj _
            (conj _ _)))))).
  - rewrite Hrows. lia.
  - apply sampleSVG_grid.
  - intros Hhalf.
    assert (Hk1 : (1 <= k)%Z).
    { apply (Zfloor_lub 1). lra. }
    assert (Hr : INR (rows sd) = IZR k).
    { rewrite Hrows, INR_IZR_INZ. f_equal. lia. }
    assert (HkR : 1 <= IZR k) by now apply IZR_le.
    rewrite Hasp, Hr.
    split.
    + apply Rabs_le. lra.
    + assert (HCq : INR C = A * q) by (unfold q; field; lra).
      rewrite HCq.
      replace (A * q / IZR k - A) with (A * ((q - IZR k) / IZR k))
        by (field; lra).
      replace (A / (2 * IZR k)) with (A * (1 / 2 / IZR k)) by (field; lra).
      rewrite Rabs_mult, (Rabs_pos_eq A) by lra.
      apply Rmult_le_compat_l; [lra|].
      unfold Rdiv at 1. rewrite Rabs_mult.
      rewrite (Rabs_pos_eq (/ IZR k))
        by (left; apply Rinv_0_lt_compat; lra).
      apply Rmult_le_compat_r; [left; apply Rinv_0_lt_compat; lra|].
      apply Rabs_le. lra.
  - intros Hsmall.
    assert (Hk0 : (k <= 0)%Z).
    { assert (IZR k < 1) by lra. apply (lt_IZR k 1) in H. lia. }
    assert (Hone : rows sd = 1%nat) by (rewrite Hrows; lia).
    split; [exact Hone|].
    rewrite Hasp, Hone. cbn. field.
Qed.

Lemma C5_witness :
  let d := Dims 1000 250 in
  0 < width d /\ 0 < height d /\ (1 <= 300)%nat /\
  rows (sampleSVG (fun _ _ => []) d 300)
    = Z.to_nat (Z.max 1 (Js.round (INR 300 / (width d / height d)))).
Proof.
  intros d. cbn [width height d].
  assert (H1 : 0 < 1000) by lra.
  assert (H2 : 0 < 250) by lra.
  assert (H3 : (1 <= 300)%nat) by lia.
  refine (conj H1 (conj H2 (conj H3 _))).
  exact (proj1 (proj2 (C5_sampler_aspect (fun _ _ => []) d 300 H1 H2 H3))).
Defined.

(** C5 as stated fails for a very wide source: with [A = 1000] and
    [C = 300] the row count is raised to 1, which is not within 1/2 of
    [C / A = 0.3], and the aspect field is 300, not near 1000. *)
Lemma C5_counterexample :
  let sd := sampleSVG (fun _ _ => []) (Dims 1000 1) 300 in
  rows sd = 1%nat /\ aspect sd = 300 /\
  ~ Rabs (INR (rows sd) - 300 / (1000 / 1)) <= 1 / 2 /\
  ~ Rabs (aspect sd - 1000 / 1) <= 1000 / 1 / (2 * INR (rows sd)).
Proof.
  intros sd.
  assert (H1 : 0 < 1000) by lra.
  assert (H2 : 0 < 1) by lra.
  assert (H3 : (1 <= 300)%nat) by lia.
  destruct (C5_sampler_aspect (fun _ _ => []) (Dims 1000 1) 300 H1 H2 H3)
    as (_ & _ & _ & _ & _ & _ & Hsmall).
  cbn [width height] in Hsmall.
  assert (E300 : INR 300 = 300) by (rewrite INR_IZR_INZ; reflexivity).
  rewrite E300 in Hsmall.
  destruct Hsmall as [Hr Ha]; [lra|]. fold sd in Hr, Ha.
  rewrite Hr, Ha. cbn [INR].
  split; [reflexivity|]. split; [reflexivity|].
  split; intros H.
  - pose proof (Rle_abs (1 - 300 / (1000 / 1))). lra.
  - pose proof (Rle_abs (- (300 - 1000 / 1))).
    rewrite Rabs_Ropp in H0. lra.
Qed.

End Sampler.

(** ** Parameters: overrides over defaults *)

Lemma spread_lookup (d p : gmap string Js.value) k :
  Js.spread d p !! k = match p !! k with Some v => Some v | None => d !! k end.
Proof.
  unfold Js.spread. rewrite lookup_union.
  destruct (p !! k), (d !! k); reflexivity.
Qed.

Lemma spread_idem (d p : gmap string Js.value) :
  Js.spread d (Js.spread d p) = Js.spread d p.
Proof.
  unfold Js.spread. apply map_eq. intros k.
  rewrite !lookup_union.
  destruct (p !! k), (d !! k); reflexivity.
Qed.

Lemma spread_empty (d : gmap string Js.value) : Js.spread d ∅ = d.
Proof. unfold Js.spread. apply (left_id_L ∅ (∪)). Qed.

(** Reading a key of a literal object. *)
Ltac read_literal :=
  with_strategy transparent [gmap_empty]
    (repeat match goal with
       | |- context [@lookup string Js.value _ _ ?k (list_to_map ?l)] =>
           let v := eval lazy -[Q2R IZR INR] in
                      (@lookup string Js.value (gmap string Js.value) _ k
                         (list_to_map l)) in
           change (@lookup string Js.value (gmap string Js.value) _ k
                     (list_to_map l)) with v
       end).

Ltac unfold_defaults :=
  unfold VerticalLines.getDefaultParams, VerticalLinesAnim.getDefaultParams,
    HorizontalLines.getDefaultParams, HorizontalLinesAnim.getDefaultParams,
    EllipseGrid.getDefaultParams, EllipseGridAnim.getDefaultParams,
    ParticleScatter.getDefaultParams, ParticleScatterAnim.getDefaultParams,
    StarGlint.getDefaultParams, StarGlintAnim.getDefaultParams,
    LineHalftone.getDefaultParams, LineHalftoneAnim.getDefaultParams.

Ltac read_params :=
  unfold Js.num, Js.nullish; rewrite ?spread_empty, ?spread_lookup;
  rewrite ?lookup_empty; unfold_defaults; read_literal;
  cbn [mbind option_bind].

Section NumericParams.
Import Spec.

Lemma num_merged (d p : gmap string Js.value) k r :
  numeric_params p -> d !! k = Some (Js.Num r) ->
  k <> "color"%string -> k <> "rows"%string ->
  is_Some (Js.num (Js.spread d p) k).
Proof.
  intros Hp Hd Hc Hr. unfold Js.num. rewrite spread_lookup.
  destruct (p !! k) as [v|] eqn:Ek.
  - destruct (Hp k v Ek) as [-> | [[-> _] | [x ->]]];
      [contradiction | contradiction | eauto].
  - rewrite Hd. eauto.
Qed.

Lemma colour_merged (d p : gmap string Js.value) k v :
  d !! k = Some v -> is_Some (Js.spread d p !! k).
Proof.
  intros Hd. rewrite spread_lookup.
  destruct (p !! k); [eauto | rewrite Hd; eauto].
Qed.

End NumericParams.

(** Reads of a well-typed parameter set over literal defaults. *)
Ltac read_numeric Hp :=
  repeat match goal with
    | |- context [Js.num (Js.spread ?d ?p) ?k] =>
        lazymatch goal with
        | E : Js.num (Js.spread d p) k = Some _ |- _ => rewrite E
        | _ =>
            let x := fresh "x" in
            let E := fresh "E" in
            destruct (num_merged d p k _ Hp eq_refl
                        ltac:(discriminate) ltac:(discriminate)) as [x E];
            rewrite E
        end
    | |- context [Js.spread ?d ?p !! ?k] =>
        lazymatch goal with
        | E : Js.spread d p !! k = Some _ |- _ => rewrite E
        | _ =>
            let x := fresh "x" in
            let E := fresh "E" in
            destruct (colour_merged d p k _ eq_refl) as [x E];
            rewrite E
        end
    end;
  cbn [mbind option_bind].

Section NoError.
Local Open Scope R_scope.
Import Spec SvgSampler.

Lemma collect_is_Some {A B} (body : A -> option (list B)) l :
  (forall i, In i l -> is_Some (body i)) -> is_Some (Js.collect body l).
Proof.
  induction l as [|i l IH]; intros H; cbn [Js.collect]; [eauto|].
  destruct (H i) as [out ->]; [now left|].
  destruct IH as [rest ->]; [intros; apply H; now right|].
  cbn. eauto.
Qed.

Lemma for_loop_is_Some {B} n (body : nat -> option (list B)) :
  (forall i, (i < n)%nat -> is_Some (body i)) -> is_Some (Js.for_loop n body).
Proof.
  intros H. apply collect_is_Some. intros i Hi.
  apply in_seq in Hi. apply H. lia.
Qed.

Lemma passes_IZR z : Js.passes (IZR z) = Z.to_nat z.
Proof. unfold Js.passes, Zceil. rewrite <- opp_IZR, ZfloorZ. f_equal. lia. Qed.

Lemma passes_INR n : Js.passes (INR n) = n.
Proof. rewrite INR_IZR_INZ, passes_IZR. lia. Qed.

Lemma latticeCoord_nat n i :
  (i < n)%nat -> 0 <= Js.latticeCoord (INR n) i <= 1.
Proof.
  intros. rewrite INR_IZR_INZ. apply latticeCoord_unit. lia.
Qed.

Lemma foldM_is_Some {A S} (step : S -> A -> option S) l : forall s,
  (forall s i, In i l -> is_Some (step s i)) -> is_Some (Js.foldM step s l).
Proof.
  induction l as [|i l IH]; intros s H; cbn [Js.foldM]; [eauto|].
  destruct (H s i) as [s' ->]; [now left|]. cbn.
  apply IH. intros. apply H. now right.
Qed.

Lemma float32Array_is_Some n written :
  (0 <= n)%Z -> is_Some (Js.float32Array n written).
Proof.
  intros Hn. unfold Js.float32Array.
  destruct (n <? 0)%Z eqn:E; [lia | eauto].
Qed.

Lemma halftone_u c :
  (c < LineHalftone.stepsPerLine)%nat ->
  0 <= INR c / (INR LineHalftone.stepsPerLine - 1) <= 1.
Proof.
  intros Hc.
  pose proof (latticeCoord_nat LineHalftone.stepsPerLine c Hc) as H.
  unfold Js.latticeCoord in H.
  replace (Js.ltb 1 (INR LineHalftone.stepsPerLine)) with true in H;
    [exact H|].
  symmetry. apply ltb_true. apply (lt_INR 1). unfold LineHalftone.stepsPerLine.
  lia.
Qed.

Section Entry.

Variable sd : sampleData.
Hypothesis Hwf : wf_grid (grid sd) (cols sd) (rows sd).
Hypothesis Hcols : (1 <= cols sd)%nat.
Hypothesis Hrows : (1 <= rows sd)%nat.

Lemma sample_lattice (n m : Z) i j :
  (Z.of_nat i < n)%Z -> (Z.of_nat j < m)%Z ->
  is_Some (MathUtils.sampleBilinear (grid sd) (cols sd) (rows sd)
             (Js.latticeCoord (IZR n) i) (Js.latticeCoord (IZR m) j)).
Proof.
  intros Hi Hj.
  apply sampleBilinear_unit; auto using latticeCoord_unit.
Qed.

Ltac some_step :=
  lazymatch goal with
  | |- is_Some (Some _) => eexists; reflexivity
  | |- is_Some (Js.for_loop _ _) => apply for_loop_is_Some; intros
  | |- is_Some (Js.foldM _ _ (seq 0 _)) =>
      apply foldM_is_Some;
      let Hi := fresh "Hi" in
      intros [? ?] ? Hi; apply in_seq in Hi
  | |- is_Some (let '(_, _) := ?x in _) => destruct x
  | |- is_Some (MathUtils.sampleBilinear _ _ _ (Js.latticeCoord (IZR _) _)
                  (Js.latticeCoord (IZR _) _)) =>
      apply sample_lattice; lia
  | |- is_Some (MathUtils.sampleBilinear _ _ _ _ _) =>
      apply sampleBilinear_unit; rewrite <- ?INR_IZR_INZ;
      auto using latticeCoord_nat, halftone_u;
      try (apply latticeCoord_unit; lia)
  | |- is_Some (Js.float32Array _ _) => apply float32Array_is_Some; try lia
  | |- is_Some (if ?b then _ else _) => destruct b
  | |- is_Some (match ?m with Some _ => _ | None => _ end) =>
      let H := fresh "Hs" in
      assert (H : is_Some m); [|destruct H as [? ->]]
  | |- is_Some (?m ≫= _) =>
      let H := fresh "Hs" in
      assert (H : is_Some m); [|destruct H as [? ->]; cbn [mbind option_bind]]
  end.

Ltac entry E :=
  unfold E; cbv zeta; read_params;
  rewrite ?INR_IZR_INZ, ?passes_IZR, ?ZfloorZ.

Lemma vertical_generate_defaults W H :
  is_Some (VerticalLines.generate sd ∅ W H).
Proof. entry VerticalLines.generate. repeat some_step. Qed.

Lemma vertical_init_defaults W H :
  is_Some (VerticalLinesAnim.init sd ∅ W H).
Proof.
  entry VerticalLinesAnim.init. repeat some_step.
  unfold VerticalLinesAnim.init_column. repeat some_step.
Qed.

Lemma horizontal_generate_defaults W H :
  is_Some (HorizontalLines.generate sd ∅ W H).
Proof. entry HorizontalLines.generate. repeat some_step. Qed.

Lemma horizontal_init_defaults W H :
  is_Some (HorizontalLinesAnim.init sd ∅ W H).
Proof.
  entry HorizontalLinesAnim.init. repeat some_step.
  unfold HorizontalLinesAnim.init_row. repeat some_step.
Qed.

Lemma ellipse_generate_defaults W H :
  is_Some (EllipseGrid.generate sd ∅ W H).
Proof. entry EllipseGrid.generate. repeat some_step. Qed.

Lemma ellipse_init_defaults W H :
  is_Some (EllipseGridAnim.init sd ∅ W H).
Proof. entry EllipseGridAnim.init. repeat some_step. Qed.

Lemma glint_generate_defaults W H :
  0 < W -> 0 < H -> is_Some (StarGlint.generate sd ∅ W H).
Proof.
  intros HW HH. entry StarGlint.generate.
  rewrite (div_Some W 80) by lra. cbn [mbind option_bind].
  rewrite div_Some by (apply Rgt_not_eq; lra). cbn [mbind option_bind].
  repeat some_step.
Qed.

Lemma halftone_generate_defaults W H :
  is_Some (LineHalftone.generate sd ∅ W H).
Proof. entry LineHalftone.generate. repeat some_step. Qed.

Lemma halftone_init_defaults W H :
  is_Some (LineHalftoneAnim.init sd ∅ W H).
Proof. entry LineHalftoneAnim.init. repeat some_step. Qed.

Lemma glint_init_defaults W H :
  0 < W -> 0 < H -> is_Some (StarGlintAnim.init sd ∅ W H).
Proof.
  intros HW HH.
  assert (Hrows0 : (0 <= Zfloor (H / (W / 80)))%Z).
  { apply (Zfloor_lub 0). apply Rlt_le.
    repeat apply Rdiv_lt_0_compat; lra. }
  entry StarGlintAnim.init.
  rewrite (div_Some W 80) by lra. cbn [mbind option_bind].
  rewrite div_Some by (apply Rgt_not_eq; lra). cbn [mbind option_bind].
  repeat some_step; nia.
Qed.

Lemma cellWeights_is_Some : is_Some (ParticleScatter.cellWeights sd).
Proof.
  unfold ParticleScatter.cellWeights.
  destruct Hwf as [Hlen Hall].
  apply for_loop_is_Some. intros r Hr.
  apply for_loop_is_Some. intros c Hc.
  destruct (lookup_lt_is_Some_2 (grid sd) r) as [row Hrow]; [lia|].
  rewrite Hrow. cbn.
  destruct (lookup_lt_is_Some_2 row c) as [g ->]; [|cbn; eauto].
  rewrite (Forall_lookup_1 _ _ _ _ Hall Hrow). lia.
Qed.

Lemma dots_is_Some ws tw cellW cellH W H scatter rmin rmax n :
  0 < W -> 0 < H -> forall s,
  is_Some (ParticleScatter.dots sd ws tw cellW cellH W H scatter rmin rmax
             n s).
Proof.
  intros HW HH. induction n as [|n IH]; intros s;
    cbn [ParticleScatter.dots]; [eauto|].
  destruct (place_in_bounds sd ws tw cellW cellH W H scatter rmin rmax s
              Hwf Hcols Hrows HW HH) as [[s' placed] ->].
  cbn [mbind option_bind].
  destruct placed as [[[px py] baseR]|]; [|apply IH].
  unfold MathUtils.rand. cbv zeta.
  match goal with |- is_Some (if ?b then _ else _) => destruct b end;
    [apply IH|].
  destruct (IH (fst (MathUtils.next s'))) as [rest ->]. cbn. eauto.
Qed.

Lemma particles_is_Some ws tw cellW cellH W H scatter rmin rmax n :
  0 < W -> 0 < H -> forall s,
  is_Some (ParticleScatterAnim.particles
             (ParticleScatter.place sd ws tw cellW cellH W H scatter
                rmin rmax) n s).
Proof.
  intros HW HH. induction n as [|n IH]; intros s;
    cbn [ParticleScatterAnim.particles]; [eauto|].
  destruct (place_in_bounds sd ws tw cellW cellH W H scatter rmin rmax s
              Hwf Hcols Hrows HW HH) as [[s' placed] ->].
  cbn [mbind option_bind].
  destruct placed as [[[px py] baseR]|]; [|apply IH].
  unfold MathUtils.rand. cbv zeta.
  destruct (IH (fst (MathUtils.next s'))) as [rest ->]. cbn. eauto.
Qed.

Lemma scatter_generate_defaults W H :
  0 < W -> 0 < H -> is_Some (ParticleScatter.generate sd ∅ W H).
Proof.
  intros HW HH. entry ParticleScatter.generate.
  destruct cellWeights_is_Some as [ws ->]. cbn [mbind option_bind].
  destruct (Req_dec_T _ 0); [eauto|].
  some_step; [now apply dots_is_Some | eauto].
Qed.

Lemma scatter_init_defaults W H :
  0 < W -> 0 < H -> is_Some (ParticleScatterAnim.init sd ∅ W H).
Proof.
  intros HW HH. entry ParticleScatterAnim.init.
  destruct cellWeights_is_Some as [ws ->]. cbn [mbind option_bind].
  some_step; [now apply particles_is_Some|].
  repeat some_step.
Qed.

(** A parameter set as the controls supply it: numbers for the numeric
    keys, whole numbers of rows and columns, a density of at least
    one. *)
Variable p : gmap string Js.value.
Hypothesis Hp : numeric_params p.
Hypothesis Hp_rows :
  forall r, p !! "rows" = Some (Js.Num r) -> exists z : Z, r = IZR z.
Hypothesis Hp_cols :
  forall c, p !! "cols" = Some (Js.Num c) -> exists z : Z, c = IZR z.
Hypothesis Hp_density :
  forall d, p !! "density" = Some (Js.Num d) -> 1 <= d.

Lemma rows_whole (d : gmap string Js.value) :
  d !! "rows" = Some Js.Null ->
  exists z : Z,
    Js.nullish (Js.spread d p) "rows" (INR (rows sd)) = Some (IZR z).
Proof.
  intros Hd. unfold Js.nullish. rewrite spread_lookup.
  destruct (p !! "rows") as [v|] eqn:Ev.
  - destruct (Hp _ _ Ev) as [E | [[_ ->] | [r ->]]]; [discriminate | |].
    + exists (Z.of_nat (rows sd)). now rewrite INR_IZR_INZ.
    + destruct (Hp_rows r eq_refl) as [z ->]. eauto.
  - rewrite Hd. exists (Z.of_nat (rows sd)). now rewrite INR_IZR_INZ.
Qed.

Lemma rows_whole_own :
  exists z : Z, Js.nullish p "rows" (INR (rows sd)) = Some (IZR z).
Proof.
  unfold Js.nullish.
  destruct (p !! "rows") as [v|] eqn:Ev.
  - destruct (Hp _ _ Ev) as [E | [[_ ->] | [r ->]]]; [discriminate | |].
    + exists (Z.of_nat (rows sd)). now rewrite INR_IZR_INZ.
    + destruct (Hp_rows r eq_refl) as [z ->]. eauto.
  - exists (Z.of_nat (rows sd)). now rewrite INR_IZR_INZ.
Qed.

Lemma cols_whole (d : gmap string Js.value) c0 :
  d !! "cols" = Some (Js.Num (IZR c0)) ->
  exists z : Z, Js.num (Js.spread d p) "cols" = Some (IZR z).
Proof.
  intros Hd. unfold Js.num. rewrite spread_lookup.
  destruct (p !! "cols") as [v|] eqn:Ev.
  - destruct (Hp _ _ Ev) as [E | [[E _] | [r ->]]]; [discriminate.. |].
    destruct (Hp_cols r eq_refl) as [z ->]. eauto.
  - rewrite Hd. eauto.
Qed.

Lemma density_whole (d : gmap string Js.value) d0 :
  d !! "density" = Some (Js.Num d0) -> 1 <= d0 ->
  exists x, Js.num (Js.spread d p) "density" = Some x /\ (1 <= Zfloor x)%Z.
Proof.
  intros Hd Hd0. unfold Js.num. rewrite spread_lookup.
  destruct (p !! "density") as [v|] eqn:Ev.
  - destruct (Hp _ _ Ev) as [E | [[E _] | [r ->]]]; [discriminate.. |].
    exists r. split; [reflexivity|]. apply (Zfloor_lub 1). now apply Hp_density.
  - rewrite Hd. exists d0. split; [reflexivity|]. now apply (Zfloor_lub 1).
Qed.

Ltac entry_with E :=
  unfold E; cbv zeta; unfold_defaults; read_numeric Hp;
  rewrite ?INR_IZR_INZ, ?passes_IZR.

Lemma vertical_generate_total W H :
  is_Some (VerticalLines.generate sd p W H).
Proof.
  destruct rows_whole_own as [z Ez].
  unfold VerticalLines.generate. cbv zeta. rewrite Ez.
  unfold_defaults. read_numeric Hp. rewrite passes_IZR, !INR_IZR_INZ.
  repeat some_step.
Qed.

Lemma vertical_init_total W H :
  is_Some (VerticalLinesAnim.init sd p W H).
Proof.
  destruct (rows_whole VerticalLinesAnim.getDefaultParams eq_refl)
    as [z Ez].
  unfold VerticalLinesAnim.init. cbv zeta. rewrite Ez.
  unfold_defaults. read_numeric Hp. rewrite passes_IZR, !INR_IZR_INZ.
  repeat some_step.
  unfold VerticalLinesAnim.init_column. repeat some_step.
Qed.

Lemma horizontal_generate_total W H :
  is_Some (HorizontalLines.generate sd p W H).
Proof. entry_with HorizontalLines.generate. repeat some_step. Qed.

Lemma horizontal_init_total W H :
  is_Some (HorizontalLinesAnim.init sd p W H).
Proof.
  destruct (rows_whole HorizontalLinesAnim.getDefaultParams eq_refl)
    as [z Ez].
  unfold HorizontalLinesAnim.init. cbv zeta. rewrite Ez.
  unfold_defaults. read_numeric Hp. rewrite passes_IZR, !INR_IZR_INZ.
  repeat some_step.
  unfold HorizontalLinesAnim.init_row. repeat some_step.
Qed.

Lemma ellipse_generate_total W H :
  is_Some (EllipseGrid.generate sd p W H).
Proof.
  destruct (cols_whole EllipseGrid.getDefaultParams 60 eq_refl) as [z Ez].
  unfold EllipseGrid.generate. cbv zeta. rewrite Ez.
  unfold_defaults. read_numeric Hp. rewrite passes_IZR.
  repeat some_step.
Qed.

Lemma ellipse_init_total W H :
  is_Some (EllipseGridAnim.init sd p W H).
Proof.
  destruct (cols_whole EllipseGridAnim.getDefaultParams 60 eq_refl)
    as [z Ez].
  unfold EllipseGridAnim.init. cbv zeta. rewrite Ez.
  unfold_defaults. read_numeric Hp. rewrite passes_IZR.
  repeat some_step.
Qed.

Lemma lattice_cell W (n : Z) : 0 < W -> (1 <= n)%Z -> 0 < W / IZR n.
Proof.
  intros HW Hn. apply Rdiv_lt_0_compat; [exact HW|].
  apply (IZR_lt 0). lia.
Qed.

Lemma glint_generate_total W H :
  0 < W -> 0 < H -> is_Some (StarGlint.generate sd p W H).
Proof.
  intros HW HH.
  destruct (density_whole StarGlint.getDefaultParams 80 eq_refl
              ltac:(lra)) as (d & Ed & Hd).
  unfold StarGlint.generate. cbv zeta. rewrite Ed.
  unfold_defaults. read_numeric Hp.
  pose proof (lattice_cell W (Zfloor d) HW Hd) as HcW.
  rewrite (div_Some W) by (apply Rgt_not_eq, (IZR_lt 0); lia).
  cbn [mbind option_bind].
  rewrite div_Some by (apply Rgt_not_eq; exact HcW).
  cbn [mbind option_bind].
  repeat some_step.
Qed.

Lemma glint_init_total W H :
  0 < W -> 0 < H -> is_Some (StarGlintAnim.init sd p W H).
Proof.
  intros HW HH.
  destruct (density_whole StarGlintAnim.getDefaultParams 80 eq_refl
              ltac:(lra)) as (d & Ed & Hd).
  unfold StarGlintAnim.init. cbv zeta. rewrite Ed.
  unfold_defaults. read_numeric Hp.
  pose proof (lattice_cell W (Zfloor d) HW Hd) as HcW.
  rewrite (div_Some W) by (apply Rgt_not_eq, (IZR_lt 0); lia).
  cbn [mbind option_bind].
  rewrite div_Some by (apply Rgt_not_eq; exact HcW).
  cbn [mbind option_bind].
  assert (Hrows0 : (0 <= Zfloor (H / (W / IZR (Zfloor d))))%Z).
  { apply (Zfloor_lub 0). apply Rlt_le. now apply Rdiv_lt_0_compat. }
  repeat some_step; nia.
Qed.

Lemma halftone_generate_total W H :
  is_Some (LineHalftone.generate sd p W H).
Proof. entry_with LineHalftone.generate. repeat some_step. Qed.

Lemma halftone_init_total W H :
  is_Some (LineHalftoneAnim.init sd p W H).
Proof.
  destruct (density_whole LineHalftoneAnim.getDefaultParams 80 eq_refl
              ltac:(lra)) as (d & Ed & Hd).
  unfold LineHalftoneAnim.init. cbv zeta. rewrite Ed.
  cbn [mbind option_bind]. repeat some_step.
Qed.

Lemma scatter_generate_total W H :
  0 < W -> 0 < H -> is_Some (ParticleScatter.generate sd p W H).
Proof.
  intros HW HH. entry_with ParticleScatter.generate.
  destruct cellWeights_is_Some as [ws ->].
  cbn [mbind option_bind].
  destruct (Req_dec_T _ 0); [eauto|].
  some_step; [now apply dots_is_Some | eauto].
Qed.

Lemma scatter_init_total W H :
  0 < W -> 0 < H -> is_Some (ParticleScatterAnim.init sd p W H).
Proof.
  intros HW HH. entry_with ParticleScatterAnim.init.
  destruct cellWeights_is_Some as [ws ->].
  cbn [mbind option_bind].
  some_step; [now apply particles_is_Some|].
  repeat some_step.
Qed.

End Entry.

Lemma vertical_rows (p : gmap string Js.value) d :
  Js.nullish (Js.spread VerticalLines.getDefaultParams p) "rows" d
  = Js.nullish p "rows" d.
Proof.
  unfold Js.nullish. rewrite spread_lookup.
  destruct (p !! "rows"); reflexivity.
Qed.

End NoError.

(** ** Loops that collect *)

Section Loops.

Context {B : Type}.

Lemma collect_total {A} (body : A -> option (list B)) (g : A -> list B) l :
  (forall i, In i l -> body i = Some (g i)) ->
  Js.collect body l = Some (flat_map g l).
Proof.
  induction l as [|i l IH]; intros H; cbn [Js.collect flat_map];
    [reflexivity|].
  rewrite (H i) by now left. cbn.
  rewrite IH by (intros; apply H; now right). reflexivity.
Qed.

Lemma collect_In {A} (body : A -> option (list B)) l out x :
  Js.collect body l = Some out -> In x out ->
  exists i o, In i l /\ body i = Some o /\ In x o.
Proof.
  revert out. induction l as [|i l IH]; intros out Hc Hx;
    cbn [Js.collect] in Hc.
  - injection Hc as <-. destruct Hx.
  - destruct (body i) as [o|] eqn:Ei; [|discriminate]. cbn in Hc.
    destruct (Js.collect body l) as [rest|]; [|discriminate].
    cbn in Hc. injection Hc as <-.
    apply in_app_or in Hx as [Hx|Hx].
    + exists i, o. split; [now left | now split].
    + destruct (IH rest eq_refl Hx) as (j & o' & Hj & Ej & Hx').
      exists j, o'. split; [now right | now split].
Qed.

Lemma for_loop_In (body : nat -> option (list B)) n out x :
  Js.for_loop n body = Some out -> In x out ->
  exists i o, (i < n)%nat /\ body i = Some o /\ In x o.
Proof.
  intros Hc Hx.
  destruct (collect_In _ _ _ _ Hc Hx) as (i & o & Hi & Ei & Ho).
  apply in_seq in Hi. exists i, o. split; [lia | now split].
Qed.

Lemma for_loop_total (body : nat -> option (list B)) (g : nat -> list B) n :
  (forall i, (i < n)%nat -> body i = Some (g i)) ->
  Js.for_loop n body = Some (flat_map g (seq 0 n)).
Proof.
  intros H. apply collect_total. intros i Hi.
  apply in_seq in Hi. apply H. lia.
Qed.

End Loops.

Section LoopOutput.
Context {B : Type}.

Lemma collect_length_le {A} (body : A -> option (list B)) k l out :
  (forall i o, In i l -> body i = Some o -> (length o <= k)%nat) ->
  Js.collect body l = Some out -> (length out <= length l * k)%nat.
Proof.
  revert out. induction l as [|i l IH]; intros out Hk E; cbn in E.
  - apply (inj Some) in E. subst out. cbn. lia.
  - destruct (body i) as [o|] eqn:Eo; [|discriminate].
    cbn [mbind option_bind] in E.
    destruct (Js.collect body l) as [rest|] eqn:Er; [|discriminate].
    cbn [mbind option_bind] in E. apply (inj Some) in E. subst out.
    rewrite length_app. cbn [length].
    assert (length o <= k)%nat by (apply (Hk i); [now left | exact Eo]).
    assert (length rest <= length l * k)%nat.
    { apply IH; [|reflexivity]. intros j o' Hj. apply Hk. now right. }
    lia.
Qed.

Lemma for_loop_length_le (body : nat -> option (list B)) k n out :
  (forall i o, (i < n)%nat -> body i = Some o -> (length o <= k)%nat) ->
  Js.for_loop n body = Some out -> (length out <= n * k)%nat.
Proof.
  intros Hk E. unfold Js.for_loop in E.
  apply (collect_length_le body k) in E.
  - now rewrite length_seq in E.
  - intros i o Hi. apply Hk. apply in_seq in Hi. lia.
Qed.

Lemma collect_length {A} (body : A -> option (list B)) k l out :
  (forall i o, In i l -> body i = Some o -> length o = k) ->
  Js.collect body l = Some out -> length out = (length l * k)%nat.
Proof.
  revert out. induction l as [|i l IH]; intros out Hk E; cbn in E.
  - apply (inj Some) in E. now subst out.
  - destruct (body i) as [o|] eqn:Eo; [|discriminate].
    cbn [mbind option_bind] in E.
    destruct (Js.collect body l) as [rest|] eqn:Er; [|discriminate].
    cbn [mbind option_bind] in E. apply (inj Some) in E. subst out.
    rewrite length_app. cbn [length].
    rewrite (Hk i o) by (auto; now left).
    rewrite (IH rest); [lia | | reflexivity].
    intros j o' Hj. apply Hk. now right.
Qed.

Lemma for_loop_length (body : nat -> option (list B)) k n out :
  (forall i o, (i < n)%nat -> body i = Some o -> length o = k) ->
  Js.for_loop n body = Some out -> length out = (n * k)%nat.
Proof.
  intros Hk E. unfold Js.for_loop in E.
  apply (collect_length body k) in E.
  - now rewrite length_seq in E.
  - intros i o Hi. apply Hk. apply in_seq in Hi. lia.
Qed.

(** A loop that ends has ended each of its passes. *)
Lemma collect_passes {A} (body : A -> option (list B)) l out :
  Js.collect body l = Some out -> forall i, In i l -> is_Some (body i).
Proof.
  revert out. induction l as [|j l IH]; intros out E i Hi; [destruct Hi|].
  cbn in E. destruct (body j) as [o|] eqn:Eo; [|discriminate].
  cbn [mbind option_bind] in E.
  destruct (Js.collect body l) as [rest|] eqn:Er; [|discriminate].
  destruct Hi as [<-|Hi]; [rewrite Eo; eauto | eapply IH; eauto].
Qed.

Lemma for_loop_passes (body : nat -> option (list B)) n out :
  Js.for_loop n body = Some out ->
  forall i, (i < n)%nat -> is_Some (body i).
Proof.
  intros E i Hi. apply (collect_passes body (seq 0 n) out E).
  apply in_seq. lia.
Qed.

End LoopOutput.

Section FlatLoops.
Context {B : Type}.

(** What a loop that ends has collected: the output of its passes, in
    order. *)
Lemma collect_flat {A} (body : A -> option (list B)) l out :
  Js.collect body l = Some out ->
  out = flat_map (fun i => default [] (body i)) l.
Proof.
  revert out. induction l as [|i l IH]; intros out E; cbn in E.
  - now apply (inj Some) in E.
  - destruct (body i) as [o|] eqn:Eo; [|discriminate].
    cbn [mbind option_bind] in E.
    destruct (Js.collect body l) as [rest|] eqn:Er; [|discriminate].
    cbn [mbind option_bind] in E. apply (inj Some) in E. subst out.
    cbn [flat_map]. rewrite Eo. cbn [default]. f_equal. now apply IH.
Qed.

Lemma for_loop_flat (body : nat -> option (list B)) n out :
  Js.for_loop n body = Some out ->
  out = flat_map (fun i => default [] (body i)) (seq 0 n).
Proof. apply collect_flat. Qed.

Lemma flat_map_ext_In {A} (f g : A -> list B) l :
  (forall i, In i l -> f i = g i) -> flat_map f l = flat_map g l.
Proof.
  induction l as [|i l IH]; intros H; [reflexivity|].
  cbn [flat_map]. rewrite (H i) by now left.
  rewrite IH by (intros; apply H; now right). reflexivity.
Qed.

Lemma flat_map_seq_ext (f g : nat -> list B) n :
  (forall i, (i < n)%nat -> f i = g i) ->
  flat_map f (seq 0 n) = flat_map g (seq 0 n).
Proof.
  intros H. apply flat_map_ext_In. intros i Hi. apply in_seq in Hi.
  apply H. lia.
Qed.

(** Two nested loops that end: the output of the inner passes, row by
    row. *)
Lemma nested_loops_flat (body : nat -> nat -> option (list B)) n m out :
  Js.for_loop n (fun r => Js.for_loop m (body r)) = Some out ->
  out = flat_map (fun r =>
          flat_map (fun c => default [] (body r c)) (seq 0 m)) (seq 0 n).
Proof.
  intros E. rewrite (for_loop_flat _ _ _ E).
  apply flat_map_seq_ext. intros r Hr.
  destruct (for_loop_passes _ _ _ E r Hr) as [o Eo]. rewrite Eo.
  cbn [default]. now apply for_loop_flat.
Qed.

Lemma in_flat_map_seq (f : nat -> list B) n x :
  In x (flat_map f (seq 0 n)) <-> exists i, (i < n)%nat /\ In x (f i).
Proof.
  rewrite in_flat_map. split; intros (i & Hi & Hx); exists i.
  - apply in_seq in Hi. split; [lia | exact Hx].
  - split; [apply in_seq; lia | exact Hx].
Qed.

Lemma flat_map_length_le (f : nat -> list B) k l :
  (forall i, (length (f i) <= k)%nat) ->
  (length (flat_map f l) <= length l * k)%nat.
Proof.
  intros Hk. induction l as [|i l IH]; [cbn; lia|].
  cbn [flat_map length]. rewrite length_app. specialize (Hk i). lia.
Qed.

End FlatLoops.

Section Evaluation.
Local Open Scope R_scope.
Import MathUtils Spec.

(** On a grid of a single cell every sample is that cell. *)
Lemma sampleBilinear_single g u v :
  sampleBilinear [[g]] 1 1 u v = Some g.
Proof.
  assert (Hwf : wf_grid [[g]] 1 1)
    by (split; [reflexivity | repeat constructor]).
  assert (Hi : forall w, floorIndex 1 w = 0%Z).
  { intros w. unfold floorIndex. cbn [INR].
    replace (w * (1 - 1)) with (IZR 0) by ring. apply ZfloorZ. }
  destruct (sampleBilinear_value [[g]] 1 1 u v Hwf)
    as (g00 & g01 & g10 & g11 & E00 & E01 & E10 & E11 & ->);
    [rewrite Hi; lia..|].
  rewrite !Hi in *. cbn in E00, E01, E10, E11.
  injection E00 as <-. injection E01 as <-.
  injection E10 as <-. injection E11 as <-.
  f_equal. ring.
Qed.

Lemma single_cell g r c x : cell [[g]] r c = Some x -> x = g.
Proof.
  unfold cell. destruct ((r <? 0)%Z || (c <? 0)%Z); [discriminate|].
  destruct (Z.to_nat r) as [|[|i]]; try discriminate.
  destruct (Z.to_nat c) as [|[|j]]; try discriminate.
  cbn. congruence.
Qed.

Lemma single_wf g : wf_grid [[g]] 1 1.
Proof. split; [reflexivity | repeat constructor]. Qed.

End Evaluation.

(** Tests and [Math.min] / [Math.max] on numerals. *)
Ltac decide_tests :=
  repeat match goal with
    | |- context [Js.ltb ?a ?b] =>
        first [ rewrite (proj2 (ltb_true a b)) by lra
              | rewrite (proj2 (ltb_false a b)) by lra ]
    | |- context [Rmax ?a ?b] =>
        first [ rewrite (Rmax_left a b) by lra
              | rewrite (Rmax_right a b) by lra ]
    | |- context [Rmin ?a ?b] =>
        first [ rewrite (Rmin_left a b) by lra
              | rewrite (Rmin_right a b) by lra ]
    end.

Section Degenerate.
Local Open Scope R_scope.
Import MathUtils Spec SvgSampler.

(** The skip test of the static Ellipse Grid never holds: [rx] has been
    raised to 0.5 before it is compared with 0.3. *)
Lemma ellipse_skip_test_dead ry eccentricity :
  Js.ltb (Rmax (ry * eccentricity) 0.5) 0.3 && Js.ltb ry 0.3 = false.
Proof.
  rewrite (proj2 (ltb_false (Rmax (ry * eccentricity) 0.5) 0.3));
    [reflexivity|].
  pose proof (Rmax_r (ry * eccentricity) 0.5). lra.
Qed.

(** C8 (the code at the failing input). For a source that is white
    everywhere (here a grid of one white cell) the static Ellipse Grid
    with default parameters on a 1000 x 1000 output skips nothing: it
    emits 60 x 60 ellipses, every one of them with vertical radius 0 and
    horizontal radius 0.5. *)
Theorem C8_ellipse_static_draws_flat_ellipses :
  let sd := SampleData [[1]] 1 1 1 100 100 in
  exists out,
    EllipseGrid.generate sd ∅ 1000 1000 = Some out /\
    length (Gfx.prims out) = 3600%nat /\
    Forall (fun e => Gfx.ry e = 0 /\ Gfx.rx e = 0.5) (Gfx.prims out).
Proof.
  intros sd. unfold EllipseGrid.generate. cbv zeta. read_params.
  cbn [aspect grid cols rows sd].
  replace (Js.round (60 / 1)) with 60%Z
    by (symmetry; apply Zfloor_eq; lra).
  change (Z.to_nat (Z.max 1 60)) with 60%nat.
  rewrite passes_IZR. change (Z.to_nat 60) with 60%nat.
  erewrite for_loop_total; cycle 1.
  { intros r Hr. apply for_loop_total. intros c Hc.
    rewrite sampleBilinear_single. cbn [mbind option_bind].
    rewrite ellipse_skip_test_dead. reflexivity. }
  cbn [mbind option_bind]. eexists. split; [reflexivity|].
  cbn [Gfx.prims]. split.
  - rewrite flat_map_constant_length with (c := 60%nat).
    + now rewrite length_seq.
    + intros r _. rewrite flat_map_constant_length with (c := 1%nat).
      * now rewrite length_seq.
      * reflexivity.
  - apply Forall_flat_map, Stdlib.Lists.List.Forall_forall. intros r _.
    apply Forall_flat_map, Stdlib.Lists.List.Forall_forall. intros c _.
    repeat constructor; cbn [Gfx.ry Gfx.rx].
    + unfold lerp. ring.
    + unfold lerp. apply Rmax_right. lra.
Qed.

End Degenerate.

(** ** Min/max pairs submitted in either order *)

(** Reading a key of an object after one of its keys has been set. *)
Ltac read_inserted :=
  unfold Js.num, Js.nullish; rewrite ?spread_lookup;
  repeat first [ rewrite lookup_insert_eq
               | rewrite lookup_insert_ne by discriminate ].

Lemma bind_assoc {A B C} (m : option A) (f : A -> option B)
    (g : B -> option C) :
  (m ≫= f) ≫= g = m ≫= (fun x => f x ≫= g).
Proof. destruct m; reflexivity. Qed.

Lemma bind_ext {A B} (m : option A) (f g : A -> option B) :
  (forall x, f x = g x) -> m ≫= f = m ≫= g.
Proof. intros H. destruct m; [apply H | reflexivity]. Qed.

(** Two chains of binds that read the same things, compared at their
    last step. *)
Ltac same_chain :=
  repeat (rewrite !bind_assoc; apply bind_ext; intros ?);
  cbn [mbind option_bind].

Section Symmetry.
Local Open Scope R_scope.
Import MathUtils Spec SvgSampler.

Lemma scatter_generate_swap sd p a b W H :
  ParticleScatter.generate sd (with_pair "minRadius" "maxRadius" a b p) W H
  = ParticleScatter.generate sd (with_pair "minRadius" "maxRadius" b a p)
      W H.
Proof.
  unfold ParticleScatter.generate, with_pair. cbv zeta. read_inserted.
  cbn [mbind option_bind].
  rewrite (Rmin_comm b a), (Rmax_comm b a). reflexivity.
Qed.

Lemma scatter_frame_swap sd p a b W H t :
  ParticleScatterAnim.init sd (with_pair "minRadius" "maxRadius" a b p) W H
    ≫= (fun st => ParticleScatterAnim.drawFrame st t)
  = ParticleScatterAnim.init sd (with_pair "minRadius" "maxRadius" b a p)
      W H
    ≫= (fun st => ParticleScatterAnim.drawFrame st t).
Proof.
  unfold ParticleScatterAnim.init, with_pair. cbv zeta. read_inserted.
  cbn [mbind option_bind].
  rewrite (Rmin_comm b a), (Rmax_comm b a).
  same_chain.
  unfold ParticleScatterAnim.drawFrame.
  cbn [ParticleScatterAnim.params ParticleScatterAnim.count
       ParticleScatterAnim.px ParticleScatterAnim.py
       ParticleScatterAnim.pr ParticleScatterAnim.ph].
  read_inserted. cbn [mbind option_bind].
  rewrite (Rmin_comm b a). reflexivity.
Qed.

Lemma horizontal_generate_swap sd p a b W H :
  HorizontalLines.generate sd (with_pair "minStroke" "maxStroke" a b p) W H
  = HorizontalLines.generate sd (with_pair "minStroke" "maxStroke" b a p)
      W H.
Proof.
  unfold HorizontalLines.generate, with_pair. cbv zeta. read_inserted.
  cbn [mbind option_bind].
  rewrite (Rmin_comm b a), (Rmax_comm b a). reflexivity.
Qed.

Lemma vertical_generate_swap sd p a b W H :
  VerticalLines.generate sd (with_pair "minStroke" "maxStroke" a b p) W H
  = VerticalLines.generate sd (with_pair "minStroke" "maxStroke" b a p)
      W H.
Proof.
  unfold VerticalLines.generate, with_pair. cbv zeta. read_inserted.
  cbn [mbind option_bind].
  rewrite (Rplus_comm b a). reflexivity.
Qed.

(** C7 (as amended). Where a call takes both the minimum and the maximum
    of a pair, submitting the pair reversed changes nothing: the radius
    pair of Particle Scatter (static output, and every animated frame) and
    the stroke pair of the static Horizontal Lines; and the static
    Vertical Lines uses only the midpoint of its stroke pair. *)
Theorem C7_normalised_pairs_are_symmetric sd p a b W H :
  ParticleScatter.generate sd (with_pair "minRadius" "maxRadius" a b p) W H
    = ParticleScatter.generate sd (with_pair "minRadius" "maxRadius" b a p)
        W H /\
  (forall t,
     ParticleScatterAnim.init sd (with_pair "minRadius" "maxRadius" a b p)
         W H
       ≫= (fun st => ParticleScatterAnim.drawFrame st t)
     = ParticleScatterAnim.init sd
         (with_pair "minRadius" "maxRadius" b a p) W H
       ≫= (fun st => ParticleScatterAnim.drawFrame st t)) /\
  HorizontalLines.generate sd (with_pair "minStroke" "maxStroke" a b p) W H
    = HorizontalLines.generate sd (with_pair "minStroke" "maxStroke" b a p)
        W H /\
  VerticalLines.generate sd (with_pair "minStroke" "maxStroke" a b p) W H
    = VerticalLines.generate sd (with_pair "minStroke" "maxStroke" b a p)
        W H.
Proof.
  auto using scatter_generate_swap, scatter_frame_swap,
    horizontal_generate_swap, vertical_generate_swap.
Qed.

(** C7 as stated fails for the length pair of the line effects, of which
    only the maximum is raised to the minimum: on one white cell the
    static Vertical Lines draws a dash of length 50 for
    [minLength = 0.05], [maxLength = 1] and of length 1000 for the pair
    reversed. *)
Lemma C7_counterexample :
  let sd := SampleData [[1]] 1 1 1 100 100 in
  VerticalLines.generate sd (with_pair "minLength" "maxLength" 0.05 1 ∅)
    1000 1000
  = Some (Gfx.StrokedPath [Gfx.Segment 500 475 500 525]
            (Js.Str "#000000") 2.25) /\
  VerticalLines.generate sd (with_pair "minLength" "maxLength" 1 0.05 ∅)
    1000 1000
  = Some (Gfx.StrokedPath [Gfx.Segment 500 0 500 1000]
            (Js.Str "#000000") 2.25) /\
  VerticalLines.generate sd (with_pair "minLength" "maxLength" 0.05 1 ∅)
    1000 1000
  <> VerticalLines.generate sd (with_pair "minLength" "maxLength" 1 0.05 ∅)
       1000 1000.
Proof.
  intros sd.
  assert (E1 : VerticalLines.generate sd
                 (with_pair "minLength" "maxLength" 0.05 1 ∅) 1000 1000
               = Some (Gfx.StrokedPath [Gfx.Segment 500 475 500 525]
                         (Js.Str "#000000") 2.25)).
  { unfold VerticalLines.generate, with_pair. cbv zeta. read_inserted.
    rewrite ?lookup_empty. unfold_defaults. read_literal.
    cbn [mbind option_bind cols rows grid sd].
    rewrite passes_INR. cbn [Js.for_loop Js.collect seq].
    rewrite sampleBilinear_single. cbn [mbind option_bind].
    unfold lerp. cbn [INR]. decide_tests.
    cbn [mbind option_bind app]. repeat f_equal; lra. }
  assert (E2 : VerticalLines.generate sd
                 (with_pair "minLength" "maxLength" 1 0.05 ∅) 1000 1000
               = Some (Gfx.StrokedPath [Gfx.Segment 500 0 500 1000]
                         (Js.Str "#000000") 2.25)).
  { unfold VerticalLines.generate, with_pair. cbv zeta. read_inserted.
    rewrite ?lookup_empty. unfold_defaults. read_literal.
    cbn [mbind option_bind cols rows grid sd].
    rewrite passes_INR. cbn [Js.for_loop Js.collect seq].
    rewrite sampleBilinear_single. cbn [mbind option_bind].
    unfold lerp. cbn [INR]. decide_tests.
    cbn [mbind option_bind app]. repeat f_equal; lra. }
  split; [exact E1|]. split; [exact E2|].
  rewrite E1, E2. intros E. injection E as E. lra.
Qed.

End Symmetry.

(** ** The weighted pick of Particle Scatter *)

Section Search.
Local Open Scope R_scope.

Variable weights : list R.
Variable target : R.

(** The table is nondecreasing, as a table of running totals of
    positive weights is. *)
Hypothesis sorted : forall i j, (i <= j < length weights)%nat ->
  nth i weights 0 <= nth j weights 0.

(** The loop keeps: everything left of [lo] is below the target, and
    [hi] is the last index or is not below the target.  It ends, within
    its fuel, with [lo = hi]. *)
Lemma search_spec fuel : forall lo hi,
  (hi - lo <= fuel)%nat -> (lo <= hi < length weights)%nat ->
  (forall i, (i < lo)%nat -> nth i weights 0 < target) ->
  (hi = (length weights - 1)%nat \/ target <= nth hi weights 0) ->
  let r := ParticleScatter.search fuel weights target lo hi in
  (lo <= r <= hi)%nat /\
  (forall i, (i < r)%nat -> nth i weights 0 < target) /\
  (r = (length weights - 1)%nat \/ target <= nth r weights 0).
Proof.
  induction fuel as [|fuel IH]; intros lo hi Hfuel Hrange Hlo Hhi;
    cbn [ParticleScatter.search].
  - assert (lo = hi) by lia. subst. cbv zeta. auto with arith.
  - destruct (lo <? hi)%nat eqn:E.
    + apply Nat.ltb_lt in E.
      assert (Hmid : (lo <= (lo + hi) / 2 < hi)%nat).
      { split;
          [ apply Nat.div_le_lower_bound
          | apply Nat.Div0.div_lt_upper_bound ]; lia. }
      cbv zeta.
      destruct (Js.ltb (nth ((lo + hi) / 2) weights 0) target) eqn:Et.
      * apply ltb_true in Et.
        destruct (IH ((lo + hi) / 2 + 1)%nat hi) as (Hr & Hbelow & Hat);
          [lia | lia | | assumption |].
        { intros i Hi. eapply Rle_lt_trans; [|exact Et].
          apply sorted. lia. }
        split; [lia | now split].
      * apply ltb_false in Et.
        destruct (IH lo ((lo + hi) / 2)%nat) as (Hr & Hbelow & Hat);
          [lia | lia | assumption | now right |].
        split; [lia | now split].
    + apply Nat.ltb_ge in E. assert (lo = hi) by lia. subst.
      cbv zeta. auto with arith.
Qed.

(** The cell picked for a target that [weights[k]] is the first entry
    to reach. *)
Lemma pickCell_first k :
  (k < length weights)%nat ->
  (forall i, (i < k)%nat -> nth i weights 0 < target) ->
  target <= nth k weights 0 ->
  ParticleScatter.pickCell weights target = k.
Proof.
  intros Hk Hbelow Hat. unfold ParticleScatter.pickCell.
  destruct (search_spec (length weights) 0 (length weights - 1))
    as (Hr & Hb & Ha); [lia | lia | intros; lia | now left |].
  set (r := ParticleScatter.search _ _ _ _ _) in *.
  destruct (Nat.lt_trichotomy r k) as [Hlt | [-> | Hgt]];
    [exfalso | reflexivity | exfalso].
  - destruct Ha as [Ha | Ha]; [lia|].
    specialize (Hbelow r Hlt). lra.
  - specialize (Hb k Hgt). lra.
Qed.

End Search.

Section RunningTotals.
Local Open Scope R_scope.

Lemma cumulative_length acc ws :
  length (ParticleScatter.cumulative acc ws) = length ws.
Proof.
  revert acc. induction ws as [|w ws IH]; intros acc;
    cbn [ParticleScatter.cumulative length]; [reflexivity|].
  now rewrite IH.
Qed.

(** The running totals of equal weights. *)
Lemma cumulative_uniform w ws :
  Forall (fun x => x = w) ws -> forall acc i, (i < length ws)%nat ->
  nth i (ParticleScatter.cumulative acc ws) 0 = acc + INR (S i) * w.
Proof.
  induction 1 as [|x ws -> _ IH]; intros acc i Hi; cbn [length] in Hi;
    [lia|].
  cbn [ParticleScatter.cumulative]. destruct i as [|i]; cbn [nth].
  - cbn. ring.
  - rewrite IH by lia. rewrite !S_INR. ring.
Qed.

Lemma last_is_nth (l : list R) d :
  l <> [] -> List.last l d = nth (length l - 1) l d.
Proof.
  induction l as [|x l IH]; intros Hl; [contradiction|].
  destruct l as [|y l]; [reflexivity|].
  change (List.last (x :: y :: l) d) with (List.last (y :: l) d).
  rewrite IH by discriminate.
  cbn [length]. rewrite !Nat.sub_1_r. reflexivity.
Qed.

End RunningTotals.

(** ** What the dot loop emits *)

Section Dots.
Local Open Scope R_scope.
Import MathUtils Spec SvgSampler.

Variable sd : sampleData.
Variable weights : list R.
Variables totalWeight cellW cellH W H scatter rmin rmax : R.

Local Abbreviation place :=
  (ParticleScatter.place sd weights totalWeight cellW cellH W H scatter
     rmin rmax).

(** A pass that does not end in [continue] has a position inside the
    output rectangle, a sample there, and a [baseR] of at least 0.15. *)
Lemma place_spec s s' px py baseR :
  place s = Some (s', Some (px, py, baseR)) ->
  (0 <= px <= W /\ 0 <= py <= H) /\ 0.15 <= baseR /\
  exists b k,
    sampleBilinear (grid sd) (cols sd) (rows sd) (px / W) (py / H) = Some b
    /\ baseR = lerp rmin rmax ((1 - b) * k).
Proof.
  unfold ParticleScatter.place, rand. cbv zeta.
  match goal with
  | |- context [if ?g then _ else _] => destruct g eqn:Hg
  end; [discriminate|].
  repeat (apply orb_false_elim in Hg; destruct Hg as [Hg ?]).
  repeat match goal with
         | E : Js.ltb _ _ = false |- _ => apply ltb_false in E
         end.
  match goal with
  | |- context [sampleBilinear ?g ?c ?r ?u ?v] =>
      destruct (sampleBilinear g c r u v) as [b|] eqn:Eb; [|discriminate]
  end.
  cbn [mbind option_bind].
  match goal with
  | |- context [if ?g then _ else _] => destruct g eqn:Hb
  end; [discriminate|].
  apply ltb_false in Hb.
  match goal with
  | |- Some (?a, Some (?x, ?y, ?r)) = _ -> _ =>
      remember a as s4 eqn:Es4; remember x as px0 eqn:Epx;
      remember y as py0 eqn:Epy; remember r as baseR0 eqn:Er
  end.
  intros E.
  assert (E1 : s4 = s' /\ px0 = px /\ py0 = py /\ baseR0 = baseR)
    by (clear - E; repeat split; congruence).
  destruct E1 as (_ & <- & <- & <-).
  split; [split; split; assumption|]. split; [exact Hb|].
  eexists b, _. split; [exact Eb | exact Er].
Qed.

Local Abbreviation dots :=
  (ParticleScatter.dots sd weights totalWeight cellW cellH W H scatter
     rmin rmax).

(** Every circle of the dot loop lies inside the output rectangle and
    has passed the size tests. *)
Lemma dots_spec n : forall s out,
  dots n s = Some out ->
  Forall (fun c => (0 <= Gfx.ccx c <= W /\ 0 <= Gfx.ccy c <= H) /\
                   0.15 <= Gfx.radius c) out.
Proof.
  induction n as [|n IH]; intros s out; cbn [ParticleScatter.dots].
  - intros E. injection E as <-. constructor.
  - destruct (place s) as [[s' placed]|] eqn:Ep; [|discriminate].
    cbn [mbind option_bind].
    destruct placed as [[[px py] baseR]|]; [|apply IH].
    unfold rand. cbv zeta.
    match goal with
    | |- context [if ?g then _ else _] => destruct g eqn:Hr
    end; [apply IH|].
    apply ltb_false in Hr.
    destruct (ParticleScatter.dots _ _ _ _ _ _ _ _ _ _ n _) as [rest|] eqn:Er;
      [|discriminate].
    cbn [mbind option_bind]. intros E.
    assert (E1 : Gfx.Circle px py
                   (lerp rmin baseR
                      (0.5 + 0.5 * sin (IZR (snd (next s'))
                                        / 4294967296 * PI * 2)))
                 :: rest = out) by congruence.
    subst out.
    constructor; [|exact (IH _ _ Er)].
    cbn [Gfx.ccx Gfx.ccy Gfx.radius].
    split; [|exact Hr]. now apply place_spec in Ep.
Qed.

End Dots.

(** ** Particle Scatter on a white grid *)

Section White.
Local Open Scope R_scope.
Import MathUtils Spec SvgSampler.

Lemma white_wf cols rows : wf_grid (white cols rows) cols rows.
Proof.
  unfold white. split; [apply length_replicate|].
  apply Forall_replicate, length_replicate.
Qed.

Lemma white_cell cols rows r c g : cell (white cols rows) r c = Some g -> g = 1.
Proof.
  unfold cell, white.
  destruct ((r <? 0)%Z || (c <? 0)%Z); [discriminate|].
  destruct (replicate rows (replicate cols 1) !! Z.to_nat r)
    as [row|] eqn:Er; [|discriminate].
  apply lookup_replicate in Er as [-> _]. cbn.
  intros Eg. now apply lookup_replicate in Eg as [-> _].
Qed.

(** Every sample of a white grid is 1. *)
Lemma white_sample cols rows u v s :
  sampleBilinear (white cols rows) cols rows u v = Some s -> s = 1.
Proof.
  intros Es.
  assert (Hs : is_Some (sampleBilinear (white cols rows) cols rows u v))
    by (rewrite Es; eauto).
  apply sampleBilinear_in_bounds in Hs as [Hx Hy]; [|apply white_wf].
  destruct (sampleBilinear_value _ _ _ u v (white_wf cols rows) Hx Hy)
    as (g00 & g01 & g10 & g11 & E00 & E01 & E10 & E11 & Ev).
  apply white_cell in E00, E01, E10, E11. subst.
  rewrite Ev in Es. injection Es as <-. ring.
Qed.

(** The weight of a white cell is the floor weight alone. *)
Lemma white_weight : Js.pow (1 - 1) ParticleScatter.densityPower + 0.02 = 0.02.
Proof.
  unfold Js.pow. destruct (Rlt_dec 0 (1 - 1)); [lra | ring].
Qed.

Lemma white10_cellWeights :
  exists ws, ParticleScatter.cellWeights white10 = Some ws /\
    length ws = 100%nat /\ Forall (fun w => w = 0.02) ws.
Proof.
  unfold ParticleScatter.cellWeights. cbn [rows cols grid white10].
  erewrite for_loop_total; cycle 1.
  { intros r Hr. apply for_loop_total. intros c Hc.
    unfold white. rewrite lookup_replicate_2 by assumption.
    cbn [mbind option_bind]. rewrite lookup_replicate_2 by assumption.
    cbn [mbind option_bind]. rewrite white_weight. reflexivity. }
  eexists. split; [reflexivity|]. split.
  - rewrite flat_map_constant_length with (c := 10%nat).
    + now rewrite length_seq.
    + intros r _. rewrite flat_map_constant_length with (c := 1%nat).
      * now rewrite length_seq.
      * reflexivity.
  - apply Forall_flat_map, Stdlib.Lists.List.Forall_forall. intros r _.
    apply Forall_flat_map, Stdlib.Lists.List.Forall_forall. intros c _.
    repeat constructor.
Qed.

(** The first four states and outputs of the generator seeded with 42. *)
Lemma seed42_calls :
  Js.truncate 42 = 42%Z /\
  next (mulberry32 42) = (1831565855, 2581720956)%Z /\
  next 1831565855 = (-631835628, 1925393290)%Z /\
  next (-631835628) = (1199730185, 3661312704)%Z /\
  next 1199730185 = (-1263671298, 2876485805)%Z.
Proof.
  split.
  - unfold Js.truncate. destruct (Rlt_dec 42 0); [lra | apply ZfloorZ].
  - repeat split; vm_compute; reflexivity.
Qed.

Section FirstDot.

Variable ws : list R.
Hypothesis ws_length : length ws = 100%nat.
Hypothesis ws_uniform : Forall (fun w => w = 0.02) ws.

Let weights := ParticleScatter.cumulative 0 ws.

Lemma white10_weights i :
  (i < 100)%nat -> nth i weights 0 = INR (S i) * 0.02.
Proof.
  intros Hi. unfold weights.
  rewrite (cumulative_uniform 0.02) by (assumption || lia). ring.
Qed.

Lemma white10_total : List.last weights 0 = 2.
Proof.
  assert (Hlen : length weights = 100%nat)
    by (unfold weights; now rewrite cumulative_length).
  rewrite last_is_nth by (intros E; rewrite E in Hlen; discriminate).
  rewrite Hlen. change (100 - 1)%nat with 99%nat.
  rewrite white10_weights by lia.
  rewrite INR_IZR_INZ. change (Z.of_nat 100) with 100%Z. lra.
Qed.

(** The first pass of the dot loop on the white 10 x 10 grid with the
    default parameters picks cell 60 and does not end in [continue]. *)
Lemma white10_first_pass W H :
  0 < W -> 0 < H ->
  exists s' px py baseR,
    ParticleScatter.place white10 weights (List.last weights 0)
      (W / INR 10) (H / INR 10) W H 1 (Rmin 0.5 6) (Rmax 0.5 6)
      (mulberry32 (Js.truncate 42))
    = Some (s', Some (px, py, baseR)).
Proof.
  intros HW HH.
  destruct seed42_calls as (-> & E1 & E2 & E3 & E4).
  assert (Hlen : length weights = 100%nat)
    by (unfold weights; now rewrite cumulative_length).
  unfold ParticleScatter.place, rand. cbv zeta.
  rewrite white10_total.
  rewrite E1. cbn [fst snd]. rewrite E2. cbn [fst snd].
  rewrite E3. cbn [fst snd]. rewrite E4. cbn [fst snd].
  rewrite (pickCell_first weights _) with (k := 60%nat); cycle 1.
  { intros i j Hij. rewrite !white10_weights by lia.
    apply Rmult_le_compat_r; [lra|]. apply le_INR. lia. }
  { lia. }
  { intros i Hi. rewrite white10_weights by lia.
    assert (INR (S i) <= 60).
    { replace 60 with (INR 60) by (rewrite INR_IZR_INZ; reflexivity).
      apply le_INR. lia. }
    lra. }
  { rewrite white10_weights by lia.
    rewrite INR_IZR_INZ. change (Z.of_nat 61) with 61%Z. lra. }
  cbn [cols rows grid white10].
  change (60 / 10)%nat with 6%nat. change (60 mod 10)%nat with 0%nat.
  rewrite !INR_IZR_INZ.
  change (Z.of_nat 0) with 0%Z. change (Z.of_nat 6) with 6%Z.
  change (Z.of_nat 10) with 10%Z.
  match goal with
  | |- context [if ?g then _ else _] => destruct g eqn:Hg
  end.
  { exfalso.
    repeat (apply orb_true_iff in Hg; destruct Hg as [Hg|Hg]);
      apply ltb_true in Hg; lra. }
  apply guarded_position in Hg as [Hu Hv]; [|assumption..].
  match goal with
  | |- context [sampleBilinear ?g ?c ?r ?u ?v] =>
      destruct (sampleBilinear_unit g c r u v (white_wf 10 10)) as [b Eb];
      [lia | lia | exact Hu | exact Hv |]
  end.
  rewrite Eb. apply white_sample in Eb as ->.
  cbn [mbind option_bind].
  rewrite (proj2 (ltb_false _ 0.15)).
  - eauto.
  - unfold lerp. rewrite Rmin_left by lra. lra.
Qed.

End FirstDot.

(** On a white grid every circle of the dot loop has the minimum
    radius. *)
Lemma white_dots_radius cols rows aspect sw sh weights tw cw ch W H scatter
    rmin rmax n : forall s out,
  ParticleScatter.dots (SampleData (white cols rows) cols rows aspect sw sh)
    weights tw cw ch W H scatter rmin rmax n s = Some out ->
  Forall (fun c => Gfx.radius c = rmin) out.
Proof.
  set (sd := SampleData (white cols rows) cols rows aspect sw sh).
  induction n as [|n IH]; intros s out; cbn [ParticleScatter.dots].
  - intros E. assert (out = []) as -> by congruence. constructor.
  - destruct (ParticleScatter.place sd weights tw cw ch W H scatter rmin
                rmax s) as [[s' placed]|] eqn:Ep; [|discriminate].
    cbn [mbind option_bind].
    destruct placed as [[[px py] baseR]|]; [|apply IH].
    unfold rand. cbv zeta.
    match goal with
    | |- context [if ?g then _ else _] => destruct g
    end; [apply IH|].
    destruct (ParticleScatter.dots _ _ _ _ _ _ _ _ _ _ n _) as [rest|] eqn:Er;
      [|discriminate].
    cbn [mbind option_bind]. intros E.
    apply place_spec in Ep as (_ & _ & b & k & Eb & ->).
    apply white_sample in Eb as ->.
    apply (inj Some) in E. subst out.
    constructor; [|exact (IH _ _ Er)].
    cbn [Gfx.radius]. unfold lerp. ring.
Qed.

(** Particle Scatter on the white 10 x 10 grid with default parameters:
    the weight table totals 2, the first pass emits a circle, and every
    circle has radius 0.5 and lies in the output rectangle. *)
Lemma white10_scatter W H :
  0 < W -> 0 < H ->
  exists ws c rest,
    ParticleScatter.cellWeights white10 = Some ws /\
    List.last (ParticleScatter.cumulative 0 ws) 0 = 2 /\
    ParticleScatter.generate white10 ∅ W H
      = Some (Gfx.Painted (Js.Str "#000000") (c :: rest)) /\
    Forall (fun c => Gfx.radius c = 0.5 /\
                     0 <= Gfx.ccx c <= W /\ 0 <= Gfx.ccy c <= H)
           (c :: rest).
Proof.
  intros HW HH.
  destruct white10_cellWeights as (ws & Ews & Hlen & Huni).
  pose proof (white10_total ws Hlen Huni) as Htotal.
  exists ws.
  unfold ParticleScatter.generate. cbv zeta. read_params.
  rewrite Ews. cbn [mbind option_bind]. rewrite Htotal.
  destruct (Req_dec_T 2 0) as [E|_]; [lra|].
  replace (Js.round 6000) with 6000%Z
    by (symmetry; apply Zfloor_eq; lra).
  replace (Z.to_nat (Z.max 1 6000)) with (S (Z.to_nat 5999)) by lia.
  set (weights := ParticleScatter.cumulative 0 ws) in *.
  cbn [cols rows white10].
  destruct (dots_is_Some white10 (white_wf 10 10) ltac:(cbn; lia)
              ltac:(cbn; lia) weights 2 (W / INR 10) (H / INR 10) W H 1
              (Rmin 0.5 6) (Rmax 0.5 6) (S (Z.to_nat 5999)) HW HH
              (mulberry32 (Js.truncate 42))) as [out Eout].
  rewrite Eout. cbn [mbind option_bind].
  pose proof (white_dots_radius _ _ _ _ _ _ _ _ _ _ _ _ _ _ _ _ _ Eout)
    as Hrad.
  pose proof (dots_spec _ _ _ _ _ _ _ _ _ _ _ _ _ Eout) as Hpos.
  assert (Hne : exists c rest, out = c :: rest).
  { cbn [ParticleScatter.dots] in Eout.
    destruct (white10_first_pass ws Hlen Huni W H HW HH)
      as (s' & px & py & baseR & Ep).
    fold weights in Ep. rewrite Htotal in Ep. rewrite Ep in Eout.
    cbn [mbind option_bind] in Eout.
    apply place_spec in Ep as (_ & _ & b & k & Eb & ->).
    apply white_sample in Eb as ->.
    unfold rand in Eout. cbv zeta in Eout.
    rewrite (proj2 (ltb_false _ 0.15)) in Eout.
    - destruct (ParticleScatter.dots _ _ _ _ _ _ _ _ _ _ _ _) as [rest|];
        [|discriminate].
      cbn [mbind option_bind] in Eout.
      apply (inj Some) in Eout. eexists _, rest. symmetry. exact Eout.
    - unfold lerp. rewrite Rmin_left by lra. lra. }
  destruct Hne as (c & rest & ->).
  exists c, rest. split; [reflexivity|]. split; [reflexivity|].
  split; [reflexivity|].
  rewrite Rmin_left in Hrad by lra.
  rewrite Stdlib.Lists.List.Forall_forall in *.
  intros x Hx. split; [now apply Hrad | now apply Hpos].
Qed.

(** C9. For the 10 x 10 grid that is white everywhere, Particle Scatter
    with default parameters and any positive output size emits a set of
    circles that is not empty: every cell weighs 0.02, so the weight table
    totals 2 > 0 and the weighted pick proceeds, and every circle has the
    minimum radius 0.5, which passes the 0.15 cut. *)
Theorem C9_scatter_white_grid_not_empty W H :
  0 < W -> 0 < H ->
  exists ws out,
    ParticleScatter.cellWeights white10 = Some ws /\
    Forall (fun w => w = 0.02) ws /\
    0 < List.last (ParticleScatter.cumulative 0 ws) 0 /\
    ParticleScatter.generate white10 ∅ W H = Some out /\
    Gfx.prims out <> [] /\
    Forall (fun c => Gfx.radius c = 0.5 /\ 0.15 <= Gfx.radius c)
           (Gfx.prims out).
Proof.
  intros HW HH.
  destruct (white10_scatter W H HW HH)
    as (ws & c & rest & Ews & Htotal & Egen & Hall).
  exists ws, (Gfx.Painted (Js.Str "#000000") (c :: rest)).
  destruct white10_cellWeights as (ws' & Ews' & _ & Huni).
  assert (ws' = ws) as -> by congruence.
  refine (conj Ews (conj Huni (conj _ (conj Egen (conj _ _))))).
  - rewrite Htotal. lra.
  - discriminate.
  - cbn [Gfx.prims]. eapply Forall_impl; [exact Hall|].
    cbn beta. intros x (Hr & _). rewrite Hr. split; [reflexivity | lra].
Qed.

Lemma C9_witness :
  0 < 1000 /\
  exists out, ParticleScatter.generate white10 ∅ 1000 1000 = Some out /\
              Gfx.prims out <> [].
Proof.
  assert (HW : 0 < 1000) by lra.
  split; [exact HW|].
  destruct (C9_scatter_white_grid_not_empty 1000 1000 HW HW)
    as (ws & out & _ & _ & _ & Egen & Hne & _).
  exists out. split; assumption.
Defined.

End White.

(** ** The density cut *)

Section DensityCut.
Local Open Scope R_scope.
Import MathUtils Spec SvgSampler.

(** The static picture of Star Glint, cell by cell of its lattice. *)
Lemma glint_generate_cells sd p W H density maxScale sharpness jitter out :
  Js.num (Js.spread StarGlint.getDefaultParams p) "density"
    = Some density ->
  Js.num (Js.spread StarGlint.getDefaultParams p) "scale" = Some maxScale ->
  Js.num (Js.spread StarGlint.getDefaultParams p) "sharpness"
    = Some sharpness ->
  Js.num (Js.spread StarGlint.getDefaultParams p) "jitter" = Some jitter ->
  StarGlint.generate sd p W H = Some out ->
  let cols := Zfloor density in
  let cellW := W / IZR cols in
  let rows := Zfloor (H / cellW) in
  let cellGlyphs := fun r c =>
    match sampleBilinear (grid sd) (SvgSampler.cols sd) (SvgSampler.rows sd)
            (Js.latticeCoord (IZR cols) c) (Js.latticeCoord (IZR rows) r)
    with
    | Some b =>
        if Js.ltb (1 - b) 0.3 then []
        else StarGlint.glyph cols cellW maxScale sharpness jitter r c (1 - b)
    | None => []
    end in
  (cols <> 0%Z /\ W <> 0) /\
  (forall r c, (r < Z.to_nat rows)%nat -> (c < Z.to_nat cols)%nat ->
     is_Some (sampleBilinear (grid sd) (SvgSampler.cols sd)
                (SvgSampler.rows sd) (Js.latticeCoord (IZR cols) c)
                (Js.latticeCoord (IZR rows) r))) /\
  Gfx.prims out
  = flat_map (fun r => flat_map (cellGlyphs r) (seq 0 (Z.to_nat cols)))
      (seq 0 (Z.to_nat rows)).
Proof.
  intros Edensity Escale Esharp Ejitter Hgen cols cellW rows cellGlyphs.
  unfold StarGlint.generate in Hgen. cbv zeta in Hgen.
  rewrite Edensity, Ejitter, Escale, Esharp in Hgen.
  cbn [mbind option_bind] in Hgen.
  destruct (_ !! "color") as [color|]; [|discriminate].
  cbn [mbind option_bind] in Hgen.
  fold cols in Hgen.
  destruct (Js.div W _) as [cw|] eqn:Ecw; [|discriminate].
  apply div_inv in Ecw as [Hcols Ecw]. fold cellW in Ecw. subst cw.
  cbn [mbind option_bind] in Hgen.
  destruct (Js.div H _) as [quot|] eqn:Equot; [|discriminate].
  apply div_inv in Equot as [HcellW Equot]. subst quot. fold rows in Hgen.
  cbn [mbind option_bind] in Hgen.
  match type of Hgen with
  | ?loop ≫= _ = _ => destruct loop as [paths|] eqn:Eloop; [|discriminate]
  end.
  cbn [mbind option_bind] in Hgen. apply (inj Some) in Hgen. subst out.
  cbn [Gfx.prims].
  refine (conj (conj _ _) (conj _ _)).
  - intros E. apply Hcols. now rewrite E.
  - intros E. apply HcellW. unfold cellW. rewrite E. unfold Rdiv. ring.
  - intros r c Hr Hc.
    destruct (for_loop_passes _ _ _ Eloop r Hr) as [o Eo].
    destruct (for_loop_passes _ _ _ Eo c Hc) as [o' Eo'].
    destruct (sampleBilinear _ _ _ _ _); [eauto | discriminate].
  - rewrite (nested_loops_flat _ _ _ _ Eloop).
    apply flat_map_ext. intros r. apply flat_map_ext. intros c.
    unfold cellGlyphs.
    destruct (sampleBilinear _ _ _ _ _); [|reflexivity].
    cbn [mbind option_bind]. now destruct (Js.ltb _ 0.3).
Qed.

(** C3 (as amended). The static Star Glint emits exactly the glyphs of
    the cells of its own lattice ([floor density] columns of width
    [cellW = W / cols], [floor (H / cellW)] rows) whose sample point has
    darkness (1 minus the sampled brightness) at least 0.3, each drawn
    with the scale, sharpness and jitter of the call: no glyph comes from
    a cell under the threshold.  The static Particle Scatter makes no
    darkness cut: for a positive output size each of its circles lies
    inside the output rectangle and has radius at least 0.15. *)
Theorem C3_density_cut sd p W H :
  (forall density maxScale sharpness jitter out,
     Js.num (Js.spread StarGlint.getDefaultParams p) "density"
       = Some density ->
     Js.num (Js.spread StarGlint.getDefaultParams p) "scale"
       = Some maxScale ->
     Js.num (Js.spread StarGlint.getDefaultParams p) "sharpness"
       = Some sharpness ->
     Js.num (Js.spread StarGlint.getDefaultParams p) "jitter"
       = Some jitter ->
     StarGlint.generate sd p W H = Some out ->
     let lcols := Zfloor density in
     let cellW := W / IZR lcols in
     let lrows := Zfloor (H / cellW) in
     forall g, In g (Gfx.prims out) <->
       exists (r c : nat) b,
         (r < Z.to_nat lrows)%nat /\ (c < Z.to_nat lcols)%nat /\
         sampleBilinear (grid sd) (cols sd) (rows sd)
           (Js.latticeCoord (IZR lcols) c) (Js.latticeCoord (IZR lrows) r)
           = Some b /\
         0.3 <= 1 - b /\
         In g (StarGlint.glyph lcols cellW maxScale sharpness jitter r c
                 (1 - b))) /\
  (0 < W -> 0 < H -> forall out,
     ParticleScatter.generate sd p W H = Some out ->
     Forall (fun c => (0 <= Gfx.ccx c <= W /\ 0 <= Gfx.ccy c <= H) /\
                      0.15 <= Gfx.radius c) (Gfx.prims out)).
Proof.
  split.
  - intros density maxScale sharpness jitter out Ed Es Esh Ej Hgen
      lcols cellW lrows g.
    destruct (glint_generate_cells sd p W H density maxScale sharpness
                jitter out Ed Es Esh Ej Hgen) as (_ & _ & ->).
    fold lcols cellW lrows.
    rewrite in_flat_map_seq. split.
    + intros (r & Hr & Hg). apply in_flat_map_seq in Hg as (c & Hc & Hg).
      destruct (sampleBilinear _ _ _ _ _) as [b|] eqn:Eb; [|destruct Hg].
      destruct (Js.ltb (1 - b) 0.3) eqn:Ecut; [destruct Hg|].
      apply ltb_false in Ecut.
      exists r, c, b. rewrite Eb. auto.
    + intros (r & c & b & Hr & Hc & Eb & Hb & Hg).
      exists r. split; [exact Hr|].
      apply in_flat_map_seq. exists c. split; [exact Hc|].
      rewrite Eb. now rewrite (proj2 (ltb_false (1 - b) 0.3) Hb).
  - unfold ParticleScatter.generate. cbv zeta. intros _ _ out Hgen.
    repeat match type of Hgen with
      | (?m ≫= _) = Some _ =>
          let E := fresh "E" in
          destruct m eqn:E; [cbn [mbind option_bind] in Hgen|discriminate]
      end.
    destruct (Req_dec_T _ 0).
    + apply (inj Some) in Hgen. subst out. constructor.
    + match type of Hgen with
      | (?m ≫= _) = Some _ =>
          destruct m eqn:Ed; [cbn [mbind option_bind] in Hgen|discriminate]
      end.
      apply (inj Some) in Hgen. subst out. cbn [Gfx.prims].
      eapply dots_spec. exact Ed.
Qed.

(** C3 as stated fails for Particle Scatter: on the white 10 x 10 grid
    with default parameters and a 1000 x 1000 output it emits a circle
    whose centre samples brightness 1, that is darkness 0, below 0.3. *)
Lemma C3_counterexample :
  exists out c,
    ParticleScatter.generate white10 ∅ 1000 1000 = Some out /\
    In c (Gfx.prims out) /\
    sampleBilinear (grid white10) (cols white10) (rows white10)
      (Gfx.ccx c / 1000) (Gfx.ccy c / 1000) = Some 1 /\
    ~ 0.3 <= 1 - 1.
Proof.
  assert (HW : 0 < 1000) by lra.
  destruct (white10_scatter 1000 1000 HW HW)
    as (ws & c & rest & _ & _ & Egen & Hall).
  exists (Gfx.Painted (Js.Str "#000000") (c :: rest)), c.
  split; [exact Egen|]. split; [now left|]. split; [|lra].
  apply Forall_inv in Hall. destruct Hall as (_ & Hx & Hy).
  cbn [grid cols rows white10].
  destruct (sampleBilinear_unit (white 10 10) 10 10 (Gfx.ccx c / 1000)
              (Gfx.ccy c / 1000) (white_wf 10 10)) as [s Es];
    [lia | lia | lra | lra |].
  rewrite Es. f_equal. now apply white_sample in Es.
Qed.

Lemma C3_witness :
  (exists out,
     StarGlint.generate black1 ∅ 1000 1000 = Some out /\
     let lcols := Zfloor 80 in
     let cellW := 1000 / IZR lcols in
     let lrows := Zfloor (1000 / cellW) in
     forall g, In g (Gfx.prims out) <->
       exists (r c : nat) b,
         (r < Z.to_nat lrows)%nat /\ (c < Z.to_nat lcols)%nat /\
         sampleBilinear (grid black1) (cols black1) (rows black1)
           (Js.latticeCoord (IZR lcols) c) (Js.latticeCoord (IZR lrows) r)
           = Some b /\
         0.3 <= 1 - b /\
         In g (StarGlint.glyph lcols cellW 15 0.7 5 r c (1 - b))) /\
  (exists out,
     ParticleScatter.generate white10 ∅ 1000 1000 = Some out /\
     Forall (fun c => (0 <= Gfx.ccx c <= 1000 /\ 0 <= Gfx.ccy c <= 1000) /\
                      0.15 <= Gfx.radius c) (Gfx.prims out)).
Proof.
  assert (HW : 0 < 1000) by lra.
  split.
  - destruct (glint_generate_defaults black1 (single_wf 0) (le_n 1)
                (le_n 1) 1000 1000 HW HW) as [out Eout].
    exists out. split; [exact Eout|].
    apply (proj1 (C3_density_cut black1 ∅ 1000 1000) 80 15 0.7 5 out);
      try exact Eout;
      unfold Js.num; rewrite spread_lookup, lookup_empty; reflexivity.
  - destruct (white10_scatter 1000 1000 HW HW)
      as (ws & c & rest & _ & _ & Egen & _).
    eexists. split; [exact Egen|].
    exact (proj2 (C3_density_cut white10 ∅ 1000 1000) HW HW _ Egen).
Defined.

End DensityCut.

(** ** Static output against the frame at time zero *)

Section StoredLoops.

Context {B C : Type}.

(** A loop whose passes draw what another loop's passes store. *)
Lemma collect_draw {A} (body : A -> option (list B)) (f : B -> list C) l :
  Js.collect (fun i => body i ≫= fun o => Some (flat_map f o)) l
  = Js.collect body l ≫= fun out => Some (flat_map f out).
Proof.
  induction l as [|i l IH]; cbn [Js.collect]; [reflexivity|].
  rewrite IH. destruct (body i) as [o|]; [|reflexivity].
  cbn [mbind option_bind].
  destruct (Js.collect body l) as [rest|]; [|reflexivity].
  cbn [mbind option_bind]. now rewrite flat_map_app.
Qed.

Lemma for_loop_draw (body : nat -> option (list B)) (f : B -> list C) n :
  Js.for_loop n (fun i => body i ≫= fun o => Some (flat_map f o))
  = Js.for_loop n body ≫= fun out => Some (flat_map f out).
Proof. apply collect_draw. Qed.

Lemma collect_ext {A} (body body' : A -> option (list B)) l :
  (forall i, In i l -> body i = body' i) ->
  Js.collect body l = Js.collect body' l.
Proof.
  induction l as [|i l IH]; intros H; cbn [Js.collect]; [reflexivity|].
  rewrite (H i) by now left.
  rewrite IH by (intros; apply H; now right). reflexivity.
Qed.

Lemma for_loop_ext (body body' : nat -> option (list B)) n :
  (forall i, (i < n)%nat -> body i = body' i) ->
  Js.for_loop n body = Js.for_loop n body'.
Proof.
  intros H. apply collect_ext. intros i Hi.
  apply in_seq in Hi. apply H. lia.
Qed.

(** Drawing from an index loop over a stored list. *)
Lemma for_loop_stored (l : list B) (f : B -> list C)
    (body : nat -> option (list C)) :
  (forall i x, l !! i = Some x -> body i = Some (f x)) ->
  Js.for_loop (length l) body = Some (flat_map f l).
Proof.
  revert body. induction l as [|x l IH] using rev_ind; intros body H.
  - reflexivity.
  - rewrite length_app, Nat.add_1_r. unfold Js.for_loop.
    rewrite seq_S, Nat.add_0_l.
    assert (Happ : forall (b : nat -> option (list C)) l1 l2,
              Js.collect b (l1 ++ l2)
              = Js.collect b l1 ≫= fun o1 =>
                Js.collect b l2 ≫= fun o2 => Some (o1 ++ o2)).
    { intros b l1 l2. induction l1 as [|i l1 IH1]; cbn [Js.collect app].
      - cbn. destruct (Js.collect b l2); cbn; reflexivity.
      - rewrite IH1. destruct (b i); [|reflexivity]. cbn.
        destruct (Js.collect b l1); [|reflexivity]. cbn.
        destruct (Js.collect b l2); [|reflexivity]. cbn.
        now rewrite app_assoc. }
    rewrite Happ. fold (Js.for_loop (length l) body).
    rewrite (IH body).
    + cbn [mbind option_bind Js.collect].
      rewrite (H (length l) x).
      * cbn. rewrite flat_map_app. cbn. now rewrite !app_nil_r.
      * rewrite lookup_app_r by lia. now rewrite Nat.sub_diag.
    + intros i y Hi. apply H.
      rewrite lookup_app_l; [assumption|].
      now apply lookup_lt_Some in Hi.
Qed.

End StoredLoops.

Section TypedArrays.
Local Open Scope R_scope.

Lemma lookup_map {A B} (f : A -> B) (l : list A) i x :
  l !! i = Some x -> map f l !! i = Some (f x).
Proof.
  revert i. induction l as [|y l IH]; intros [|i] H; try discriminate.
  - cbn in *. congruence.
  - cbn in *. now apply IH.
Qed.

(** Reading back what was written to a typed array. *)
Lemma float32Array_read {B} n (f : B -> R) (l : list B) arr i x :
  Js.float32Array n (map f l) = Some arr -> l !! i = Some x ->
  arr !! i = Some (f x).
Proof.
  unfold Js.float32Array. destruct (n <? 0)%Z; [discriminate|].
  intros E Hi. apply (inj Some) in E. subst arr.
  rewrite lookup_app_l.
  - now apply lookup_map.
  - rewrite length_map. now apply lookup_lt_Some in Hi.
Qed.

End TypedArrays.

Section GlintAtZero.
Local Open Scope R_scope.
Import MathUtils Spec SvgSampler.

Lemma lattice_area_nonneg W H (n : Z) :
  0 < W -> 0 <= H -> n <> 0%Z -> (0 <= Zfloor (H / (W / IZR n)) * n)%Z.
Proof.
  intros HW HH Hn0.
  destruct (Z.lt_trichotomy n 0) as [Hn | [-> | Hn]]; [| lia |].
  - assert (IZR n < 0) by now apply (IZR_lt n 0).
    assert (/ IZR n < 0) by now apply Rinv_lt_0_compat.
    assert (Hc : W / IZR n < 0) by (unfold Rdiv; nra).
    assert (/ (W / IZR n) < 0) by now apply Rinv_lt_0_compat.
    assert (Hq : H / (W / IZR n) <= 0) by (unfold Rdiv at 1; nra).
    assert (Zfloor (H / (W / IZR n)) <= 0)%Z.
    { pose proof (Zfloor_bound (H / (W / IZR n))) as [Hb _].
      apply le_IZR. lra. }
    nia.
  - assert (0 < IZR n) by now apply (IZR_lt 0 n).
    assert (0 < / IZR n) by now apply Rinv_0_lt_compat.
    assert (Hc : 0 < W / IZR n) by (unfold Rdiv; nra).
    assert (0 < / (W / IZR n)) by now apply Rinv_0_lt_compat.
    assert (Hq : 0 <= H / (W / IZR n)) by (unfold Rdiv at 1; nra).
    assert (0 <= Zfloor (H / (W / IZR n)))%Z by now apply (Zfloor_lub 0).
    nia.
Qed.

(** A lattice loop that draws the cells it keeps, against the loop that
    stores them and a pass that draws what is stored. *)
Lemma lattice_draw {S P} (sample : nat -> nat -> option R)
    (g : nat -> nat -> R -> list P) (st : nat -> nat -> R -> S)
    (f : S -> list P) rows cols :
  (forall r c d, g r c d = f (st r c d)) ->
  Js.for_loop rows (fun r =>
    Js.for_loop cols (fun c =>
      sample r c ≫= fun b =>
      if Js.ltb (1 - b) 0.3 then Some [] else Some (g r c (1 - b))))
  = Js.for_loop rows (fun r =>
      Js.for_loop cols (fun c =>
        sample r c ≫= fun b =>
        if Js.geb (1 - b) 0.3 then Some [st r c (1 - b)] else Some []))
    ≫= fun stored => Some (flat_map f stored).
Proof.
  intros Hg. rewrite <- for_loop_draw.
  apply for_loop_ext. intros r _.
  rewrite <- for_loop_draw.
  apply for_loop_ext. intros c _.
  destruct (sample r c) as [b|]; [|reflexivity].
  cbn [mbind option_bind]. rewrite geb_ltb.
  destruct (Js.ltb (1 - b) 0.3); cbn [negb mbind option_bind flat_map];
    [reflexivity|].
  now rewrite Hg, app_nil_r.
Qed.

Lemma glint_frame_zero sd p W H :
  numeric_params p -> 0 < W -> 0 <= H ->
  StarGlint.generate sd p W H
  = StarGlintAnim.init sd p W H
    ≫= fun st => StarGlintAnim.drawFrame st 0.
Proof.
  intros Hp HW HH.
  unfold StarGlint.generate, StarGlintAnim.init. cbv zeta.
  change StarGlintAnim.getDefaultParams with StarGlint.getDefaultParams.
  unfold StarGlint.getDefaultParams.
  read_numeric Hp.
  match goal with
  | E1 : Js.num (Js.spread ?d p) "density" = Some ?density |- _ =>
      destruct (num_merged d p "speed" _ Hp eq_refl ltac:(discriminate)
                  ltac:(discriminate)) as [speed Espeed];
      set (merged := Js.spread d p) in *;
      set (cols := Zfloor density);
      destruct (Js.div W (IZR cols)) as [cellW|] eqn:EcellW;
        [|reflexivity]
  end.
  apply div_inv in EcellW as [Hcols EcellW].
  cbn [mbind option_bind].
  destruct (Js.div H cellW) as [quot|] eqn:Equot; [|reflexivity].
  apply div_inv in Equot as [HcellW Equot].
  cbn [mbind option_bind].
  set (rows := Zfloor quot).
  match goal with
  | E2 : Js.num _ "scale" = Some ?maxScale,
    E3 : Js.num _ "sharpness" = Some ?sharpness,
    E4 : Js.num _ "jitter" = Some ?jitter |- _ =>
      rewrite (lattice_draw _ _ (storedStar cols cellW jitter)
                 (drawStar maxScale sharpness speed cellW 0))
  end.
  2:{ intros r c d. unfold StarGlint.glyph, drawStar, storedStar.
      cbv zeta.
      cbn [StarGlintAnim.starX StarGlintAnim.starY StarGlintAnim.starD
           StarGlintAnim.starPhase].
      unfold StarGlint.minScale.
      match goal with
      | |- context [sin (0 * speed + ?ph)] =>
          replace (0 * speed + ph) with ph by ring
      end.
      reflexivity. }
  rewrite !bind_assoc. apply bind_ext. intros stars.
  cbn [mbind option_bind].
  assert (Harea : (0 <= rows * cols)%Z).
  { subst rows quot cellW. apply lattice_area_nonneg; [assumption..|].
    intros Ez. apply Hcols. now rewrite Ez. }
  repeat match goal with
    | |- context [Js.float32Array ?n ?l] =>
        let arr := fresh "arr" in
        let Ea := fresh "Ea" in
        destruct (float32Array_is_Some n l Harea) as [arr Ea];
        rewrite Ea; cbn [mbind option_bind]
    end.
  unfold StarGlintAnim.drawFrame.
  cbn [StarGlintAnim.params StarGlintAnim.count StarGlintAnim.sx
       StarGlintAnim.sy StarGlintAnim.sd StarGlintAnim.sPhase
       StarGlintAnim.cellW].
  fold merged.
  repeat match goal with
    | E : _ = Some _ |- _ => rewrite E
    end.
  cbn [mbind option_bind].
  erewrite for_loop_stored; [reflexivity|].
  intros i s Hi. cbn beta.
  repeat match goal with
    | Ea : Js.float32Array _ (map ?f stars) = Some ?arr |- _ =>
        rewrite (float32Array_read _ f stars arr i s Ea Hi);
        clear Ea
    end.
  cbn [mbind option_bind]. unfold drawStar. cbv zeta.
  match goal with
  | |- context [if ?b then _ else _] => destruct b
  end; reflexivity.
Qed.

End GlintAtZero.

Section ScatterAtZero.
Local Open Scope R_scope.
Import MathUtils Spec SvgSampler.

Lemma dots_particles sd weights tw cw ch W H scatter rmin rmax speed n :
  forall s,
  ParticleScatter.dots sd weights tw cw ch W H scatter rmin rmax n s
  = ParticleScatterAnim.particles
      (ParticleScatter.place sd weights tw cw ch W H scatter rmin rmax) n s
    ≫= fun ps => Some (flat_map (drawParticle rmin speed 0) ps).
Proof.
  induction n as [|n IH]; intros s;
    cbn [ParticleScatter.dots ParticleScatterAnim.particles];
    [reflexivity|].
  destruct (ParticleScatter.place sd weights tw cw ch W H scatter rmin rmax
              s) as [[s' placed]|]; [|reflexivity].
  cbn [mbind option_bind].
  destruct placed as [[[px py] baseR]|]; [|apply IH].
  unfold rand. cbv zeta. rewrite IH.
  destruct (ParticleScatterAnim.particles _ n _) as [ps|];
    cbn [mbind option_bind flat_map].
  - generalize (flat_map (drawParticle rmin speed 0) ps). intros rest.
    unfold drawParticle. cbv zeta.
    cbn [ParticleScatterAnim.x ParticleScatterAnim.y
         ParticleScatterAnim.baseR ParticleScatterAnim.phase].
    match goal with
    | |- context [sin (0 * speed + ?ph)] =>
        replace (0 * speed + ph) with ph by ring
    end.
    match goal with
    | |- context [if ?b then _ else _] => destruct b
    end; reflexivity.
  - match goal with
    | |- context [if ?b then _ else _] => destruct b
    end; reflexivity.
Qed.

Lemma cumulative_grows ws : forall acc d,
  Forall (fun w => 0 < w) ws -> ws <> [] ->
  acc < List.last (ParticleScatter.cumulative acc ws) d.
Proof.
  induction ws as [|w ws IH]; intros acc d Hpos Hne; [contradiction|].
  apply Forall_cons_1 in Hpos as [Hw Hpos].
  cbn [ParticleScatter.cumulative].
  destruct ws as [|w' ws].
  - cbn. lra.
  - change (List.last (?a :: ParticleScatter.cumulative ?b (w' :: ws)) d)
      with (List.last (ParticleScatter.cumulative b (w' :: ws)) d).
    specialize (IH (acc + w) d Hpos ltac:(discriminate)). lra.
Qed.

Lemma pow_nonneg x y : 0 <= Js.pow x y.
Proof.
  unfold Js.pow. destruct (Rlt_dec 0 x); [|lra].
  unfold Rpower. left. apply exp_pos.
Qed.

Lemma cellWeights_total sd ws :
  (1 <= cols sd)%nat -> (1 <= rows sd)%nat ->
  ParticleScatter.cellWeights sd = Some ws ->
  List.last (ParticleScatter.cumulative 0 ws) 0 <> 0.
Proof.
  intros Hc Hr Ews.
  assert (Hpos : Forall (fun w => 0 < w) ws).
  { apply Stdlib.Lists.List.Forall_forall. intros w Hw.
    unfold ParticleScatter.cellWeights in Ews.
    destruct (for_loop_In _ _ _ _ Ews Hw) as (r & row & _ & Erow & Hrow).
    destruct (for_loop_In _ _ _ _ Erow Hrow) as (c & o & _ & Eo & Ho).
    destruct (grid sd !! r) as [gr|]; [|discriminate].
    cbn [mbind option_bind] in Eo.
    destruct (gr !! c) as [g|]; [|discriminate].
    cbn [mbind option_bind] in Eo. apply (inj Some) in Eo. subst o.
    destruct Ho as [<- | []].
    pose proof (pow_nonneg (1 - g) ParticleScatter.densityPower). lra. }
  assert (Hne : ws <> []).
  { unfold ParticleScatter.cellWeights, Js.for_loop in Ews.
    destruct (rows sd) as [|nr]; [lia|]. destruct (cols sd) as [|nc]; [lia|].
    cbn [seq Js.collect] in Ews.
    destruct (grid sd !! 0%nat) as [gr|]; [|discriminate].
    cbn [mbind option_bind] in Ews.
    destruct (gr !! 0%nat) as [g|]; [|discriminate].
    cbn [mbind option_bind] in Ews.
    destruct (Js.collect _ (seq 1 nc)); [|discriminate].
    cbn [mbind option_bind] in Ews.
    destruct (Js.collect _ (seq 1 nr)); [|discriminate].
    cbn [mbind option_bind app] in Ews.
    apply (inj Some) in Ews. subst ws. discriminate. }
  pose proof (cumulative_grows ws 0 0 Hpos Hne). lra.
Qed.

Lemma num_agree (d d' p : gmap string Js.value) k :
  d !! k = d' !! k -> Js.num (Js.spread d p) k = Js.num (Js.spread d' p) k.
Proof. intros E. unfold Js.num. now rewrite !spread_lookup, E. Qed.

Lemma lookup_agree (d d' p : gmap string Js.value) k :
  d !! k = d' !! k -> Js.spread d p !! k = Js.spread d' p !! k.
Proof. intros E. now rewrite !spread_lookup, E. Qed.

Lemma scatter_frame_zero sd p W H :
  numeric_params p -> (1 <= cols sd)%nat -> (1 <= rows sd)%nat ->
  ParticleScatter.generate sd p W H
  = ParticleScatterAnim.init sd p W H
    ≫= fun st => ParticleScatterAnim.drawFrame st 0.
Proof.
  intros Hp Hc Hr.
  unfold ParticleScatter.generate, ParticleScatterAnim.init. cbv zeta.
  rewrite (num_agree ParticleScatter.getDefaultParams
             ParticleScatterAnim.getDefaultParams p "maxDots" eq_refl).
  rewrite (num_agree ParticleScatter.getDefaultParams
             ParticleScatterAnim.getDefaultParams p "maxRadius" eq_refl).
  rewrite (num_agree ParticleScatter.getDefaultParams
             ParticleScatterAnim.getDefaultParams p "minRadius" eq_refl).
  rewrite (num_agree ParticleScatter.getDefaultParams
             ParticleScatterAnim.getDefaultParams p "seed" eq_refl).
  rewrite (num_agree ParticleScatter.getDefaultParams
             ParticleScatterAnim.getDefaultParams p "scatter" eq_refl).
  rewrite (lookup_agree ParticleScatter.getDefaultParams
             ParticleScatterAnim.getDefaultParams p "color" eq_refl).
  unfold ParticleScatterAnim.getDefaultParams.
  read_numeric Hp.
  match goal with
  | E : Js.num (Js.spread ?d p) "maxDots" = Some _ |- _ =>
      destruct (num_merged d p "speed" _ Hp eq_refl ltac:(discriminate)
                  ltac:(discriminate)) as [speed Espeed];
      set (merged := Js.spread d p) in *
  end.
  destruct (ParticleScatter.cellWeights sd) as [ws|] eqn:Ews;
    [|reflexivity].
  cbn [mbind option_bind].
  destruct (Req_dec_T _ 0) as [Ezero|_];
    [now apply (cellWeights_total sd ws Hc Hr Ews) in Ezero|].
  rewrite (dots_particles _ _ _ _ _ _ _ _ _ _ speed).
  rewrite !bind_assoc. apply bind_ext. intros ps.
  cbn [mbind option_bind].
  repeat match goal with
    | |- context [Js.float32Array ?n ?l] =>
        let arr := fresh "arr" in
        let Ea := fresh "Ea" in
        destruct (float32Array_is_Some n l ltac:(lia)) as [arr Ea];
        rewrite Ea; cbn [mbind option_bind]
    end.
  unfold ParticleScatterAnim.drawFrame.
  cbn [ParticleScatterAnim.params ParticleScatterAnim.count
       ParticleScatterAnim.px ParticleScatterAnim.py
       ParticleScatterAnim.pr ParticleScatterAnim.ph].
  fold merged.
  repeat match goal with
    | E : _ = Some _ |- _ => rewrite E
    end.
  cbn [mbind option_bind].
  erewrite for_loop_stored; [reflexivity|].
  intros i q Hi. cbn beta.
  repeat match goal with
    | Ea : Js.float32Array _ (map ?f ps) = Some ?arr |- _ =>
        rewrite (float32Array_read _ f ps arr i q Ea Hi);
        clear Ea
    end.
  cbn [mbind option_bind]. unfold drawParticle. cbv zeta.
  match goal with
  | |- context [if ?b then _ else _] => destruct b
  end; reflexivity.
Qed.

End ScatterAtZero.

Section HalftoneSegments.
Local Open Scope R_scope.
Import MathUtils Spec SvgSampler.

Lemma map_flat_map {A B C} (h : B -> C) (f : A -> list B) l :
  map h (flat_map f l) = flat_map (fun x => map h (f x)) l.
Proof.
  induction l as [|x l IH]; cbn [flat_map map]; [reflexivity|].
  now rewrite map_app, IH.
Qed.

Lemma map_as_flat_map {A B} (h : A -> B) l :
  map h l = flat_map (fun x => [h x]) l.
Proof.
  induction l as [|x l IH]; cbn [map flat_map app]; [reflexivity|].
  now rewrite IH.
Qed.

(** Two nested loops, one drawing what the other stores. *)
Lemma loops_related {S P} (bodyG : nat -> nat -> option (list P))
    (bodyS : nat -> nat -> option (list S)) (f : S -> list P) rows cols :
  (forall r c, bodyG r c = bodyS r c ≫= fun o => Some (flat_map f o)) ->
  Js.for_loop rows (fun r => Js.for_loop cols (bodyG r))
  = Js.for_loop rows (fun r => Js.for_loop cols (bodyS r))
    ≫= fun stored => Some (flat_map f stored).
Proof.
  intros Hb. rewrite <- for_loop_draw. apply for_loop_ext. intros r _.
  rewrite <- for_loop_draw. apply for_loop_ext. intros c _. apply Hb.
Qed.

(** Two nested loops compared through what the first draws, mapped,
    and what is drawn from the store of the second. *)
Lemma stored_then_drawn {S P Q T} (bodyG : nat -> nat -> option (list P))
    (bodyS : nat -> nat -> option (list S)) (h : P -> Q) (f : S -> list Q)
    (wrap : list Q -> T) (k : list S -> option T) rows cols :
  (forall r c, bodyG r c ≫= (fun o => Some (map h o))
               = bodyS r c ≫= (fun o => Some (flat_map f o))) ->
  (forall st, k st = Some (wrap (flat_map f st))) ->
  Js.for_loop rows (fun r => Js.for_loop cols (bodyG r))
    ≫= (fun out => Some (wrap (map h out)))
  = Js.for_loop rows (fun r => Js.for_loop cols (bodyS r)) ≫= k.
Proof.
  intros Hb Hk.
  assert (E : Js.for_loop rows (fun r => Js.for_loop cols (bodyG r))
              ≫= (fun out => Some (map h out))
              = Js.for_loop rows (fun r => Js.for_loop cols (bodyS r))
                ≫= (fun st => Some (flat_map f st))).
  { rewrite <- (for_loop_draw _ f _).
    erewrite (bind_ext _ (fun out => Some (map h out)));
      [|intros out; rewrite map_as_flat_map; reflexivity].
    rewrite <- (for_loop_draw _ (fun x => [h x]) _).
    apply for_loop_ext. intros r _.
    rewrite <- (for_loop_draw _ f _), <- (for_loop_draw _ (fun x => [h x]) _).
    apply for_loop_ext. intros c _.
    rewrite <- Hb. apply bind_ext. intros o.
    now rewrite map_as_flat_map. }
  destruct (Js.for_loop rows (fun r => Js.for_loop cols (bodyG r)))
    as [out|];
    destruct (Js.for_loop rows (fun r => Js.for_loop cols (bodyS r)))
    as [st|]; cbn [mbind option_bind] in *; try discriminate.
  - rewrite Hk. apply (inj Some) in E. now rewrite E.
  - reflexivity.
Qed.

Lemma fmap_bind {A B C} (F : B -> C) (m : option A) (k : A -> option B) :
  F <$> (m ≫= k) = m ≫= fun x => F <$> k x.
Proof. destruct m; reflexivity. Qed.

Lemma halftone_u_lattice c :
  INR c / (INR LineHalftone.stepsPerLine - 1)
  = Js.latticeCoord (INR 300) c.
Proof.
  unfold Js.latticeCoord, LineHalftone.stepsPerLine.
  rewrite (proj2 (ltb_true 1 (INR 300))); [reflexivity|].
  apply (lt_INR 1). lia.
Qed.

Lemma halftone_segments sd p W H t :
  numeric_params p ->
  (forall d, p !! "density" = Some (Js.Num d) -> 0 <= d) ->
  (fun out => map Gfx.seg (Gfx.prims out))
    <$> LineHalftone.generate sd p W H
  = (fun out => map Gfx.seg (Gfx.prims out))
    <$> (LineHalftoneAnim.init sd p W H
         ≫= fun st => LineHalftoneAnim.drawFrame st t).
Proof.
  intros Hp Hdensity.
  unfold LineHalftone.generate, LineHalftoneAnim.init. cbv zeta.
  change LineHalftoneAnim.getDefaultParams
    with LineHalftone.getDefaultParams.
  unfold LineHalftone.getDefaultParams.
  read_numeric Hp.
  match goal with
  | E1 : Js.num (Js.spread ?d p) "density" = Some ?density,
    E2 : Js.num _ "contrast" = Some ?contrast,
    E3 : Js.num _ "pulse" = Some ?pulse |- _ =>
      destruct (num_merged d p "speed" _ Hp eq_refl ltac:(discriminate)
                  ltac:(discriminate)) as [speed Espeed];
      assert (Hd0 : 0 <= density);
      [ revert E1; unfold Js.num; rewrite spread_lookup;
        destruct (p !! "density") as [[d'| |s']|] eqn:Epd;
        try discriminate;
        [ intros E1; apply (inj Some) in E1; subst; now apply Hdensity
        | intros E1; apply (inj Some) in E1; subst; lra ]
      | set (merged := Js.spread d p) in *;
        set (rows := Zfloor density);
        set (cellH := H / IZR rows);
        set (stepW := W / INR LineHalftone.stepsPerLine) ]
  end.
  rewrite !fmap_bind, !bind_assoc.
  cbn [fmap option_fmap option_map Gfx.prims].
  apply (stored_then_drawn _ _ Gfx.seg (fun q => [pieceSegment stepW q])
           (fun segs => segs)).
  - intros r c. rewrite halftone_u_lattice.
    destruct (sampleBilinear _ _ _ _ _) as [b|]; [|reflexivity].
    cbn [mbind option_bind]. rewrite geb_ltb.
    destruct (Js.ltb (1 - b) 0.3); reflexivity.
  - intros pieces.
    assert (Harea : (0 <= rows * Z.of_nat 300)%Z).
    { assert (0 <= rows)%Z by now apply (Zfloor_lub 0). lia. }
    repeat match goal with
      | |- context [Js.float32Array ?n ?l] =>
          let arr := fresh "arr" in
          let Ea := fresh "Ea" in
          destruct (float32Array_is_Some n l Harea) as [arr Ea];
          rewrite Ea; cbn [mbind option_bind]
      end.
    unfold LineHalftoneAnim.drawFrame.
    cbn [LineHalftoneAnim.params LineHalftoneAnim.count
         LineHalftoneAnim.sx LineHalftoneAnim.sy LineHalftoneAnim.sd
         LineHalftoneAnim.cellH LineHalftoneAnim.stepW
         LineHalftoneAnim.outputWidth].
    fold merged.
    repeat match goal with
      | E : _ = Some _ |- _ => rewrite E
      end.
    cbn [mbind option_bind].
    erewrite (for_loop_stored pieces
                (fun q => [Gfx.Stroke (pieceSegment stepW q) _])).
    + cbn [mbind option_bind fmap option_fmap option_map Gfx.prims]. f_equal.
      rewrite map_flat_map. reflexivity.
    + intros i q Hi. cbn beta.
      repeat match goal with
        | Ea : Js.float32Array _ (map ?f pieces) = Some ?arr |- _ =>
            rewrite (float32Array_read _ f pieces arr i q Ea Hi);
            clear Ea
        end.
      cbn [mbind option_bind]. unfold pieceSegment. reflexivity.
Qed.

End HalftoneSegments.

Section Disagreement.
Local Open Scope R_scope.
Import MathUtils Spec SvgSampler.

Lemma vertical_static_white1 :
  VerticalLines.generate white1 ∅ 100 8
  = Some (Gfx.StrokedPath [] (Js.Str "#000000") 2.25).
Proof.
  unfold VerticalLines.generate. cbv zeta.
  unfold Js.num, Js.nullish. rewrite !spread_lookup. unfold_defaults.
  read_literal. rewrite !lookup_empty.
  cbn [mbind option_bind aspect white1 grid cols rows INR].
  replace (Js.passes 1) with 1%nat
    by (symmetry; apply (passes_IZR 1)).
  cbn [Js.for_loop Js.collect seq].
  rewrite sampleBilinear_single. cbn [mbind option_bind].
  unfold lerp. decide_tests.
  cbn [mbind option_bind app]. repeat f_equal; lra.
Qed.

Lemma vertical_frame_white1 :
  VerticalLinesAnim.init white1 ∅ 100 8
    ≫= (fun st => VerticalLinesAnim.drawFrame st 0)
  = Some (Gfx.Painted (Js.Str "#000000")
            [Gfx.Stroke (Gfx.Segment 50 3.8 50 4.2) 2.25]).
Proof.
  unfold VerticalLinesAnim.init. cbv zeta.
  unfold Js.num, Js.nullish. rewrite !spread_lookup. unfold_defaults.
  read_literal. rewrite !lookup_empty.
  cbn [mbind option_bind aspect white1 grid cols rows INR].
  replace (Js.passes 1) with 1%nat
    by (symmetry; apply (passes_IZR 1)).
  cbn [Js.for_loop Js.collect seq Js.foldM VerticalLinesAnim.init_column].
  rewrite sampleBilinear_single. cbn [mbind option_bind].
  unfold lerp. decide_tests.
  cbn [mbind option_bind app length Nat.div].
  change ((Nat.divmod 2 1 0 1).1) with 1%nat.
  unfold VerticalLinesAnim.drawFrame.
  cbn [VerticalLinesAnim.params VerticalLinesAnim.cols
       VerticalLinesAnim.colMeta VerticalLinesAnim.segData
       VerticalLinesAnim.cellW].
  unfold Js.num. rewrite !spread_lookup. read_literal.
  rewrite !lookup_empty.
  cbn [mbind option_bind Js.for_loop Js.collect seq lookup list_lookup
       VerticalLinesAnim.segCount VerticalLinesAnim.segOffset
       VerticalLinesAnim.cx Nat.eqb Nat.add Nat.mul app].
  replace (0 * 1.5 - INR 0 * 0.10) with 0 by (cbn [INR]; ring).
  rewrite sin_0. unfold lerp. cbn [INR]. decide_tests.
  repeat f_equal; lra.
Qed.

Lemma ellipse_static_black1 :
  EllipseGrid.generate black1 oneCol 1000 1000
  = Some (Gfx.Painted (Js.Str "#000000") [Gfx.Ellipse 500 500 7.2 18]).
Proof.
  unfold EllipseGrid.generate, oneCol. cbv zeta.
  unfold Js.num. rewrite !spread_lookup. unfold_defaults. read_literal.
  cbn [mbind option_bind aspect black1 grid cols rows].
  replace (Js.round (1 / 1)) with 1%Z
    by (symmetry; apply Zfloor_eq; lra).
  change (Z.max 1 1) with 1%Z. change (Z.to_nat 1) with 1%nat.
  rewrite passes_IZR. change (Z.to_nat 1) with 1%nat.
  cbn [Js.for_loop Js.collect seq].
  rewrite sampleBilinear_single. cbn [mbind option_bind].
  rewrite ellipse_skip_test_dead. cbn [mbind option_bind app].
  unfold lerp. cbn [INR]. decide_tests.
  repeat f_equal; lra.
Qed.

Lemma ellipse_frame_black1 :
  EllipseGridAnim.init black1 oneCol 1000 1000
    ≫= (fun st => EllipseGridAnim.drawFrame st 0)
  = Some (Gfx.Painted (Js.Str "#000000")
            [Gfx.Ellipse 500 500 5.4 13.5]).
Proof.
  unfold EllipseGridAnim.init, oneCol. cbv zeta.
  unfold Js.num. rewrite !spread_lookup. unfold_defaults. read_literal.
  cbn [mbind option_bind aspect black1 grid cols rows].
  cbn [INR].
  replace (Js.round (1 / (1 / 1))) with 1%Z
    by (symmetry; apply Zfloor_eq; lra).
  change (Z.max 1 1) with 1%Z. change (Z.to_nat 1) with 1%nat.
  rewrite passes_IZR. change (Z.to_nat 1) with 1%nat.
  cbn [Js.for_loop Js.collect seq].
  rewrite sampleBilinear_single. cbn [mbind option_bind app].
  unfold EllipseGridAnim.drawFrame.
  cbn [EllipseGridAnim.params EllipseGridAnim.cols EllipseGridAnim.rows
       EllipseGridAnim.cellData].
  unfold Js.num. rewrite !spread_lookup. read_literal.
  cbn [mbind option_bind].
  change (Z.max 1 1) with 1%Z.
  replace (1 * 1) with (IZR 1) by ring.
  rewrite passes_IZR. change (Z.to_nat 1) with 1%nat.
  cbn [Js.for_loop Js.collect seq Nat.mul Nat.add lookup list_lookup
       mbind option_bind].
  replace (0 * 2 + (INR 0 + INR 0) * 0.35) with 0 by (cbn [INR]; ring).
  rewrite sin_0. unfold lerp. cbn [INR]. decide_tests.
  cbn [mbind option_bind app]. repeat f_equal; lra.
Qed.

Lemma numeric_params_empty : numeric_params ∅.
Proof. intros k v E. rewrite lookup_empty in E. discriminate. Qed.

End Disagreement.

Section AtTimeZero.
Local Open Scope R_scope.
Import MathUtils Spec SvgSampler.




End AtTimeZero.

(* ================================================================== *)
(** * Part III: further properties of the code *)
(* ================================================================== *)

(** ** The cycle of the seeded generator *)

Section MulberryCycle.
Local Open Scope Z_scope.
Import Int32.

Lemma toInt32_toUint32 z : toInt32 (toUint32 z) = toInt32 z.
Proof.
  unfold toInt32, toUint32, two31, two32.
  rewrite Zplus_mod_idemp_l. reflexivity.
Qed.

Lemma toInt32_small z : - two31 <= z < two31 -> toInt32 z = z.
Proof.
  unfold toInt32, two31, two32. intros H.
  rewrite Z.mod_small; lia.
Qed.

(** Two 32-bit integers with the same unsigned view are equal. *)
Lemma toUint32_inj a b :
  - two31 <= a < two31 -> - two31 <= b < two31 ->
  toUint32 a = toUint32 b -> a = b.
Proof.
  intros Ha Hb E.
  rewrite <- (toInt32_small a Ha), <- (toInt32_small b Hb).
  rewrite <- (toInt32_toUint32 a), <- (toInt32_toUint32 b).
  now rewrite E.
Qed.

Lemma bor_0_range z : - two31 <= bor z 0 < two31.
Proof.
  unfold bor. change (toInt32 0) with 0. rewrite Z.lor_0_r.
  apply toInt32_range.
Qed.

Lemma state_after_range n seed :
  - two31 <= MathUtils.state_after n (MathUtils.mulberry32 seed) < two31.
Proof.
  unfold MathUtils.mulberry32.
  assert (H : forall s, - two31 <= s < two31 ->
                        - two31 <= MathUtils.state_after n s < two31).
  { induction n as [|n IH]; intros s Hs; cbn [MathUtils.state_after].
    - exact Hs.
    - apply IH. unfold MathUtils.next. cbv zeta. cbn [fst].
      apply bor_0_range. }
  apply H, bor_0_range.
Qed.

Lemma recipe_state_after n : forall s,
  Recipe.state_after n (toUint32 s)
  = toUint32 (s + Z.of_nat n * 1831565813).
Proof.
  induction n as [|n IH]; intros s; cbn [Recipe.state_after].
  - f_equal. lia.
  - unfold Recipe.step. cbv zeta. cbn [fst].
    change Recipe.wrap with toUint32.
    rewrite toUint32_const_small by (unfold two32; lia).
    rewrite IH. f_equal. lia.
Qed.

Lemma seed_view seed :
  toUint32 (MathUtils.mulberry32 seed) = toUint32 seed.
Proof.
  unfold MathUtils.mulberry32. rewrite toUint32_bor.
  change (toUint32 0) with 0. now rewrite Z.lor_0_r.
Qed.

Lemma state_after_closed n seed :
  toUint32 (MathUtils.state_after n (MathUtils.mulberry32 seed))
  = toUint32 (seed + Z.of_nat n * 1831565813).
Proof.
  rewrite state_after_step, seed_view. apply recipe_state_after.
Qed.

Lemma odd_step_divides d :
  (two32 | d * 1831565813) -> (two32 | d).
Proof.
  intros H. apply Z.gauss with (m := 1831565813).
  - now rewrite Z.mul_comm.
  - reflexivity.
Qed.

(** X1. The state of the generator after [n] calls is the 32-bit integer
    congruent to [seed + n * 0x6D2B79F5]; as the increment is odd, two
    numbers of calls give the same state exactly when they differ by a
    multiple of 2^32; and the stream of a seed depends only on the seed
    modulo 2^32. *)
Theorem mulberry32_cycle (seed : Z) (i j : nat) :
  MathUtils.state_after i (MathUtils.mulberry32 seed)
    = toInt32 (seed + Z.of_nat i * 1831565813) /\
  (MathUtils.state_after i (MathUtils.mulberry32 seed)
     = MathUtils.state_after j (MathUtils.mulberry32 seed)
   <-> (two32 | Z.of_nat i - Z.of_nat j)) /\
  ((two32 | Z.of_nat i - Z.of_nat j) ->
   MathUtils.output_bits seed i = MathUtils.output_bits seed j) /\
  (forall seed', (two32 | seed - seed') ->
   MathUtils.output_bits seed i = MathUtils.output_bits seed' i).
Proof.
  assert (Hiff : forall a b, toUint32 a = toUint32 b <-> (two32 | a - b)).
  { intros a b. unfold toUint32. split; intros H.
    - apply Z.mod_divide; [unfold two32; lia|].
      rewrite Zminus_mod, H, Z.sub_diag. reflexivity.
    - apply Z.mod_divide in H; [|unfold two32; lia].
      rewrite <- (Z.sub_add b a) at 1.
      rewrite Zplus_mod, H, Z.add_0_l, Z.mod_mod; [reflexivity|].
      unfold two32; lia. }
  assert (Hstates :
    MathUtils.state_after i (MathUtils.mulberry32 seed)
      = MathUtils.state_after j (MathUtils.mulberry32 seed)
    <-> (two32 | Z.of_nat i - Z.of_nat j)).
  { split.
    - intros E. apply (f_equal toUint32) in E.
      rewrite !state_after_closed in E. apply Hiff in E.
      apply odd_step_divides.
      replace ((Z.of_nat i - Z.of_nat j) * 1831565813)
        with (seed + Z.of_nat i * 1831565813
              - (seed + Z.of_nat j * 1831565813)) by ring.
      exact E.
    - intros [k Hk]. apply toUint32_inj; try apply state_after_range.
      rewrite !state_after_closed. apply Hiff.
      exists (k * 1831565813).
      replace (seed + Z.of_nat i * 1831565813
               - (seed + Z.of_nat j * 1831565813))
        with ((Z.of_nat i - Z.of_nat j) * 1831565813) by ring.
      rewrite Hk. ring. }
  refine (conj _ (conj Hstates (conj _ _))).
  - rewrite <- toInt32_toUint32, <- state_after_closed, toInt32_toUint32.
    symmetry. apply toInt32_small, state_after_range.
  - intros H. unfold MathUtils.output_bits.
    now rewrite (proj2 Hstates H).
  - intros seed' H. unfold MathUtils.output_bits.
    rewrite (proj2 (next_step _)), (proj2 (next_step
      (MathUtils.state_after i (MathUtils.mulberry32 seed')))).
    rewrite !state_after_closed. do 2 f_equal. apply Hiff.
    destruct H as [k Hk]. exists k.
    replace (seed + Z.of_nat i * 1831565813
             - (seed' + Z.of_nat i * 1831565813))
      with (seed - seed') by ring.
    exact Hk.
Qed.

End MulberryCycle.

(** ** Interpolation, clamping and range mapping *)

Section Interpolation.
Local Open Scope R_scope.
Import MathUtils.

(** X2. [clamp] brings a value into [[lo, hi]] and leaves the values of that
    interval alone, so clamping twice is clamping once; called with the
    bounds reversed it returns [hi] whatever the value. *)
Theorem clamp_range_and_fixed_points val lo hi :
  (lo <= hi -> lo <= clamp val lo hi <= hi) /\
  (lo <= val <= hi -> clamp val lo hi = val) /\
  (val <= lo <= hi -> clamp val lo hi = lo) /\
  (lo <= hi <= val -> clamp val lo hi = hi) /\
  (hi < lo -> clamp val lo hi = hi) /\
  clamp (clamp val lo hi) lo hi = clamp val lo hi.
Proof.
  unfold clamp.
  refine (conj _ (conj _ (conj _ (conj _ (conj _ _))))); intros;
    unfold Rmin, Rmax;
    repeat match goal with
      | |- context [Rle_dec ?a ?b] => destruct (Rle_dec a b)
      | H : context [Rle_dec ?a ?b] |- _ => destruct (Rle_dec a b)
      end; lra.
Qed.

Lemma lerp_between a b t :
  0 <= t <= 1 -> Rmin a b <= lerp a b t <= Rmax a b.
Proof.
  intros Ht. unfold lerp.
  unfold Rmin, Rmax. destruct (Rle_dec a b); nra.
Qed.

(** X3. [lerp] starts at [a], ends at [b], stays between the two for a
    parameter in [[0, 1]]; [map] undoes it: mapping the range [[a, b]]
    onto [[c, d]] sends [lerp a b t] to [lerp c d t], hence [a] to [c]
    and [b] to [d], and mapping back returns the value. *)
Theorem map_inverts_lerp a b c d :
  a <> b ->
  (forall t, lerp a b 0 = a /\ lerp a b 1 = b /\
     (0 <= t <= 1 -> Rmin a b <= lerp a b t <= Rmax a b)) /\
  (forall t, MathMap.map (lerp a b t) a b c d = lerp c d t) /\
  MathMap.map a a b c d = c /\ MathMap.map b a b c d = d /\
  (forall v, c <> d ->
     MathMap.map (MathMap.map v a b c d) c d a b = v).
Proof.
  intros Hab. unfold MathMap.map, lerp.
  refine (conj _ (conj _ (conj _ (conj _ _)))).
  - intros t. refine (conj _ (conj _ _)); [ring | ring |].
    apply lerp_between.
  - intros t. field. lra.
  - field. lra.
  - field. lra.
  - intros v Hcd. field. lra.
Qed.

Lemma map_inverts_lerp_witness :
  MathMap.map (lerp 0 10 0.25) 0 10 100 200 = lerp 100 200 0.25.
Proof.
  apply (proj1 (proj2 (map_inverts_lerp 0 10 100 200 ltac:(lra)))).
Defined.

End Interpolation.

(** ** Bilinear sampling of transformed and of linear grids *)

Section BilinearAlgebra.
Local Open Scope R_scope.
Import MathUtils Spec.

Lemma cell_map (f : R -> R) grid r c :
  cell (map (map f) grid) r c = f <$> cell grid r c.
Proof.
  unfold cell. destruct ((r <? 0)%Z || (c <? 0)%Z); [reflexivity|].
  change (map (map f) grid) with (map f <$> grid).
  rewrite list_lookup_fmap.
  destruct (grid !! Z.to_nat r) as [row|]; [|reflexivity].
  cbn [fmap option_fmap option_map mbind option_bind].
  change (map f row) with (f <$> row).
  now rewrite list_lookup_fmap.
Qed.

(** X4. Sampling commutes with an affine change of the brightness values,
    whether or not the reads are in range: the sample of the grid of
    values [k * g + m] is [k * s + m].  With [k = -1], [m = 1]: the
    darkness an effect computes from a sample is the sample of the
    darkness grid. *)
Theorem sampleBilinear_affine_values grid cols rows u v k m :
  sampleBilinear (map (map (fun g => k * g + m)) grid) cols rows u v
    = (fun s => k * s + m) <$> sampleBilinear grid cols rows u v /\
  sampleBilinear (map (map (fun g => 1 - g)) grid) cols rows u v
    = (fun s => 1 - s) <$> sampleBilinear grid cols rows u v.
Proof.
  assert (H : forall f a b,
    (forall g, f g = a * g + b) ->
    sampleBilinear (map (map f) grid) cols rows u v
    = f <$> sampleBilinear grid cols rows u v).
  { intros f a b Hf. unfold sampleBilinear.
    destruct (axis cols u) as [[x0 x1] fx].
    destruct (axis rows v) as [[y0 y1] fy].
    rewrite !cell_map.
    destruct (cell grid y0 x0) as [g00|]; [|reflexivity].
    destruct (cell grid y0 x1) as [g01|]; [|reflexivity].
    destruct (cell grid y1 x0) as [g10|]; [|reflexivity].
    destruct (cell grid y1 x1) as [g11|]; [|reflexivity].
    cbn [fmap option_fmap option_map mbind option_bind].
    f_equal. rewrite !Hf. ring. }
  split.
  - apply (H _ k m). reflexivity.
  - apply (H _ (-1) 1). intros g. ring.
Qed.

(** X5. Sampling is exact on linear gradients: on a grid whose cell
    [(r, c)] holds [a + b * c + d * r], the sample at [(u, v)] of the
    unit square is the gradient at the position [(u * (cols - 1),
    v * (rows - 1))], between the cells as well as on them. *)
Theorem sampleBilinear_linear_precision grid cols rows a b d u v :
  wf_grid grid cols rows -> (1 <= cols)%nat -> (1 <= rows)%nat ->
  (forall r c, (r < rows)%nat -> (c < cols)%nat ->
     cell grid (Z.of_nat r) (Z.of_nat c) = Some (a + b * INR c + d * INR r)) ->
  0 <= u <= 1 -> 0 <= v <= 1 ->
  sampleBilinear grid cols rows u v
  = Some (a + b * (u * (INR cols - 1)) + d * (v * (INR rows - 1))).
Proof.
  intros Hwf Hc Hr Hlin Hu Hv.
  pose proof (floorIndex_unit cols u Hc Hu) as Hx.
  pose proof (floorIndex_unit rows v Hr Hv) as Hy.
  destruct (sampleBilinear_value grid cols rows u v Hwf Hx Hy)
    as (g00 & g01 & g10 & g11 & E00 & E01 & E10 & E11 & ->).
  set (x0 := floorIndex cols u) in *. set (y0 := floorIndex rows v) in *.
  set (x1 := Z.min (x0 + 1) (Z.of_nat cols - 1)) in *.
  set (y1 := Z.min (y0 + 1) (Z.of_nat rows - 1)) in *.
  assert (Hcell : forall y x, (0 <= y < Z.of_nat rows)%Z ->
            (0 <= x < Z.of_nat cols)%Z ->
            cell grid y x = Some (a + b * IZR x + d * IZR y)).
  { intros y x Hy' Hx'.
    rewrite <- (Z2Nat.id y), <- (Z2Nat.id x) by lia.
    rewrite Hlin by lia. now rewrite !INR_IZR_INZ. }
  rewrite Hcell in E00, E01, E10, E11 by (unfold x1, y1; lia).
  apply (inj Some) in E00, E01, E10, E11. subst g00 g01 g10 g11.
  f_equal.
  pose proof (frac_range (u * (INR cols - 1))) as Hfx.
  pose proof (frac_range (v * (INR rows - 1))) as Hfy.
  fold (floorIndex cols u) in Hfx. fold (floorIndex rows v) in Hfy.
  fold x0 in Hfx. fold y0 in Hfy.
  set (fx := u * (INR cols - 1) - IZR x0) in *.
  set (fy := v * (INR rows - 1) - IZR y0) in *.
  assert (Hedge : forall n w (i : Z),
            (1 <= n)%nat -> (0 <= i < Z.of_nat n)%Z ->
            0 <= w * (INR n - 1) - IZR i < 1 -> 0 <= w <= 1 ->
            IZR (Z.min (i + 1) (Z.of_nat n - 1)) * (w * (INR n - 1) - IZR i)
            = (IZR i + 1) * (w * (INR n - 1) - IZR i)).
  { intros n w i Hn Hi Hf Hw.
    destruct (Z.eq_dec i (Z.of_nat n - 1)%Z) as [Ei|Ni].
    - assert (Hz : w * (INR n - 1) - IZR i = 0).
      { rewrite Ei, minus_IZR, <- INR_IZR_INZ in *.
        assert (1 <= INR n) by (apply (le_INR 1); lia).
        nra. }
      rewrite Hz. ring.
    - rewrite Z.min_l by lia. now rewrite plus_IZR. }
  assert (Ex : IZR x1 * fx = (IZR x0 + 1) * fx)
    by (apply Hedge; assumption).
  assert (Ey : IZR y1 * fy = (IZR y0 + 1) * fy)
    by (apply Hedge; assumption).
  replace (u * (INR cols - 1)) with (IZR x0 + fx) by (unfold fx; ring).
  replace (v * (INR rows - 1)) with (IZR y0 + fy) by (unfold fy; ring).
  transitivity
    (a + b * IZR x0 + d * IZR y0
     + b * (IZR x1 * fx - IZR x0 * fx)
     + d * (IZR y1 * fy - IZR y0 * fy)); [ring|].
  rewrite Ex, Ey. ring.
Qed.

Lemma sampleBilinear_linear_precision_witness :
  sampleBilinear [[0; 1]; [2; 3]] 2 2 0.5 0.5 = Some 1.5.
Proof.
  replace 1.5 with (0 + 1 * (0.5 * (INR 2 - 1)) + 2 * (0.5 * (INR 2 - 1)))
    by (cbn [INR]; lra).
  apply sampleBilinear_linear_precision; try lia; try lra.
  - split; [reflexivity | repeat constructor].
  - intros [|[|r]] [|[|c]] Hr Hc; try lia; unfold cell;
      lazy -[Rplus Rmult Rminus Rdiv Rinv Ropp Q2R IZR INR];
      f_equal; cbn [INR]; lra.
Defined.

End BilinearAlgebra.

(** ** The range of the sampled brightness *)

Section SamplerRange.
Local Open Scope R_scope.
Import MathUtils Spec SvgSampler.

Lemma brightness_range data cols y x :
  Forall (fun b => 0 <= b <= 255) data ->
  0 <= brightness data cols y x <= 1.
Proof.
  intros Hdata. unfold brightness.
  assert (Hnth : forall i, 0 <= nth i data 0 <= 255).
  { intros i. destruct (Nat.lt_ge_cases i (length data)) as [Hi|Hi].
    - apply (proj1 (Stdlib.Lists.List.Forall_forall _ _) Hdata).
      now apply nth_In.
    - rewrite nth_overflow by exact Hi. lra. }
  pose proof (Hnth ((y * cols + x) * 4)%nat).
  pose proof (Hnth ((y * cols + x) * 4 + 1)%nat).
  pose proof (Hnth ((y * cols + x) * 4 + 2)%nat).
  split.
  - apply Rmult_le_pos; [lra|].
    apply Rlt_le, Rinv_0_lt_compat. lra.
  - apply (Rmult_le_reg_r (3 * 255)); [lra|].
    unfold Rdiv. rewrite Rmult_assoc, Rinv_l by lra. lra.
Qed.

Lemma sampleSVG_cell render d C r c g :
  cell (grid (sampleSVG render d C)) r c = Some g ->
  exists y x, g = brightness (render C (gridRows d C)) C y x.
Proof.
  unfold cell, sampleSVG. cbn [grid].
  destruct ((r <? 0)%Z || (c <? 0)%Z); [discriminate|].
  intros E.
  destruct (_ !! Z.to_nat r) as [row|] eqn:Erow; [|discriminate].
  cbn [mbind option_bind] in E.
  change (map ?f ?l) with (f <$> l) in Erow.
  apply list_lookup_fmap_Some in Erow as (y & -> & _).
  change (map ?f ?l) with (f <$> l) in E.
  apply list_lookup_fmap_Some in E as (x & -> & _).
  now exists y, x.
Qed.



End SamplerRange.

(** ** Shared facts on samples, waves and loop output *)

Section Ranges.
Local Open Scope R_scope.
Import MathUtils Spec.

(** A sample that is read inside the grid lies within any bounds that
    hold for the cells of the grid. *)
Lemma sampleBilinear_range grid cols rows lo hi u v b :
  wf_grid grid cols rows ->
  (forall r c g, cell grid r c = Some g -> lo <= g <= hi) ->
  sampleBilinear grid cols rows u v = Some b -> lo <= b <= hi.
Proof.
  intros Hwf Hcells Eb.
  destruct (proj1 (sampleBilinear_in_bounds grid cols rows u v Hwf))
    as [Hx Hy]; [rewrite Eb; eauto|].
  destruct (sampleBilinear_value grid cols rows u v Hwf Hx Hy)
    as (g00 & g01 & g10 & g11 & E00 & E01 & E10 & E11 & Es).
  rewrite Es in Eb. apply (inj Some) in Eb. subst b.
  pose proof (frac_range (u * (INR cols - 1))).
  pose proof (frac_range (v * (INR rows - 1))).
  apply Hcells in E00, E01, E10, E11.
  apply bilinear_between; unfold floorIndex; lra.
Qed.

Lemma wave_unit x : 0 <= 0.5 + 0.5 * sin x <= 1.
Proof. pose proof (SIN_bound x). lra. Qed.

Lemma lerp_ordered a b t : a <= b -> 0 <= t <= 1 -> a <= lerp a b t <= b.
Proof. intros Hab Ht. unfold lerp. nra. Qed.

End Ranges.

(** ** Vertical Lines: where the static bars lie *)

Section VerticalBars.
Local Open Scope R_scope.
Import MathUtils Spec SvgSampler.

(** X7. The static Vertical Lines draws column by column and, in a
    column, cell by cell, at most one bar per cell.  Every bar is a
    vertical segment on the centre line of its column, centred on the
    centre of its cell and at least 0.5 long.  With lengths in [[0, 1]],
    a grid of brightness values, a whole number of rows and a height that
    is not negative, a bar leaves neither its cell nor the output height,
    and of two bars of one column the upper ends where the lower begins
    or before: bars never overlap.  With a positive width the bars of
    different columns lie on different lines. *)
Theorem vertical_bars_stay_in_cells sd p W H rws out :
  Js.nullish p "rows" (INR (rows sd)) = Some rws ->
  VerticalLines.generate sd p W H = Some out ->
  let cellW := W / INR (cols sd) in
  let cellH := H / rws in
  exists bars : nat -> nat -> list Gfx.segment,
    Gfx.pathD out
    = flat_map (fun c => flat_map (bars c) (seq 0 (Js.passes rws)))
        (seq 0 (cols sd)) /\
    (forall c r,
       (length (bars c r) <= 1)%nat /\
       forall s, In s (bars c r) ->
         Gfx.x1 s = INR c * cellW + cellW / 2 /\ Gfx.x2 s = Gfx.x1 s /\
         Gfx.y1 s + Gfx.y2 s = 2 * (INR r * cellH + cellH / 2) /\
         Gfx.y1 s + 0.5 <= Gfx.y2 s) /\
    (forall mn mx n,
       wf_grid (grid sd) (cols sd) (rows sd) ->
       (forall r c g, cell (grid sd) r c = Some g -> 0 <= g <= 1) ->
       Js.num (Js.spread VerticalLines.getDefaultParams p) "minLength"
         = Some mn ->
       Js.num (Js.spread VerticalLines.getDefaultParams p) "maxLength"
         = Some mx ->
       0 <= mn <= 1 -> mx <= 1 -> 0 <= H -> rws = INR n ->
       (forall c r s, In s (bars c r) ->
          INR r * cellH <= Gfx.y1 s /\ Gfx.y2 s <= (INR r + 1) * cellH /\
          0 <= Gfx.y1 s /\ Gfx.y2 s <= H) /\
       (forall c r r' s s', (r < r')%nat ->
          In s (bars c r) -> In s' (bars c r') -> Gfx.y2 s <= Gfx.y1 s') /\
       (0 < W -> forall c c' r r' s s', c <> c' ->
          In s (bars c r) -> In s' (bars c' r') -> Gfx.x1 s <> Gfx.x1 s')).
Proof.
  intros Hrows Hgen cellW cellH.
  unfold VerticalLines.generate in Hgen. cbv zeta in Hgen.
  destruct (Js.num _ "minStroke") as [minStroke|]; [|discriminate].
  destruct (Js.num _ "maxStroke") as [maxStroke|]; [|discriminate].
  destruct (Js.num _ "maxLength") as [maxLength|] eqn:Emx; [|discriminate].
  destruct (Js.num _ "minLength") as [minLength|] eqn:Emn; [|discriminate].
  cbn [mbind option_bind] in Hgen.
  destruct (_ !! "color") as [color|]; [|discriminate].
  cbn [mbind option_bind] in Hgen.
  rewrite Hrows in Hgen. cbn [mbind option_bind] in Hgen.
  fold cellW cellH in Hgen.
  destruct (Js.for_loop _ _) as [pathD|] eqn:Eloop; [|discriminate].
  cbn [mbind option_bind] in Hgen. apply (inj Some) in Hgen. subst out.
  cbn [Gfx.pathD].
  apply nested_loops_flat in Eloop.
  match type of Eloop with
  | _ = flat_map (fun c => flat_map (@?f c) _) _ =>
      set (inner := f) in *
  end.
  set (bars := fun c r : nat =>
    if (c <? cols sd)%nat && (r <? Js.passes rws)%nat then inner c r
    else []).
  assert (Hbars : forall c r s, In s (bars c r) ->
            (c < cols sd)%nat /\ (r < Js.passes rws)%nat /\
            exists b,
              sampleBilinear (grid sd) (cols sd) (rows sd)
                (Js.latticeCoord (INR (cols sd)) c)
                (Js.latticeCoord rws r) = Some b /\
              0.5 <= lerp minLength (Rmax maxLength minLength) (1 - b)
                     * cellH /\
              s = Gfx.Segment (INR c * cellW + cellW / 2)
                    (INR r * cellH + cellH / 2
                     - lerp minLength (Rmax maxLength minLength) (1 - b)
                       * cellH / 2)
                    (INR c * cellW + cellW / 2)
                    (INR r * cellH + cellH / 2
                     + lerp minLength (Rmax maxLength minLength) (1 - b)
                       * cellH / 2)).
  { intros c r s. unfold bars, inner.
    destruct (c <? cols sd)%nat eqn:Ec; [|intros []].
    destruct (r <? Js.passes rws)%nat eqn:Er; [|intros []].
    apply Nat.ltb_lt in Ec, Er. cbn [andb].
    destruct (sampleBilinear _ _ _ _ _) as [b|]; [|intros []].
    cbn [mbind option_bind].
    destruct (Js.ltb _ 0.5) eqn:Ecut; [intros []|].
    apply ltb_false in Ecut. intros [<-|[]].
    refine (conj Ec (conj Er _)). exists b. auto. }
  exists bars. refine (conj _ (conj _ _)).
  - rewrite Eloop. apply flat_map_seq_ext. intros c Hc.
    apply flat_map_seq_ext. intros r Hr. unfold bars.
    apply Nat.ltb_lt in Hc, Hr. now rewrite Hc, Hr.
  - intros c r. split.
    + unfold bars, inner.
      destruct ((c <? cols sd)%nat && (r <? Js.passes rws)%nat);
        [|cbn; lia].
      destruct (sampleBilinear _ _ _ _ _); [|cbn; lia].
      cbn [mbind option_bind]. destruct (Js.ltb _ 0.5); cbn; lia.
    + intros s Hs.
      destruct (Hbars c r s Hs) as (_ & _ & b & _ & Hcut & ->).
      cbn [Gfx.x1 Gfx.x2 Gfx.y1 Gfx.y2]. repeat split; lra.
  - intros mn mx n Hwf Hcells Hmn Hmx Hmn01 Hmx1 HH Hn.
    apply (inj Some) in Hmn, Hmx. subst minLength maxLength.
    assert (Hcell : forall c r s, In s (bars c r) ->
              0 < INR n /\ 0 <= cellH /\ INR r + 1 <= INR n /\
              INR r * cellH <= Gfx.y1 s /\
              Gfx.y2 s <= (INR r + 1) * cellH).
    { intros c r s Hs.
      destruct (Hbars c r s Hs) as (_ & Hr & b & Eb & Hcut & ->).
      cbn [Gfx.x1 Gfx.x2 Gfx.y1 Gfx.y2].
      rewrite Hn, passes_INR in Hr.
      assert (Hn0 : 0 < INR n) by (apply (lt_INR 0); lia).
      assert (HcH : 0 <= cellH).
      { unfold cellH. rewrite Hn. apply Rmult_le_pos; [exact HH|].
        apply Rlt_le, Rinv_0_lt_compat, Hn0. }
      assert (Hb : 0 <= b <= 1).
      { exact (sampleBilinear_range _ _ _ 0 1 _ _ b Hwf Hcells Eb). }
      assert (Hlen : 0 <= lerp mn (Rmax mx mn) (1 - b) <= 1).
      { assert (mn <= Rmax mx mn) by apply Rmax_r.
        assert (Rmax mx mn <= 1) by (apply Rmax_lub; lra).
        pose proof (lerp_ordered mn (Rmax mx mn) (1 - b)). lra. }
      set (len := lerp mn (Rmax mx mn) (1 - b)) in *.
      assert (Hh : len * cellH <= cellH) by nra.
      assert (INR r + 1 <= INR n) by (rewrite <- S_INR; apply le_INR; lia).
      repeat split; try lra. }
    refine (conj _ (conj _ _)).
    + intros c r s Hs.
      destruct (Hcell c r s Hs) as (Hn0 & HcH & Hrn & Hlo & Hhi).
      assert (Hr0 : 0 <= INR r) by apply pos_INR.
      assert (Htop : (INR r + 1) * cellH <= H).
      { replace H with (INR n * cellH)
          by (unfold cellH; rewrite Hn; field; lra).
        nra. }
      repeat split; try lra; nra.
    + intros c r r' s s' Hrr Hs Hs'.
      destruct (Hcell c r s Hs) as (_ & HcH & _ & _ & Hhi).
      destruct (Hcell c r' s' Hs') as (_ & _ & _ & Hlo & _).
      assert (INR r + 1 <= INR r') by (rewrite <- S_INR; apply le_INR; lia).
      nra.
    + intros HW c c' r r' s s' Hcc Hs Hs'.
      destruct (Hbars c r s Hs) as (Hc & _ & b & _ & _ & ->).
      destruct (Hbars c' r' s' Hs') as (Hc' & _ & b' & _ & _ & ->).
      cbn [Gfx.x1].
      assert (Hcols : 0 < INR (cols sd)) by (apply (lt_INR 0); lia).
      assert (HcW : 0 < cellW).
      { unfold cellW. apply Rmult_lt_0_compat; [exact HW|].
        now apply Rinv_0_lt_compat. }
      intros E.
      assert (Ecc : INR c = INR c') by nra.
      apply INR_eq in Ecc. contradiction.
Qed.

Lemma vertical_static_black1 :
  VerticalLines.generate black1 ∅ 100 100
  = Some (Gfx.StrokedPath [Gfx.Segment 50 0 50 100] (Js.Str "#000000")
            2.25).
Proof.
  unfold VerticalLines.generate. cbv zeta.
  unfold Js.num, Js.nullish. rewrite !spread_lookup. unfold_defaults.
  read_literal. rewrite !lookup_empty.
  cbn [mbind option_bind aspect black1 grid cols rows INR].
  replace (Js.passes 1) with 1%nat
    by (symmetry; apply (passes_IZR 1)).
  cbn [Js.for_loop Js.collect seq].
  rewrite sampleBilinear_single. cbn [mbind option_bind].
  unfold lerp. cbn [INR]. decide_tests.
  cbn [mbind option_bind app]. repeat f_equal; lra.
Qed.

Lemma vertical_bars_stay_in_cells_witness :
  let out := Gfx.StrokedPath [Gfx.Segment 50 0 50 100] (Js.Str "#000000")
               2.25 in
  VerticalLines.generate black1 ∅ 100 100 = Some out /\
  let cellW := 100 / INR 1 in
  let cellH := 100 / 1 in
  exists bars : nat -> nat -> list Gfx.segment,
    Gfx.pathD out
    = flat_map (fun c => flat_map (bars c) (seq 0 (Js.passes 1)))
        (seq 0 1) /\
    (forall c r,
       (length (bars c r) <= 1)%nat /\
       forall s, In s (bars c r) ->
         Gfx.x1 s = INR c * cellW + cellW / 2 /\ Gfx.x2 s = Gfx.x1 s /\
         Gfx.y1 s + Gfx.y2 s = 2 * (INR r * cellH + cellH / 2) /\
         Gfx.y1 s + 0.5 <= Gfx.y2 s) /\
    (forall c r s, In s (bars c r) ->
       INR r * cellH <= Gfx.y1 s /\ Gfx.y2 s <= (INR r + 1) * cellH /\
       0 <= Gfx.y1 s /\ Gfx.y2 s <= 100) /\
    (forall c r r' s s', (r < r')%nat ->
       In s (bars c r) -> In s' (bars c r') -> Gfx.y2 s <= Gfx.y1 s') /\
    (forall c c' r r' s s', c <> c' ->
       In s (bars c r) -> In s' (bars c' r') -> Gfx.x1 s <> Gfx.x1 s').
Proof.
  split; [exact vertical_static_black1|].
  destruct (vertical_bars_stay_in_cells black1 ∅ 100 100 1 _
              ltac:(unfold Js.nullish; now rewrite lookup_empty)
              vertical_static_black1) as (bars & Eout & Hbars & Hcond).
  exists bars. refine (conj Eout (conj Hbars _)).
  destruct (Hcond 0.05 1 1%nat) as (Hin & Hsep & Hcol); try lra.
  - apply single_wf.
  - intros r c g E. apply single_cell in E. lra.
  - unfold Js.num. rewrite spread_lookup, lookup_empty. reflexivity.
  - unfold Js.num. rewrite spread_lookup, lookup_empty. reflexivity.
  - reflexivity.
  - refine (conj Hin (conj Hsep _)). apply Hcol. lra.
Defined.

End VerticalBars.

(** ** Bars stored on a flat array and read back *)

Section FlatBars.
Import Layout.

Lemma ends_length ps : length (flat_map ends ps) = (length ps * 2)%nat.
Proof. induction ps as [|q ps IH]; cbn; [reflexivity | lia]. Qed.

Lemma ends_lookup ps : forall i q, ps !! i = Some q ->
  flat_map ends ps !! (i * 2)%nat = Some (fst q) /\
  flat_map ends ps !! (i * 2 + 1)%nat = Some (snd q).
Proof.
  induction ps as [|p ps IH]; intros [|i] q E; try discriminate.
  - cbn in E. apply (inj Some) in E. subst p. now split.
  - cbn in E. apply IH in E. exact E.
Qed.

Lemma holds_app flat extra off ps :
  holds flat off ps -> holds (flat ++ extra) off ps.
Proof.
  intros H i q E. destruct (H i q E) as [H1 H2]. split.
  - rewrite lookup_app_l; [exact H1|]. now apply lookup_lt_Some in H1.
  - rewrite lookup_app_l; [exact H2|]. now apply lookup_lt_Some in H2.
Qed.

Lemma holds_new flat ps : holds (flat ++ flat_map ends ps) (length flat) ps.
Proof.
  intros i q E. destruct (ends_lookup ps i q E) as [H1 H2]. split.
  - rewrite lookup_app_r by lia.
    replace (length flat + i * 2 - length flat)%nat with (i * 2)%nat by lia.
    exact H1.
  - rewrite lookup_app_r by lia.
    replace (length flat + i * 2 + 1 - length flat)%nat
      with (i * 2 + 1)%nat by lia.
    exact H2.
Qed.

(** The loop that reads the bars of one line back. *)
Lemma read_bars {P} flat off ps (draw : R -> R -> P) :
  holds flat off ps ->
  Js.for_loop (length ps) (fun s =>
    a ← flat !! (off + s * 2)%nat;
    b ← flat !! (off + s * 2 + 1)%nat;
    Some [draw a b])
  = Some (map (fun q => draw (fst q) (snd q)) ps).
Proof.
  intros H. rewrite map_as_flat_map.
  apply (for_loop_stored ps (fun q => [draw (fst q) (snd q)])).
  intros i q E. destruct (H i q E) as [-> ->]. reflexivity.
Qed.

Section Fold.
Context {M : Type} (mk : nat -> nat -> nat -> M).
Variable bars : nat -> option (list (R * R)).
Variable step : list M * list R -> nat -> option (list M * list R).
Hypothesis step_eq : forall metas flat c,
  step (metas, flat) c
  = bars c ≫= fun ps =>
      Some (metas ++ [mk c (length flat) (length ps)],
            flat ++ flat_map ends ps).

Lemma fold_lines k : forall a acc res,
  stored mk bars acc a ->
  Js.foldM step acc (seq a k) = Some res ->
  stored mk bars res (a + k).
Proof.
  induction k as [|k IH]; intros a [metas flat] res Hacc E.
  - cbn in E. apply (inj Some) in E. subst res.
    now rewrite Nat.add_0_r.
  - cbn [seq Js.foldM] in E. rewrite step_eq in E.
    destruct (bars a) as [ps|] eqn:Eps; [|discriminate].
    cbn [mbind option_bind] in E.
    replace (a + S k)%nat with (S a + k)%nat by lia.
    apply IH in E; [exact E|].
    destruct Hacc as [Hlen Hall]. unfold stored. cbn [fst snd] in *.
    split.
    + rewrite length_app. cbn. lia.
    + intros c m Hm.
      destruct (Nat.lt_ge_cases c (length metas)) as [Hc|Hc].
      * rewrite lookup_app_l in Hm by exact Hc.
        destruct (Hall c m Hm) as (o & qs & Eq & -> & Hq).
        exists o, qs. auto using holds_app.
      * rewrite lookup_app_r in Hm by exact Hc.
        destruct (c - length metas)%nat as [|j] eqn:Ej;
          [|destruct j; discriminate].
        cbn in Hm. apply (inj Some) in Hm. subst m.
        assert (c = a) as -> by lia.
        exists (length flat), ps. auto using holds_new.
Qed.

Lemma stored_nil : stored mk bars ([], []) 0.
Proof. split; [reflexivity|]. intros c m E. discriminate. Qed.

End Fold.

End FlatBars.

(** ** Vertical Lines: the frames of the animated variant *)

Section FilteredLoops.
Context {B : Type}.

Lemma collect_filter {A} (body : A -> option (list B)) (f : B -> bool) l :
  Js.collect (fun i => body i ≫= fun o => Some (List.filter f o)) l
  = Js.collect body l ≫= fun out => Some (List.filter f out).
Proof.
  induction l as [|i l IH]; cbn [Js.collect]; [reflexivity|].
  rewrite IH. destruct (body i) as [o|]; [|reflexivity].
  cbn [mbind option_bind].
  destruct (Js.collect body l) as [rest|]; [|reflexivity].
  cbn [mbind option_bind]. now rewrite List.filter_app.
Qed.

Lemma for_loop_filter (body : nat -> option (list B)) (f : B -> bool) n :
  Js.for_loop n (fun i => body i ≫= fun o => Some (List.filter f o))
  = Js.for_loop n body ≫= fun out => Some (List.filter f out).
Proof. apply collect_filter. Qed.

Lemma collect_map {A C} (body : A -> option (list B)) (h : B -> C) l :
  Js.collect (fun i => body i ≫= fun o => Some (map h o)) l
  = Js.collect body l ≫= fun out => Some (map h out).
Proof.
  induction l as [|i l IH]; cbn [Js.collect]; [reflexivity|].
  rewrite IH. destruct (body i) as [o|]; [|reflexivity].
  cbn [mbind option_bind].
  destruct (Js.collect body l) as [rest|]; [|reflexivity].
  cbn [mbind option_bind]. now rewrite map_app.
Qed.

Lemma for_loop_map {C} (body : nat -> option (list B)) (h : B -> C) n :
  Js.for_loop n (fun i => body i ≫= fun o => Some (map h o))
  = Js.for_loop n body ≫= fun out => Some (map h out).
Proof. apply collect_map. Qed.

End FilteredLoops.

Section VerticalFrames.
Local Open Scope R_scope.
Import MathUtils Spec SvgSampler Layout.

(** The ends [init] pushes for a column are those of its bars. *)
Lemma vertical_column_ends sd minLength safeMaxLength rows cellH c :
  Js.for_loop (Js.passes rows) (fun r =>
    let v := Js.latticeCoord rows r in
    brightness ← sampleBilinear (grid sd) (cols sd) (SvgSampler.rows sd)
                   (Js.latticeCoord (INR (cols sd)) c) v;
    let darkness := 1 - brightness in
    let h := lerp minLength safeMaxLength darkness * cellH in
    if Js.ltb h 0.3 then Some []
    else
      let cy := INR r * cellH + cellH / 2 in
      Some [cy - h / 2; cy + h / 2])
  = verticalBars sd minLength safeMaxLength rows cellH 0.3 c
    ≫= fun ps => Some (flat_map ends ps).
Proof.
  unfold verticalBars. cbv zeta. rewrite <- for_loop_draw.
  apply for_loop_ext. intros r _.
  destruct (sampleBilinear _ _ _ _ _); [|reflexivity].
  cbn [mbind option_bind]. destruct (Js.ltb _ _); reflexivity.
Qed.

(** The static bars of a column are its stored bars that are at least
    0.5 long. *)
Lemma vertical_static_bars sd minLength safeMaxLength rows cellH c :
  verticalBars sd minLength safeMaxLength rows cellH 0.5 c
  = verticalBars sd minLength safeMaxLength rows cellH 0.3 c
    ≫= fun ps =>
      Some (List.filter (fun q => negb (Js.ltb (snd q - fst q) 0.5)) ps).
Proof.
  unfold verticalBars. cbv zeta. rewrite <- for_loop_filter.
  apply for_loop_ext. intros r _.
  destruct (sampleBilinear _ _ _ _ _) as [b|]; [|reflexivity].
  cbn [mbind option_bind].
  set (h := lerp minLength safeMaxLength (1 - b) * cellH).
  set (cy := INR r * cellH + cellH / 2).
  destruct (Js.ltb h 0.3) eqn:E3.
  - apply ltb_true in E3.
    rewrite (proj2 (ltb_true h 0.5)) by lra. reflexivity.
  - cbn [mbind option_bind List.filter fst snd].
    replace (cy + h / 2 - (cy - h / 2)) with h by field.
    destruct (Js.ltb h 0.5); reflexivity.
Qed.

(** The path of [generate], column by column. *)
Lemma vertical_generate_loop sd minLength safeMaxLength rows cellW cellH :
  Js.for_loop (cols sd) (fun c =>
    let cx := INR c * cellW + cellW / 2 in
    let u := Js.latticeCoord (INR (cols sd)) c in
    Js.for_loop (Js.passes rows) (fun r =>
      let v := Js.latticeCoord rows r in
      brightness ← sampleBilinear (grid sd) (cols sd) (SvgSampler.rows sd)
                     u v;
      let darkness := 1 - brightness in
      let h := lerp minLength safeMaxLength darkness * cellH in
      if Js.ltb h 0.5 then Some []
      else
        let cy := INR r * cellH + cellH / 2 in
        Some [Gfx.Segment cx (cy - h / 2) cx (cy + h / 2)]))
  = Js.for_loop (cols sd) (fun c =>
      verticalBars sd minLength safeMaxLength rows cellH 0.5 c
      ≫= fun ps =>
        Some (map (fun q => Gfx.Segment (INR c * cellW + cellW / 2) (fst q)
                              (INR c * cellW + cellW / 2) (snd q)) ps)).
Proof.
  apply for_loop_ext. intros c _. cbv zeta.
  unfold verticalBars. cbv zeta. rewrite <- for_loop_map.
  apply for_loop_ext. intros r _.
  destruct (sampleBilinear _ _ _ _ _); [|reflexivity].
  cbn [mbind option_bind]. destruct (Js.ltb _ _); reflexivity.
Qed.

(** The state [init] returns: its parameters, and its flat array, which
    holds the bars of every column. *)
Lemma vertical_init_stored sd p W H st :
  VerticalLinesAnim.init sd p W H = Some st ->
  exists maxLength minLength rows,
    Js.num (Js.spread VerticalLinesAnim.getDefaultParams p) "maxLength"
      = Some maxLength /\
    Js.num (Js.spread VerticalLinesAnim.getDefaultParams p) "minLength"
      = Some minLength /\
    Js.nullish (Js.spread VerticalLinesAnim.getDefaultParams p) "rows"
      (INR (SvgSampler.rows sd)) = Some rows /\
    VerticalLinesAnim.params st
      = Js.spread VerticalLinesAnim.getDefaultParams p /\
    VerticalLinesAnim.cols st = cols sd /\
    VerticalLinesAnim.cellW st = W / INR (cols sd) /\
    stored
      (fun c o k =>
         VerticalLinesAnim.Meta
           (INR c * (W / INR (cols sd)) + W / INR (cols sd) / 2) o k)
      (verticalBars sd minLength (Rmax maxLength minLength) rows (H / rows)
         0.3)
      (VerticalLinesAnim.colMeta st, VerticalLinesAnim.segData st)
      (cols sd).
Proof.
  unfold VerticalLinesAnim.init. cbv zeta. intros E.
  destruct (Js.num _ "maxLength") as [maxLength|]; [|discriminate].
  destruct (Js.num _ "minLength") as [minLength|]; [|discriminate].
  cbn [mbind option_bind] in E.
  destruct (Js.nullish _ "rows" _) as [rows|]; [|discriminate].
  cbn [mbind option_bind] in E.
  destruct (Js.foldM _ _ _) as [[metas flat]|] eqn:Efold; [|discriminate].
  cbn [mbind option_bind] in E. apply (inj Some) in E. subst st.
  exists maxLength, minLength, rows.
  cbn [VerticalLinesAnim.params VerticalLinesAnim.cols
       VerticalLinesAnim.cellW VerticalLinesAnim.colMeta
       VerticalLinesAnim.segData].
  repeat (split; [reflexivity|]).
  refine (fold_lines _ _ _ _ (cols sd) 0 ([], []) _ (stored_nil _ _)
            Efold).
  intros ms fl c. unfold VerticalLinesAnim.init_column.
  rewrite vertical_column_ends.
  destruct (verticalBars _ _ _ _ _ _ _) as [ps|]; [|reflexivity].
  cbn [mbind option_bind]. rewrite ends_length, Nat.div_mul by lia.
  reflexivity.
Qed.

(** The strokes of a frame, column by column: the stored bars, each with
    the stroke width of its column. *)
Lemma vertical_frame_loop colMeta segData n
    (bars : nat -> option (list (R * R))) (cx : nat -> R)
    (strokeW : nat -> R) :
  stored (fun c o k => VerticalLinesAnim.Meta (cx c) o k) bars
    (colMeta, segData) n ->
  Js.for_loop n (fun c =>
    match colMeta !! c with
    | None => Some []
    | Some m =>
      if (VerticalLinesAnim.segCount m =? 0)%nat then Some []
      else
        Js.for_loop (VerticalLinesAnim.segCount m) (fun s =>
          y1 ← segData !! (VerticalLinesAnim.segOffset m + s * 2)%nat;
          y2 ← segData !! (VerticalLinesAnim.segOffset m + s * 2 + 1)%nat;
          Some [Gfx.Stroke (Gfx.Segment (VerticalLinesAnim.cx m) y1
                              (VerticalLinesAnim.cx m) y2) (strokeW c)])
    end)
  = Js.for_loop n (fun c =>
      bars c ≫= fun ps =>
        Some (map (fun q => Gfx.Stroke (Gfx.Segment (cx c) (fst q)
                                          (cx c) (snd q)) (strokeW c))
                  ps)).
Proof.
  intros [Hlen Hall]. cbn [fst snd] in *.
  apply for_loop_ext. intros c Hc.
  destruct (colMeta !! c) as [m|] eqn:Em.
  - destruct (Hall c m Em) as (o & ps & -> & -> & Hps).
    cbn [mbind option_bind VerticalLinesAnim.segCount
         VerticalLinesAnim.segOffset VerticalLinesAnim.cx].
    destruct (length ps =? 0)%nat eqn:E0.
    + apply Nat.eqb_eq in E0. destruct ps; [reflexivity | discriminate].
    + apply (read_bars _ o ps
               (fun a b => Gfx.Stroke (Gfx.Segment (cx c) a (cx c) b)
                             (strokeW c)) Hps).
  - apply lookup_ge_None in Em. lia.
Qed.

Lemma filter_of_map {A C} (f : C -> bool) (g : A -> C) l :
  List.filter f (map g l) = map g (List.filter (fun x => f (g x)) l).
Proof.
  induction l as [|x l IH]; [reflexivity|].
  cbn [map List.filter]. rewrite IH. now destruct (f (g x)).
Qed.

(** X8. The static output of Vertical Lines is what remains of a frame of
    the animated variant, at any time, when the bars shorter than 0.5
    are left out: [init] keeps the bars from 0.3 on, [generate] from 0.5
    on, and position and length of a bar are the same in both. *)
Theorem vertical_static_is_filtered_frame sd p W H gen st t out :
  VerticalLines.generate sd p W H = Some gen ->
  VerticalLinesAnim.init sd p W H = Some st ->
  VerticalLinesAnim.drawFrame st t = Some out ->
  Gfx.pathD gen
  = List.filter (fun s => negb (Js.ltb (Gfx.y2 s - Gfx.y1 s) 0.5))
      (map Gfx.seg (Gfx.prims out)).
Proof.
  intros Hgen Hinit Hframe.
  destruct (vertical_init_stored sd p W H st Hinit)
    as (maxLength & minLength & rows & EmaxL & EminL & Erows & Eparams
        & Ecols & EcellW & Hstored).
  change VerticalLinesAnim.getDefaultParams
    with VerticalLines.getDefaultParams in *.
  rewrite vertical_rows in Erows.
  unfold VerticalLines.generate in Hgen. cbv zeta in Hgen.
  rewrite EmaxL, EminL, Erows in Hgen.
  destruct (Js.num _ "minStroke") as [minStroke|]; [|discriminate].
  destruct (Js.num _ "maxStroke") as [maxStroke|]; [|discriminate].
  cbn [mbind option_bind] in Hgen.
  destruct (_ !! "color") as [color|]; [|discriminate].
  cbn [mbind option_bind] in Hgen.
  rewrite vertical_generate_loop in Hgen.
  destruct (Js.for_loop _ _) as [pathD|] eqn:Estatic; [|discriminate].
  cbn [mbind option_bind] in Hgen. apply (inj Some) in Hgen. subst gen.
  cbn [Gfx.pathD].
  unfold VerticalLinesAnim.drawFrame in Hframe.
  destruct (Js.num _ "speed") as [speed|]; [|discriminate].
  destruct (Js.num _ "waveFreq") as [waveFreq|]; [|discriminate].
  destruct (Js.num _ "minStroke") as [a|]; [|discriminate].
  destruct (Js.num _ "maxStroke") as [b|]; [|discriminate].
  cbn [mbind option_bind] in Hframe.
  destruct (_ !! "color") as [colour|]; [|discriminate].
  cbn [mbind option_bind] in Hframe.
  rewrite Ecols, EcellW in Hframe.
  rewrite (vertical_frame_loop _ _ _ _ _ _ Hstored) in Hframe.
  match type of Hframe with
  | ?loop ≫= _ = _ => destruct loop as [strokes|] eqn:Eframe
  end; [|discriminate].
  cbn [mbind option_bind] in Hframe. apply (inj Some) in Hframe. subst out.
  cbn [Gfx.prims].
  apply (inj Some). rewrite <- Estatic.
  transitivity
    ((Some strokes ≫= (fun o => Some (map Gfx.seg o)))
     ≫= fun o => Some (List.filter
                         (fun s => negb (Js.ltb (Gfx.y2 s - Gfx.y1 s) 0.5))
                         o)); [|reflexivity].
  rewrite <- Eframe, <- for_loop_map, <- for_loop_filter.
  apply for_loop_ext. intros c _.
  rewrite vertical_static_bars.
  destruct (verticalBars _ _ _ _ _ 0.3 c) as [ps|]; [|reflexivity].
  cbn [mbind option_bind]. f_equal.
  rewrite map_map. cbn [Gfx.seg].
  rewrite filter_of_map. reflexivity.
Qed.

Lemma vertical_static_is_filtered_frame_witness :
  Gfx.pathD (Gfx.StrokedPath [] (Js.Str "#000000") 2.25)
  = List.filter (fun s => negb (Js.ltb (Gfx.y2 s - Gfx.y1 s) 0.5))
      (map Gfx.seg
         (Gfx.prims
            (Gfx.Painted (Js.Str "#000000")
               [Gfx.Stroke (Gfx.Segment 50 3.8 50 4.2) 2.25]))).
Proof.
  pose proof vertical_frame_white1 as E.
  destruct (VerticalLinesAnim.init white1 ∅ 100 8) as [st|] eqn:Ei;
    [|discriminate].
  exact (vertical_static_is_filtered_frame white1 ∅ 100 8 _ st 0 _
           vertical_static_white1 Ei E).
Defined.

(** X9. Every frame of a state built by [init] can be drawn: the reads of
    the flat array stay inside it.  The bars of a frame are vertical and
    the same at every time; only their stroke widths change, between
    the least and the greatest width of the frame, which never exceeds
    1.35 column widths. *)
Theorem vertical_frames_read_stored_bars sd p W H st a b :
  numeric_params p ->
  VerticalLinesAnim.init sd p W H = Some st ->
  Js.num (Js.spread VerticalLinesAnim.getDefaultParams p) "minStroke"
    = Some a ->
  Js.num (Js.spread VerticalLinesAnim.getDefaultParams p) "maxStroke"
    = Some b ->
  let hi := Rmin (Rmax a b) (W / INR (cols sd) * 1.35) in
  let lo := Rmin a hi in
  exists segs,
    Forall (fun s => Gfx.x1 s = Gfx.x2 s) segs /\
    forall t, exists out,
      VerticalLinesAnim.drawFrame st t = Some out /\
      map Gfx.seg (Gfx.prims out) = segs /\
      Forall (fun k => lo <= Gfx.lineWidth k <= hi) (Gfx.prims out).
Proof.
  intros Hp Hinit Ea Eb hi lo.
  destruct (vertical_init_stored sd p W H st Hinit)
    as (maxLength & minLength & rows & EmaxL & EminL & Erows & Eparams
        & Ecols & EcellW & Hstored).
  set (bars := verticalBars sd minLength (Rmax maxLength minLength) rows
                 (H / rows) 0.3) in *.
  set (cx := fun c : nat => INR c * (W / INR (cols sd))
                            + W / INR (cols sd) / 2).
  assert (Hbars : forall c, (c < cols sd)%nat -> is_Some (bars c)).
  { intros c Hc. destruct Hstored as [Hlen Hall]. cbn [fst snd] in *.
    destruct (lookup_lt_is_Some_2 (VerticalLinesAnim.colMeta st) c)
      as [m Em]; [lia|].
    destruct (Hall c m Em) as (o & ps & -> & _). eauto. }
  destruct (for_loop_is_Some (cols sd)
              (fun c => bars c ≫= fun ps =>
                 Some (map (fun q => Gfx.Segment (cx c) (fst q) (cx c)
                                       (snd q)) ps)))
    as [segs Esegs].
  { intros c Hc. destruct (Hbars c Hc) as [ps ->]. eauto. }
  exists segs. split.
  - apply Stdlib.Lists.List.Forall_forall. intros s Hs.
    destruct (for_loop_In _ _ _ _ Esegs Hs) as (c & o & _ & Eo & Hso).
    destruct (bars c) as [ps|]; [|discriminate].
    apply (inj Some) in Eo. subst o.
    apply in_map_iff in Hso as (q & <- & _). reflexivity.
  - intros t. unfold VerticalLinesAnim.drawFrame.
    rewrite Eparams, Ea, Eb, Ecols, EcellW.
    read_numeric Hp.
    rewrite (vertical_frame_loop _ _ _ _ _ _ Hstored). fold bars cx.
    match goal with
    | |- context [Js.for_loop (cols sd) ?body] =>
        destruct (for_loop_is_Some (cols sd) body) as [strokes Estrokes];
          [ intros c Hc; destruct (Hbars c Hc) as [ps Eps];
            cbv beta; rewrite Eps; eauto
          | rewrite Estrokes ]
    end.
    cbn [mbind option_bind]. eexists. split; [reflexivity|].
    cbn [Gfx.prims]. split.
    + apply (inj Some). rewrite <- Esegs.
      change (Some (map Gfx.seg strokes))
        with (Some strokes ≫= fun o => Some (map Gfx.seg o)).
      rewrite <- Estrokes, <- for_loop_map.
      apply for_loop_ext. intros c _.
      destruct (bars c) as [ps|]; [|reflexivity].
      cbn [mbind option_bind]. now rewrite map_map.
    + apply Stdlib.Lists.List.Forall_forall. intros k Hk.
      destruct (for_loop_In _ _ _ _ Estrokes Hk)
        as (c & o & _ & Eo & Hko).
      destruct (bars c) as [ps|]; [|discriminate].
      apply (inj Some) in Eo. subst o.
      apply in_map_iff in Hko as (q & <- & _). cbn [Gfx.lineWidth].
      replace (Rmin a (Rmax a b)) with a
        by (symmetry; apply Rmin_left, Rmax_l).
      fold hi. fold lo.
      apply lerp_ordered; [apply Rmin_r | apply wave_unit].
Qed.

Lemma vertical_frames_read_stored_bars_witness :
  exists st,
    VerticalLinesAnim.init white1 ∅ 100 8 = Some st /\
    exists segs,
      Forall (fun s => Gfx.x1 s = Gfx.x2 s) segs /\
      forall t, exists out,
        VerticalLinesAnim.drawFrame st t = Some out /\
        map Gfx.seg (Gfx.prims out) = segs /\
        Forall (fun k => Rmin 0.5 (Rmin (Rmax 0.5 4)
                                     (100 / INR (cols white1) * 1.35))
                         <= Gfx.lineWidth k
                         <= Rmin (Rmax 0.5 4)
                              (100 / INR (cols white1) * 1.35))
               (Gfx.prims out).
Proof.
  pose proof vertical_frame_white1 as E.
  destruct (VerticalLinesAnim.init white1 ∅ 100 8) as [st|] eqn:Ei;
    [|discriminate].
  exists st. split; [reflexivity|].
  apply (vertical_frames_read_stored_bars white1 ∅ 100 8 st 0.5 4
           numeric_params_empty Ei).
  - unfold Js.num. rewrite spread_lookup, lookup_empty. reflexivity.
  - unfold Js.num. rewrite spread_lookup, lookup_empty. reflexivity.
Defined.

End VerticalFrames.

(** ** Horizontal Lines: the frames draw the static bars *)

Section HorizontalFrames.
Local Open Scope R_scope.
Import MathUtils Spec SvgSampler Layout.

Lemma horizontal_row_ends sd minLength safeMaxLength rows cellW r :
  Js.for_loop (cols sd) (fun c =>
    let u := Js.latticeCoord (INR (cols sd)) c in
    brightness ← sampleBilinear (grid sd) (cols sd) (SvgSampler.rows sd)
                   u (Js.latticeCoord rows r);
    let darkness := 1 - brightness in
    let w := lerp minLength safeMaxLength darkness * cellW in
    if Js.ltb w 0.3 then Some []
    else
      let cx := INR c * cellW + cellW / 2 in
      Some [cx - w / 2; cx + w / 2])
  = horizontalBars sd minLength safeMaxLength rows cellW r
    ≫= fun ps => Some (flat_map ends ps).
Proof.
  unfold horizontalBars. cbv zeta. rewrite <- for_loop_draw.
  apply for_loop_ext. intros c _.
  destruct (sampleBilinear _ _ _ _ _); [|reflexivity].
  cbn [mbind option_bind]. destruct (Js.ltb _ _); reflexivity.
Qed.

Lemma horizontal_generate_loop sd minLength safeMaxLength cellW cellH :
  Js.for_loop (rows sd) (fun r =>
    let cy := INR r * cellH + cellH / 2 in
    let v := Js.latticeCoord (INR (rows sd)) r in
    Js.for_loop (cols sd) (fun c =>
      let u := Js.latticeCoord (INR (cols sd)) c in
      brightness ← sampleBilinear (grid sd) (cols sd) (rows sd) u v;
      let darkness := 1 - brightness in
      let w := lerp minLength safeMaxLength darkness * cellW in
      if Js.ltb w 0.3 then Some []
      else
        let cx := INR c * cellW + cellW / 2 in
        Some [Gfx.Segment (cx - w / 2) cy (cx + w / 2) cy]))
  = Js.for_loop (rows sd) (fun r =>
      horizontalBars sd minLength safeMaxLength (INR (rows sd)) cellW r
      ≫= fun ps =>
        Some (map (fun q => Gfx.Segment (fst q) (INR r * cellH + cellH / 2)
                              (snd q) (INR r * cellH + cellH / 2)) ps)).
Proof.
  apply for_loop_ext. intros r _. cbv zeta.
  unfold horizontalBars. cbv zeta. rewrite <- for_loop_map.
  apply for_loop_ext. intros c _.
  destruct (sampleBilinear _ _ _ _ _); [|reflexivity].
  cbn [mbind option_bind]. destruct (Js.ltb _ _); reflexivity.
Qed.

Lemma horizontal_init_stored sd p W H st :
  HorizontalLinesAnim.init sd p W H = Some st ->
  exists maxLength minLength rows,
    Js.num (Js.spread HorizontalLinesAnim.getDefaultParams p) "maxLength"
      = Some maxLength /\
    Js.num (Js.spread HorizontalLinesAnim.getDefaultParams p) "minLength"
      = Some minLength /\
    Js.nullish (Js.spread HorizontalLinesAnim.getDefaultParams p) "rows"
      (INR (SvgSampler.rows sd)) = Some rows /\
    HorizontalLinesAnim.params st
      = Js.spread HorizontalLinesAnim.getDefaultParams p /\
    HorizontalLinesAnim.rows st = rows /\
    HorizontalLinesAnim.cellH st = H / rows /\
    stored
      (fun r o k =>
         HorizontalLinesAnim.Meta (INR r * (H / rows) + H / rows / 2) o k)
      (horizontalBars sd minLength (Rmax maxLength minLength) rows
         (W / INR (cols sd)))
      (HorizontalLinesAnim.rowMeta st, HorizontalLinesAnim.segData st)
      (Js.passes rows).
Proof.
  unfold HorizontalLinesAnim.init. cbv zeta. intros E.
  destruct (Js.num _ "maxLength") as [maxLength|]; [|discriminate].
  destruct (Js.num _ "minLength") as [minLength|]; [|discriminate].
  cbn [mbind option_bind] in E.
  destruct (Js.nullish _ "rows" _) as [rows|]; [|discriminate].
  cbn [mbind option_bind] in E.
  destruct (Js.foldM _ _ _) as [[metas flat]|] eqn:Efold; [|discriminate].
  cbn [mbind option_bind] in E. apply (inj Some) in E. subst st.
  exists maxLength, minLength, rows.
  cbn [HorizontalLinesAnim.params HorizontalLinesAnim.rows
       HorizontalLinesAnim.cellH HorizontalLinesAnim.rowMeta
       HorizontalLinesAnim.segData].
  repeat (split; [reflexivity|]).
  refine (fold_lines _ _ _ _ (Js.passes rows) 0 ([], []) _
            (stored_nil _ _) Efold).
  intros ms fl r. unfold HorizontalLinesAnim.init_row.
  rewrite horizontal_row_ends.
  destruct (horizontalBars _ _ _ _ _ _) as [ps|]; [|reflexivity].
  cbn [mbind option_bind]. rewrite ends_length, Nat.div_mul by lia.
  reflexivity.
Qed.

Lemma horizontal_frame_loop rowMeta segData n
    (bars : nat -> option (list (R * R))) (cy : nat -> R)
    (strokeW : nat -> R) :
  stored (fun r o k => HorizontalLinesAnim.Meta (cy r) o k) bars
    (rowMeta, segData) n ->
  Js.for_loop n (fun r =>
    match rowMeta !! r with
    | None => Some []
    | Some m =>
      if (HorizontalLinesAnim.segCount m =? 0)%nat then Some []
      else
        Js.for_loop (HorizontalLinesAnim.segCount m) (fun s =>
          x1 ← segData !! (HorizontalLinesAnim.segOffset m + s * 2)%nat;
          x2 ← segData !! (HorizontalLinesAnim.segOffset m + s * 2 + 1)%nat;
          Some [Gfx.Stroke (Gfx.Segment x1 (HorizontalLinesAnim.y m)
                              x2 (HorizontalLinesAnim.y m)) (strokeW r)])
    end)
  = Js.for_loop n (fun r =>
      bars r ≫= fun ps =>
        Some (map (fun q => Gfx.Stroke (Gfx.Segment (fst q) (cy r)
                                          (snd q) (cy r)) (strokeW r))
                  ps)).
Proof.
  intros [Hlen Hall]. cbn [fst snd] in *.
  apply for_loop_ext. intros r Hr.
  destruct (rowMeta !! r) as [m|] eqn:Em.
  - destruct (Hall r m Em) as (o & ps & -> & -> & Hps).
    cbn [mbind option_bind HorizontalLinesAnim.segCount
         HorizontalLinesAnim.segOffset HorizontalLinesAnim.y].
    destruct (length ps =? 0)%nat eqn:E0.
    + apply Nat.eqb_eq in E0. destruct ps; [reflexivity | discriminate].
    + apply (read_bars _ o ps
               (fun a b => Gfx.Stroke (Gfx.Segment a (cy r) b (cy r))
                             (strokeW r)) Hps).
  - apply lookup_ge_None in Em. lia.
Qed.

(** X10. With the number of rows left to the grid, every frame of Horizontal
    Lines can be drawn and shows exactly the bars of the static output,
    in the same order, whatever the time: the flat array of [init] is
    read back without loss.  Only the stroke width differs; it stays
    between the least and the greatest width of the frame, at most 1.35
    row heights. *)
Theorem horizontal_frames_draw_static_bars sd p W H gen st a b :
  numeric_params p ->
  Js.nullish p "rows" (INR (rows sd)) = Some (INR (rows sd)) ->
  HorizontalLines.generate sd p W H = Some gen ->
  HorizontalLinesAnim.init sd p W H = Some st ->
  Js.num (Js.spread HorizontalLinesAnim.getDefaultParams p) "minStroke"
    = Some a ->
  Js.num (Js.spread HorizontalLinesAnim.getDefaultParams p) "maxStroke"
    = Some b ->
  let hi := Rmin (Rmax a b) (H / INR (rows sd) * 1.35) in
  let lo := Rmin a hi in
  Forall (fun s => Gfx.y1 s = Gfx.y2 s) (Gfx.pathD gen) /\
  forall t, exists out,
    HorizontalLinesAnim.drawFrame st t = Some out /\
    map Gfx.seg (Gfx.prims out) = Gfx.pathD gen /\
    Forall (fun k => lo <= Gfx.lineWidth k <= hi) (Gfx.prims out).
Proof.
  intros Hp Hrows Hgen Hinit Ea Eb hi lo.
  destruct (horizontal_init_stored sd p W H st Hinit)
    as (maxLength & minLength & rows & EmaxL & EminL & Erows & Eparams
        & Erows' & EcellH & Hstored).
  assert (rows = INR (SvgSampler.rows sd)) as ->.
  { revert Erows Hrows. unfold Js.nullish. rewrite spread_lookup.
    destruct (p !! "rows") as [[x| |x]|]; try discriminate.
    - congruence.
    - intros E _. now apply (inj Some) in E.
    - unfold_defaults. read_literal. intros E _.
      now apply (inj Some) in E. }
  rewrite passes_INR in Hstored.
  unfold HorizontalLines.generate in Hgen. cbv zeta in Hgen.
  assert (EmaxL' : Js.num (Js.spread HorizontalLines.getDefaultParams p)
                     "maxLength" = Some maxLength)
    by (rewrite <- EmaxL; now apply num_agree).
  assert (EminL' : Js.num (Js.spread HorizontalLines.getDefaultParams p)
                     "minLength" = Some minLength)
    by (rewrite <- EminL; now apply num_agree).
  rewrite EmaxL', EminL' in Hgen.
  destruct (Js.num _ "minStroke") as [minStroke|]; [|discriminate].
  destruct (Js.num _ "maxStroke") as [maxStroke|]; [|discriminate].
  cbn [mbind option_bind] in Hgen.
  destruct (_ !! "color") as [color|]; [|discriminate].
  cbn [mbind option_bind] in Hgen.
  rewrite horizontal_generate_loop in Hgen.
  match type of Hgen with
  | ?loop ≫= _ = _ => destruct loop as [pathD|] eqn:Estatic
  end; [|discriminate].
  cbn [mbind option_bind] in Hgen. apply (inj Some) in Hgen. subst gen.
  cbn [Gfx.pathD].
  set (bars := horizontalBars sd minLength (Rmax maxLength minLength)
                 (INR (SvgSampler.rows sd)) (W / INR (cols sd))) in *.
  split.
  - apply Stdlib.Lists.List.Forall_forall. intros s Hs.
    destruct (for_loop_In _ _ _ _ Estatic Hs) as (r & o & _ & Eo & Hso).
    destruct (bars r) as [ps|]; [|discriminate].
    apply (inj Some) in Eo. subst o.
    apply in_map_iff in Hso as (q & <- & _). reflexivity.
  - intros t. unfold HorizontalLinesAnim.drawFrame.
    rewrite Eparams, Ea, Eb, Erows', EcellH, passes_INR.
    read_numeric Hp.
    rewrite (horizontal_frame_loop _ _ _ _ _ _ Hstored).
    match goal with
    | |- context [Js.for_loop (SvgSampler.rows sd) ?body] =>
        destruct (Js.for_loop (SvgSampler.rows sd) body)
          as [strokes|] eqn:Estrokes
    end.
    2:{ exfalso. revert Estrokes.
        change (?x = None -> False) with (x <> None).
        apply not_eq_None_Some, for_loop_is_Some.
        intros r Hr. cbv beta.
        destruct (for_loop_passes _ _ _ Estatic r Hr) as [o Eo].
        destruct (bars r); [eauto | discriminate]. }
    cbn [mbind option_bind]. eexists. split; [reflexivity|].
    cbn [Gfx.prims]. split.
    + apply (inj Some). rewrite <- Estatic.
      change (Some (map Gfx.seg strokes))
        with (Some strokes ≫= fun o => Some (map Gfx.seg o)).
      rewrite <- Estrokes, <- for_loop_map.
      apply for_loop_ext. intros r _.
      destruct (bars r) as [ps|]; [|reflexivity].
      cbn [mbind option_bind]. now rewrite map_map.
    + apply Stdlib.Lists.List.Forall_forall. intros k Hk.
      destruct (for_loop_In _ _ _ _ Estrokes Hk)
        as (r & o & _ & Eo & Hko).
      destruct (bars r) as [ps|]; [|discriminate].
      apply (inj Some) in Eo. subst o.
      apply in_map_iff in Hko as (q & <- & _). cbn [Gfx.lineWidth].
      replace (Rmin a (Rmax a b)) with a
        by (symmetry; apply Rmin_left, Rmax_l).
      fold hi. fold lo.
      apply lerp_ordered; [apply Rmin_r | apply wave_unit].
Qed.

Lemma horizontal_frames_draw_static_bars_witness :
  exists gen st,
    HorizontalLines.generate white1 ∅ 100 8 = Some gen /\
    HorizontalLinesAnim.init white1 ∅ 100 8 = Some st /\
    Forall (fun s => Gfx.y1 s = Gfx.y2 s) (Gfx.pathD gen) /\
    forall t, exists out,
      HorizontalLinesAnim.drawFrame st t = Some out /\
      map Gfx.seg (Gfx.prims out) = Gfx.pathD gen /\
      Forall (fun k => Rmin 0.5 (Rmin (Rmax 0.5 6)
                                   (8 / INR (rows white1) * 1.35))
                       <= Gfx.lineWidth k
                       <= Rmin (Rmax 0.5 6) (8 / INR (rows white1) * 1.35))
             (Gfx.prims out).
Proof.
  destruct (horizontal_generate_defaults white1 (single_wf 1)
              (le_n 1) (le_n 1) 100 8) as [gen Eg].
  destruct (horizontal_init_defaults white1 (single_wf 1)
              (le_n 1) (le_n 1) 100 8) as [st Ei].
  exists gen, st. refine (conj Eg (conj Ei _)).
  apply (horizontal_frames_draw_static_bars white1 ∅ 100 8 gen st 0.5 6
           numeric_params_empty); try assumption.
  - unfold Js.nullish. now rewrite lookup_empty.
  - unfold Js.num. rewrite spread_lookup, lookup_empty. reflexivity.
  - unfold Js.num. rewrite spread_lookup, lookup_empty. reflexivity.
Defined.

End HorizontalFrames.

(** ** Ellipse Grid: the frames against the static ellipses *)

Section EllipseFrames.
Local Open Scope R_scope.
Import MathUtils Spec SvgSampler Layout.

Lemma quad_lookup cells : forall i q, cells !! i = Some q ->
  flat_map quad cells !! (i * 4 + 0)%nat = Some (fst (fst (fst q))) /\
  flat_map quad cells !! (i * 4 + 1)%nat = Some (snd (fst (fst q))) /\
  flat_map quad cells !! (i * 4 + 2)%nat = Some (snd (fst q)) /\
  flat_map quad cells !! (i * 4 + 3)%nat = Some (snd q).
Proof.
  induction cells as [|[[[cx cy] b] ph] cells IH]; intros [|i] q E;
    try discriminate.
  - cbn in E. apply (inj Some) in E. subst q. now repeat split.
  - cbn in E. apply IH in E. exact E.
Qed.

Lemma ellipseCells_length sd cols rows cellW cellH ryMax cells :
  ellipseCells sd cols rows cellW cellH ryMax = Some cells ->
  length cells = (Z.to_nat rows * Js.passes cols)%nat.
Proof.
  unfold ellipseCells. intros E.
  apply (for_loop_length _ (Js.passes cols)) in E; [exact E|].
  intros r o _ Eo.
  apply (for_loop_length _ 1) in Eo; [lia|].
  intros c o' _ Eo'.
  destruct (sampleBilinear _ _ _ _ _); [|discriminate].
  apply (inj Some) in Eo'. now subst o'.
Qed.

(** The loop of a frame over the stored cells. *)
Lemma ellipse_frame_loop cells speed eccentricity pulseFrac t :
  Js.for_loop (length cells) (fun i =>
    cx ← flat_map quad cells !! (i * 4 + 0)%nat;
    cy ← flat_map quad cells !! (i * 4 + 1)%nat;
    baseRy ← flat_map quad cells !! (i * 4 + 2)%nat;
    phase ← flat_map quad cells !! (i * 4 + 3)%nat;
    let pulse := 0.5 + 0.5 * sin (t * speed + phase) in
    let ry := lerp (baseRy * (1 - pulseFrac)) baseRy pulse in
    let rx := Rmax (ry * eccentricity) 0.5 in
    if Js.ltb ry 0.5 then Some []
    else Some [Gfx.Ellipse cx cy rx ry])
  = Some (flat_map (frameEllipse speed eccentricity pulseFrac t) cells).
Proof.
  apply for_loop_stored. intros i [[[cx cy] b] ph] E.
  destruct (quad_lookup cells i _ E) as (-> & -> & -> & ->).
  cbn [mbind option_bind fst snd frameEllipse]. cbv zeta.
  destruct (Js.ltb _ _); reflexivity.
Qed.

Lemma frameEllipse_within speed eccentricity pulseFrac t q e :
  0 <= pulseFrac <= 1 -> 0 <= eccentricity ->
  In e (frameEllipse speed eccentricity pulseFrac t q) ->
  0.5 <= Gfx.ry e /\ 0.5 <= Gfx.rx e /\
  Gfx.ecx e = Gfx.ecx (staticEllipse eccentricity q) /\
  Gfx.ecy e = Gfx.ecy (staticEllipse eccentricity q) /\
  Gfx.ry e <= Gfx.ry (staticEllipse eccentricity q) /\
  Gfx.rx e <= Gfx.rx (staticEllipse eccentricity q).
Proof.
  intros Hpf Hecc. destruct q as [[[cx cy] b] ph].
  unfold frameEllipse, staticEllipse. cbv zeta.
  set (pulse := 0.5 + 0.5 * sin (t * speed + ph)).
  assert (Hpulse : 0 <= pulse <= 1) by apply wave_unit.
  set (ry := lerp (b * (1 - pulseFrac)) b pulse).
  destruct (Js.ltb ry 0.5) eqn:Ecut; [intros []|].
  intros [<-|[]]. cbn [Gfx.ecx Gfx.ecy Gfx.rx Gfx.ry].
  apply ltb_false in Ecut.
  assert (Hry : ry <= b).
  { destruct (Rle_lt_dec 0 b) as [Hb|Hb].
    - assert (b * (1 - pulseFrac) <= b) by nra.
      apply (lerp_ordered (b * (1 - pulseFrac)) b pulse); lra.
    - exfalso. unfold ry, lerp in Ecut.
      replace (b - b * (1 - pulseFrac)) with (b * pulseFrac) in Ecut
        by ring.
      assert (b * (1 - pulseFrac) <= 0) by nra.
      assert (b * pulseFrac <= 0) by nra.
      assert (b * pulseFrac * pulse <= 0) by nra.
      lra. }
  repeat split; try lra.
  - apply Rmax_r.
  - apply Rmax_lub; [|apply Rmax_r].
    eapply Rle_trans; [|apply Rmax_l]. nra.
Qed.

Lemma ellipse_static_loop sd cols rows cellW cellH ryMax eccentricity :
  Js.for_loop (Z.to_nat rows) (fun r =>
    Js.for_loop (Js.passes cols) (fun c =>
      let u := Js.latticeCoord cols c in
      let v := Js.latticeCoord (IZR rows) r in
      brightness ← sampleBilinear (grid sd) (SvgSampler.cols sd)
                     (SvgSampler.rows sd) u v;
      let darkness := 1 - brightness in
      let cx := INR c * cellW + cellW / 2 in
      let cy := INR r * cellH + cellH / 2 in
      let ry := lerp 0 ryMax darkness in
      let rx := Rmax (ry * eccentricity) 0.5 in
      if Js.ltb rx 0.3 && Js.ltb ry 0.3 then Some []
      else Some [Gfx.Ellipse cx cy rx ry]))
  = ellipseCells sd cols rows cellW cellH ryMax
    ≫= fun cells => Some (flat_map (fun q => [staticEllipse eccentricity q])
                            cells).
Proof.
  unfold ellipseCells. apply loops_related. intros r c. cbv zeta.
  destruct (sampleBilinear _ _ _ _ _); [|reflexivity].
  cbn [mbind option_bind]. now rewrite ellipse_skip_test_dead.
Qed.

Lemma ellipse_init_loop sd cols rows cellW cellH ryMax :
  Js.for_loop (Z.to_nat rows) (fun r =>
    Js.for_loop (Js.passes cols) (fun c =>
      let u := Js.latticeCoord cols c in
      let v := Js.latticeCoord (IZR rows) r in
      brightness ← sampleBilinear (grid sd) (SvgSampler.cols sd)
                     (SvgSampler.rows sd) u v;
      let darkness := 1 - brightness in
      let cx := INR c * cellW + cellW / 2 in
      let cy := INR r * cellH + cellH / 2 in
      let baseRy := lerp 0 ryMax darkness in
      let phase := (INR r + INR c) * 0.35 in
      Some [cx; cy; baseRy; phase]))
  = ellipseCells sd cols rows cellW cellH ryMax
    ≫= fun cells => Some (flat_map quad cells).
Proof.
  unfold ellipseCells. apply loops_related. intros r c. cbv zeta.
  destruct (sampleBilinear _ _ _ _ _); reflexivity.
Qed.

(** X11. For a whole number of columns and sample data whose aspect is that
    of its grid: the static Ellipse Grid draws exactly one ellipse per
    lattice cell, and every frame of the animated variant can be drawn,
    each of its ellipses having the centre of the static ellipse of its
    cell, radii of at least 0.5 and no radius greater than the static
    one. *)
Theorem ellipse_frames_within_static sd p W H n pf ecc gen st :
  numeric_params p ->
  aspect sd = INR (cols sd) / INR (rows sd) ->
  Js.num (Js.spread EllipseGridAnim.getDefaultParams p) "cols"
    = Some (INR n) ->
  Js.num (Js.spread EllipseGridAnim.getDefaultParams p) "pulseFrac"
    = Some pf ->
  Js.num (Js.spread EllipseGridAnim.getDefaultParams p) "eccentricity"
    = Some ecc ->
  0 <= pf <= 1 -> 0 <= ecc ->
  EllipseGrid.generate sd p W H = Some gen ->
  EllipseGridAnim.init sd p W H = Some st ->
  length (Gfx.prims gen)
    = (Z.to_nat (Z.max 1 (Js.round (INR n / aspect sd))) * n)%nat /\
  forall t, exists out,
    EllipseGridAnim.drawFrame st t = Some out /\
    forall e, In e (Gfx.prims out) ->
      0.5 <= Gfx.ry e /\ 0.5 <= Gfx.rx e /\
      exists e', In e' (Gfx.prims gen) /\
        Gfx.ecx e = Gfx.ecx e' /\ Gfx.ecy e = Gfx.ecy e' /\
        Gfx.ry e <= Gfx.ry e' /\ Gfx.rx e <= Gfx.rx e'.
Proof.
  intros Hp Hasp Ecols Epf Eecc Hpf Hecc Hgen Hinit.
  unfold EllipseGridAnim.init in Hinit. cbv zeta in Hinit.
  rewrite Ecols in Hinit.
  destruct (Js.num _ "maxRy") as [maxRy|] eqn:EmaxRy; [|discriminate].
  cbn [mbind option_bind] in Hinit.
  rewrite ellipse_init_loop in Hinit. rewrite <- Hasp in Hinit.
  set (rows := Z.max 1 (Js.round (INR n / aspect sd))) in *.
  destruct (ellipseCells _ _ _ _ _ _) as [cells|] eqn:Ecells;
    [|discriminate].
  cbn [mbind option_bind] in Hinit. apply (inj Some) in Hinit. subst st.
  unfold EllipseGrid.generate in Hgen. cbv zeta in Hgen.
  rewrite (num_agree EllipseGrid.getDefaultParams
             EllipseGridAnim.getDefaultParams p "cols" eq_refl),
    Ecols in Hgen.
  rewrite (num_agree EllipseGrid.getDefaultParams
             EllipseGridAnim.getDefaultParams p "maxRy" eq_refl),
    EmaxRy in Hgen.
  rewrite (num_agree EllipseGrid.getDefaultParams
             EllipseGridAnim.getDefaultParams p "eccentricity"
             eq_refl), Eecc in Hgen.
  cbn [mbind option_bind] in Hgen.
  destruct (_ !! "color") as [color|] eqn:Ecolor; [|discriminate].
  cbn [mbind option_bind] in Hgen. fold rows in Hgen.
  rewrite ellipse_static_loop, Ecells in Hgen.
  cbn [mbind option_bind] in Hgen. apply (inj Some) in Hgen. subst gen.
  cbn [Gfx.prims].
  pose proof (ellipseCells_length _ _ _ _ _ _ _ Ecells) as Hlen.
  rewrite passes_INR in Hlen.
  split.
  - rewrite <- Hlen. clear. induction cells as [|q cells IH]; cbn; auto.
  - intros t. unfold EllipseGridAnim.drawFrame.
    cbn [EllipseGridAnim.params EllipseGridAnim.cols EllipseGridAnim.rows
         EllipseGridAnim.cellData].
    rewrite Epf, Eecc. read_numeric Hp.
    assert (Htotal : Js.passes (INR n * IZR rows) = length cells).
    { rewrite INR_IZR_INZ, <- mult_IZR, passes_IZR, Hlen.
      rewrite Z2Nat.inj_mul by (unfold rows; lia).
      rewrite Nat2Z.id. lia. }
    rewrite Htotal, ellipse_frame_loop. cbn [mbind option_bind].
    eexists. split; [reflexivity|]. cbn [Gfx.prims].
    intros e He. apply in_flat_map in He as (q & Hq & He).
    destruct (frameEllipse_within _ _ _ _ _ _ Hpf Hecc He)
      as (H1 & H2 & H3 & H4 & H5 & H6).
    refine (conj H1 (conj H2 _)).
    exists (staticEllipse ecc q). split; [|auto].
    apply in_flat_map. exists q. split; [exact Hq | now left].
Qed.

Lemma ellipse_frames_within_static_witness :
  exists gen st,
    EllipseGrid.generate black1 oneCol 1000 1000 = Some gen /\
    EllipseGridAnim.init black1 oneCol 1000 1000 = Some st /\
    length (Gfx.prims gen)
      = (Z.to_nat (Z.max 1 (Js.round (INR 1 / aspect black1))) * 1)%nat /\
    forall t, exists out,
      EllipseGridAnim.drawFrame st t = Some out /\
      forall e, In e (Gfx.prims out) ->
        0.5 <= Gfx.ry e /\ 0.5 <= Gfx.rx e /\
        exists e', In e' (Gfx.prims gen) /\
          Gfx.ecx e = Gfx.ecx e' /\ Gfx.ecy e = Gfx.ecy e' /\
          Gfx.ry e <= Gfx.ry e' /\ Gfx.rx e <= Gfx.rx e'.
Proof.
  pose proof ellipse_frame_black1 as E.
  destruct (EllipseGridAnim.init black1 oneCol 1000 1000) as [st|] eqn:Ei;
    [|discriminate].
  eexists _, st. refine (conj ellipse_static_black1 (conj eq_refl _)).
  assert (Hone : numeric_params oneCol).
  { intros k v Hk.
    change oneCol
      with (<["cols"%string := Js.Num 1]> (∅ : gmap string Js.value)) in Hk.
    apply lookup_insert_Some in Hk as [[_ <-]|[_ Hk]].
    - right. right. now exists 1.
    - rewrite lookup_empty in Hk. discriminate. }
  apply (ellipse_frames_within_static black1 oneCol 1000 1000 1 0.5 0.40
           _ st Hone); try lra; try assumption.
  - cbn. lra.
  - unfold Js.num, oneCol. rewrite spread_lookup. read_literal.
    reflexivity.
  - unfold Js.num, oneCol. rewrite spread_lookup. read_literal.
    reflexivity.
  - unfold Js.num, oneCol. rewrite spread_lookup. read_literal.
    reflexivity.
  - exact ellipse_static_black1.
Defined.

End EllipseFrames.

(** ** Particle Scatter: the weighted choice of a cell *)

Section WeightedChoice.
Local Open Scope R_scope.
Import MathUtils Spec SvgSampler.

Lemma cellWeights_floor sd ws :
  ParticleScatter.cellWeights sd = Some ws ->
  Forall (fun w => 0.02 <= w) ws.
Proof.
  intros Ews. apply Stdlib.Lists.List.Forall_forall. intros w Hw.
  unfold ParticleScatter.cellWeights in Ews.
  destruct (for_loop_In _ _ _ _ Ews Hw) as (r & row & _ & Erow & Hrow).
  destruct (for_loop_In _ _ _ _ Erow Hrow) as (c & o & _ & Eo & Ho).
  destruct (grid sd !! r) as [gr|]; [|discriminate].
  cbn [mbind option_bind] in Eo.
  destruct (gr !! c) as [g|]; [|discriminate].
  cbn [mbind option_bind] in Eo. apply (inj Some) in Eo. subst o.
  destruct Ho as [<- | []].
  pose proof (pow_nonneg (1 - g) ParticleScatter.densityPower). lra.
Qed.

Lemma cellWeights_length sd ws :
  ParticleScatter.cellWeights sd = Some ws ->
  length ws = (rows sd * cols sd)%nat.
Proof.
  unfold ParticleScatter.cellWeights. intros E.
  apply (for_loop_length _ (cols sd)) in E; [exact E|].
  intros r o _ Eo.
  apply (for_loop_length _ 1) in Eo; [lia|].
  intros c o' _ Eo'.
  destruct (grid sd !! r) as [gr|]; [|discriminate].
  cbn [mbind option_bind] in Eo'.
  destruct (gr !! c) as [g|]; [|discriminate].
  apply (inj Some) in Eo'. now subst o'.
Qed.

Lemma cumulative_first acc w ws :
  nth 0 (ParticleScatter.cumulative acc (w :: ws)) 0 = acc + w.
Proof. reflexivity. Qed.

Lemma cumulative_next ws : forall acc i,
  (S i < length ws)%nat ->
  nth (S i) (ParticleScatter.cumulative acc ws) 0
  = nth i (ParticleScatter.cumulative acc ws) 0 + nth (S i) ws 0.
Proof.
  induction ws as [|w ws IH]; intros acc i Hi; [cbn in Hi; lia|].
  cbn [length] in Hi. cbn [ParticleScatter.cumulative].
  destruct i as [|i].
  - destruct ws as [|w' ws]; [cbn in Hi; lia|]. reflexivity.
  - change (nth (S (S i)) (?a :: ?l) 0) with (nth (S i) l 0).
    change (nth (S i) (?a :: ?l) 0) with (nth i l 0).
    change (nth (S (S i)) (w :: ws) 0) with (nth (S i) ws 0).
    apply IH. lia.
Qed.

Lemma cumulative_sorted ws acc :
  Forall (fun w => 0.02 <= w) ws ->
  forall i j, (i <= j < length (ParticleScatter.cumulative acc ws))%nat ->
  nth i (ParticleScatter.cumulative acc ws) 0
  <= nth j (ParticleScatter.cumulative acc ws) 0.
Proof.
  intros Hpos i j [Hij Hj]. rewrite cumulative_length in Hj.
  induction j as [|j IH].
  - assert (i = 0)%nat as -> by lia. lra.
  - destruct (Nat.eq_dec i (S j)) as [->|Hne]; [lra|].
    rewrite cumulative_next by exact Hj.
    assert (0.02 <= nth (S j) ws 0).
    { apply (proj1 (Stdlib.Lists.List.Forall_forall _ _) Hpos).
      now apply nth_In. }
    specialize (IH ltac:(lia) ltac:(lia)). lra.
Qed.

(** X12. The binary search picks, for a target up to the total weight, the
    first cell whose running total reaches the target.  The running
    totals rise from cell to cell by the weight of the cell, which is at
    least 0.02: a target drawn uniformly hits a cell with a probability
    proportional to its weight, and no cell is left out. *)
Theorem pickCell_is_weighted sd ws target :
  ParticleScatter.cellWeights sd = Some ws -> ws <> [] ->
  let weights := ParticleScatter.cumulative 0 ws in
  target <= List.last weights 0 ->
  let k := ParticleScatter.pickCell weights target in
  (k < rows sd * cols sd)%nat /\
  (forall i, (i < k)%nat -> nth i weights 0 < target) /\
  target <= nth k weights 0 /\
  nth 0 weights 0 = nth 0 ws 0 /\
  (forall i, (S i < length ws)%nat ->
     nth (S i) weights 0 = nth i weights 0 + nth (S i) ws 0) /\
  Forall (fun w => 0.02 <= w) ws.
Proof.
  intros Ews Hne weights Htarget k.
  pose proof (cellWeights_floor sd ws Ews) as Hfloor.
  pose proof (cellWeights_length sd ws Ews) as Hlen.
  assert (Hwl : length weights = length ws) by apply cumulative_length.
  assert (Hpos : (0 < length ws)%nat).
  { destruct ws; [contradiction | cbn; lia]. }
  assert (Hlast : List.last weights 0 = nth (length weights - 1) weights 0).
  { apply last_is_nth. intros E. rewrite E in Hwl. cbn in Hwl. lia. }
  destruct (search_spec weights target
              (cumulative_sorted ws 0 Hfloor)
              (length weights) 0 (length weights - 1))
    as (Hr & Hbelow & Hat); [lia | lia | intros; lia | now left |].
  fold (ParticleScatter.pickCell weights target) in Hr, Hbelow, Hat.
  fold k in Hr, Hbelow, Hat.
  refine (conj _ (conj Hbelow (conj _ (conj _ (conj _ Hfloor))))).
  - lia.
  - destruct Hat as [-> | Hat]; [now rewrite <- Hlast | exact Hat].
  - unfold weights. destruct ws as [|w ws']; [contradiction|].
    rewrite cumulative_first. cbn. lra.
  - intros i Hi. now apply cumulative_next.
Qed.

Lemma pickCell_is_weighted_witness :
  let ws := [Js.pow (1 - 1) ParticleScatter.densityPower + 0.02] in
  let weights := ParticleScatter.cumulative 0 ws in
  let k := ParticleScatter.pickCell weights 0.01 in
  (k < rows white1 * cols white1)%nat /\
  (forall i, (i < k)%nat -> nth i weights 0 < 0.01) /\
  0.01 <= nth k weights 0 /\
  nth 0 weights 0 = nth 0 ws 0 /\
  (forall i, (S i < length ws)%nat ->
     nth (S i) weights 0 = nth i weights 0 + nth (S i) ws 0) /\
  Forall (fun w => 0.02 <= w) ws.
Proof.
  apply (pickCell_is_weighted white1
           [Js.pow (1 - 1) ParticleScatter.densityPower + 0.02] 0.01).
  - reflexivity.
  - discriminate.
  - cbn. pose proof (pow_nonneg (1 - 1) ParticleScatter.densityPower). lra.
Defined.

End WeightedChoice.

(** ** Particle Scatter: number and place of the dots, in every frame *)

Section ScatterFrames.
Local Open Scope R_scope.
Import MathUtils Spec SvgSampler.

Lemma dots_count sd weights tw cw ch W H scatter rmin rmax n :
  forall s out,
  ParticleScatter.dots sd weights tw cw ch W H scatter rmin rmax n s
    = Some out ->
  (length out <= n)%nat.
Proof.
  induction n as [|n IH]; intros s out E; cbn [ParticleScatter.dots] in E.
  - apply (inj Some) in E. subst out. cbn. lia.
  - destruct (ParticleScatter.place _ _ _ _ _ _ _ _ _ _ s)
      as [[s' placed]|]; [|discriminate].
    cbn [mbind option_bind] in E.
    destruct placed as [[[px py] baseR]|]; [|apply IH in E; lia].
    unfold rand in E. cbv zeta in E.
    destruct (Js.ltb _ 0.15); [apply IH in E; lia|].
    destruct (ParticleScatter.dots _ _ _ _ _ _ _ _ _ _ n _) as [rest|] eqn:Er;
      [|discriminate].
    cbn [mbind option_bind] in E. apply (inj Some) in E. subst out.
    apply IH in Er. cbn. lia.
Qed.

Lemma particles_spec sd weights tw cw ch W H scatter rmin rmax n :
  forall s ps,
  ParticleScatterAnim.particles
    (ParticleScatter.place sd weights tw cw ch W H scatter rmin rmax) n s
    = Some ps ->
  (length ps <= n)%nat /\
  Forall (fun q => 0 <= ParticleScatterAnim.x q <= W /\
                   0 <= ParticleScatterAnim.y q <= H /\
                   0.15 <= ParticleScatterAnim.baseR q) ps.
Proof.
  induction n as [|n IH]; intros s ps E;
    cbn [ParticleScatterAnim.particles] in E.
  - apply (inj Some) in E. subst ps. split; [cbn; lia | constructor].
  - destruct (ParticleScatter.place _ _ _ _ _ _ _ _ _ _ s)
      as [[s' placed]|] eqn:Eplace; [|discriminate].
    cbn [mbind option_bind] in E.
    destruct placed as [[[px py] baseR]|].
    + unfold rand in E. cbv zeta in E.
      destruct (ParticleScatterAnim.particles _ n _) as [rest|] eqn:Er;
        [|discriminate].
      cbn [mbind option_bind] in E. apply (inj Some) in E. subst ps.
      destruct (IH _ _ Er) as [Hlen Hall].
      destruct (place_spec _ _ _ _ _ _ _ _ _ _ _ _ _ _ _ Eplace)
        as ([Hx Hy] & Hr & _).
      split; [cbn; lia|]. constructor; [|exact Hall].
      cbn [ParticleScatterAnim.x ParticleScatterAnim.y
           ParticleScatterAnim.baseR]. auto.
    + destruct (IH _ _ E) as [Hlen Hall]. split; [lia | exact Hall].
Qed.

(** The state of [init]: the particles kept by its loop, which the four
    typed arrays hold in order. *)
Lemma scatter_init_particles sd p W H st :
  ParticleScatterAnim.init sd p W H = Some st ->
  exists maxDots ps,
    Js.num (Js.spread ParticleScatterAnim.getDefaultParams p) "maxDots"
      = Some maxDots /\
    (length ps <= Z.to_nat (Z.max 1 (Js.round maxDots)))%nat /\
    Forall (fun q => 0 <= ParticleScatterAnim.x q <= W /\
                     0 <= ParticleScatterAnim.y q <= H /\
                     0.15 <= ParticleScatterAnim.baseR q) ps /\
    ParticleScatterAnim.params st
      = Js.spread ParticleScatterAnim.getDefaultParams p /\
    ParticleScatterAnim.count st = length ps /\
    forall i q, ps !! i = Some q ->
      ParticleScatterAnim.px st !! i = Some (ParticleScatterAnim.x q) /\
      ParticleScatterAnim.py st !! i = Some (ParticleScatterAnim.y q) /\
      ParticleScatterAnim.pr st !! i = Some (ParticleScatterAnim.baseR q) /\
      ParticleScatterAnim.ph st !! i = Some (ParticleScatterAnim.phase q).
Proof.
  unfold ParticleScatterAnim.init. cbv zeta. intros E.
  destruct (Js.num _ "maxDots") as [maxDots|]; [|discriminate].
  destruct (Js.num _ "maxRadius") as [maxRadius|]; [|discriminate].
  destruct (Js.num _ "minRadius") as [minRadius|]; [|discriminate].
  destruct (Js.num _ "seed") as [seed|]; [|discriminate].
  destruct (Js.num _ "scatter") as [scatter|]; [|discriminate].
  cbn [mbind option_bind] in E.
  destruct (ParticleScatter.cellWeights sd) as [ws|]; [|discriminate].
  cbn [mbind option_bind] in E.
  destruct (ParticleScatterAnim.particles _ _ _) as [ps|] eqn:Eps;
    [|discriminate].
  cbn [mbind option_bind] in E.
  destruct (Js.float32Array _ (map ParticleScatterAnim.x ps))
    as [ax|] eqn:Eax; [|discriminate].
  destruct (Js.float32Array _ (map ParticleScatterAnim.y ps))
    as [ay|] eqn:Eay; [|discriminate].
  destruct (Js.float32Array _ (map ParticleScatterAnim.baseR ps))
    as [ar|] eqn:Ear; [|discriminate].
  destruct (Js.float32Array _ (map ParticleScatterAnim.phase ps))
    as [ap|] eqn:Eap; [|discriminate].
  cbn [mbind option_bind] in E. apply (inj Some) in E. subst st.
  exists maxDots, ps.
  destruct (particles_spec _ _ _ _ _ _ _ _ _ _ _ _ _ Eps) as [Hlen Hall].
  cbn [ParticleScatterAnim.params ParticleScatterAnim.count
       ParticleScatterAnim.px ParticleScatterAnim.py
       ParticleScatterAnim.pr ParticleScatterAnim.ph].
  repeat (split; [first [reflexivity | assumption]|]).
  intros i q Hq.
  rewrite (float32Array_read _ _ ps ax i q Eax Hq),
    (float32Array_read _ _ ps ay i q Eay Hq),
    (float32Array_read _ _ ps ar i q Ear Hq),
    (float32Array_read _ _ ps ap i q Eap Hq).
  auto.
Qed.

Lemma drawParticle_length rmin speed t ps :
  (length (flat_map (drawParticle rmin speed t) ps) <= length ps)%nat.
Proof.
  induction ps as [|q ps IH]; [cbn; lia|].
  cbn [flat_map]. rewrite length_app.
  assert (length (drawParticle rmin speed t q) <= 1)%nat.
  { unfold drawParticle. cbv zeta. destruct (Js.ltb _ _); cbn; lia. }
  cbn [length]. lia.
Qed.

Lemma drawParticle_In rmin speed t q c :
  In c (drawParticle rmin speed t q) ->
  Gfx.ccx c = ParticleScatterAnim.x q /\
  Gfx.ccy c = ParticleScatterAnim.y q /\ 0.15 <= Gfx.radius c.
Proof.
  unfold drawParticle. cbv zeta.
  destruct (Js.ltb _ 0.15) eqn:Ecut; [intros []|].
  intros [<-|[]]. apply ltb_false in Ecut.
  cbn [Gfx.ccx Gfx.ccy Gfx.radius]. auto.
Qed.



End ScatterFrames.

(** ** Star Glint: jitter and size of the glyphs *)

Section GlintGeometry.
Local Open Scope R_scope.
Import MathUtils Spec SvgSampler.

Lemma pseudoRandom_range seed : 0 <= StarGlint.pseudoRandom seed < 1.
Proof. unfold StarGlint.pseudoRandom. cbv zeta. apply frac_range. Qed.

(** The glyph of a cell, when one is drawn. *)
Lemma glyph_geometry cols cellW maxScale sharpness jitter r c darkness g :
  0 <= cellW -> 0 <= jitter -> 0 <= darkness <= 1 ->
  In g (StarGlint.glyph cols cellW maxScale sharpness jitter r c darkness) ->
  INR c * cellW + 0.1 * cellW <= Gfx.gcx g <= INR c * cellW + 0.9 * cellW /\
  INR r * cellW + 0.1 * cellW <= Gfx.gcy g <= INR r * cellW + 0.9 * cellW /\
  0.5 <= Gfx.scale g /\
  Rmin 1 (Rmin maxScale (cellW * 1.5)) <= Gfx.scale g
    <= Rmax 1 (Rmin maxScale (cellW * 1.5)) /\
  Gfx.cpDist g = Gfx.scale g * (1 - sharpness).
Proof.
  intros HcW Hj Hd. unfold StarGlint.glyph. cbv zeta.
  set (seed := INR r * IZR cols + INR c).
  pose proof (pseudoRandom_range (seed * 1.1)) as Hrx.
  pose proof (pseudoRandom_range (seed * 1.2)) as Hry.
  set (jx := StarGlint.pseudoRandom (seed * 1.1)) in *.
  set (jy := StarGlint.pseudoRandom (seed * 1.2)) in *.
  set (ph := StarGlint.pseudoRandom (seed * 1.3) * PI * 2).
  pose proof (wave_unit ph) as Hwave.
  set (wave := 0.5 + 0.5 * sin ph) in *.
  set (mj := Rmin jitter (cellW * 0.8)).
  assert (Hmj : 0 <= mj <= cellW * 0.8).
  { unfold mj. split; [apply Rmin_glb; lra | apply Rmin_r]. }
  set (eff := Rmin maxScale (cellW * 1.5)).
  assert (Hweight : 0 <= lerp (darkness * 0.2) darkness wave <= 1).
  { pose proof (lerp_ordered (darkness * 0.2) darkness wave). lra. }
  set (weight := lerp (darkness * 0.2) darkness wave) in *.
  pose proof (lerp_between 1 eff weight Hweight) as Hscale.
  set (sc := lerp StarGlint.minScale eff weight).
  change (lerp 1 eff weight) with sc in Hscale.
  destruct (Js.ltb sc 0.5) eqn:Ecut; [intros []|].
  intros [<-|[]]. apply ltb_false in Ecut.
  cbn [Gfx.gcx Gfx.gcy Gfx.scale Gfx.cpDist].
  assert (- (0.4 * cellW) <= (jx - 0.5) * mj <= 0.4 * cellW) by nra.
  assert (- (0.4 * cellW) <= (jy - 0.5) * mj <= 0.4 * cellW) by nra.
  repeat split; try lra.
Qed.

(** X14. The static Star Glint draws cell by cell of its lattice, at
    most one glyph per cell.  The glyph of a cell has its centre moved
    from the centre of that cell by at most 0.4 cell widths in each
    direction, whatever the jitter asked for, so the centre stays inside
    its own cell; its size is at least 0.5 and lies between 1 and the scale
    limit, which is 1.5 cell widths at most; its control distance is the
    size times [1 - sharpness]. *)
Theorem glint_glyphs_stay_in_cells sd p W H density jitter maxScale
    sharpness out :
  wf_grid (grid sd) (cols sd) (rows sd) ->
  (forall r c g, cell (grid sd) r c = Some g -> 0 <= g <= 1) ->
  Js.num (Js.spread StarGlint.getDefaultParams p) "density"
    = Some density ->
  Js.num (Js.spread StarGlint.getDefaultParams p) "jitter" = Some jitter ->
  Js.num (Js.spread StarGlint.getDefaultParams p) "scale" = Some maxScale ->
  Js.num (Js.spread StarGlint.getDefaultParams p) "sharpness"
    = Some sharpness ->
  1 <= density -> 0 <= jitter -> 0 < W ->
  StarGlint.generate sd p W H = Some out ->
  let cols := Zfloor density in
  let cellW := W / IZR cols in
  let rows := Zfloor (H / cellW) in
  let limit := Rmin maxScale (cellW * 1.5) in
  exists cellGlyphs : nat -> nat -> list Gfx.glint,
    Gfx.prims out
    = flat_map (fun r => flat_map (cellGlyphs r) (seq 0 (Z.to_nat cols)))
        (seq 0 (Z.to_nat rows)) /\
    (length (Gfx.prims out) <= Z.to_nat rows * Z.to_nat cols)%nat /\
    forall r c,
      (length (cellGlyphs r c) <= 1)%nat /\
      forall g, In g (cellGlyphs r c) ->
        INR c * cellW + 0.1 * cellW <= Gfx.gcx g
          <= INR c * cellW + 0.9 * cellW /\
        INR r * cellW + 0.1 * cellW <= Gfx.gcy g
          <= INR r * cellW + 0.9 * cellW /\
        0.5 <= Gfx.scale g /\
        Rmin 1 limit <= Gfx.scale g <= Rmax 1 limit /\
        Gfx.cpDist g = Gfx.scale g * (1 - sharpness).
Proof.
  intros Hwf Hcells Edensity Ejitter Escale Esharp Hdensity Hjitter HW Hgen
    cols cellW rows limit.
  destruct (glint_generate_cells sd p W H density maxScale sharpness
              jitter out Edensity Escale Esharp Ejitter Hgen)
    as (_ & _ & Eout).
  fold cols cellW rows in Eout.
  match type of Eout with
  | _ = flat_map (fun r => flat_map (@?f r) _) _ => set (cellGlyphs := f) in *
  end.
  assert (Hcols : (1 <= cols)%Z) by (apply (Zfloor_lub 1); exact Hdensity).
  assert (HcW : 0 <= cellW).
  { unfold cellW. apply Rmult_le_pos; [lra|].
    apply Rlt_le, Rinv_0_lt_compat. apply IZR_lt. lia. }
  assert (Hone : forall r c, (length (cellGlyphs r c) <= 1)%nat).
  { intros r c. unfold cellGlyphs.
    destruct (sampleBilinear _ _ _ _ _); [|cbn; lia].
    destruct (Js.ltb _ 0.3); [cbn; lia|].
    unfold StarGlint.glyph. cbv zeta. destruct (Js.ltb _ _); cbn; lia. }
  exists cellGlyphs. refine (conj Eout (conj _ _)).
  - rewrite Eout.
    pose proof (flat_map_length_le
      (fun r => flat_map (cellGlyphs r) (seq 0 (Z.to_nat cols)))
      (Z.to_nat cols) (seq 0 (Z.to_nat rows))) as Hlen.
    rewrite length_seq in Hlen. apply Hlen. intros r.
    pose proof (flat_map_length_le (cellGlyphs r) 1
                  (seq 0 (Z.to_nat cols)) (Hone r)) as Hrow.
    rewrite length_seq in Hrow. lia.
  - intros r c. split; [apply Hone|]. intros g Hg.
    unfold cellGlyphs in Hg.
    destruct (sampleBilinear _ _ _ _ _) as [b|] eqn:Eb; [|destruct Hg].
    pose proof (sampleBilinear_range _ _ _ 0 1 _ _ b Hwf Hcells Eb) as Hb.
    destruct (Js.ltb (1 - b) 0.3) eqn:Ecut; [destruct Hg|].
    apply (glyph_geometry cols cellW maxScale sharpness jitter r c (1 - b));
      [exact HcW | exact Hjitter | lra | exact Hg].
Qed.

Lemma glint_glyphs_stay_in_cells_witness :
  exists out,
    StarGlint.generate black1 ∅ 1000 1000 = Some out /\
    let cols := Zfloor 80 in
    let cellW := 1000 / IZR cols in
    let rows := Zfloor (1000 / cellW) in
    let limit := Rmin 15 (cellW * 1.5) in
    exists cellGlyphs : nat -> nat -> list Gfx.glint,
      Gfx.prims out
      = flat_map (fun r => flat_map (cellGlyphs r) (seq 0 (Z.to_nat cols)))
          (seq 0 (Z.to_nat rows)) /\
      (length (Gfx.prims out) <= Z.to_nat rows * Z.to_nat cols)%nat /\
      forall r c,
        (length (cellGlyphs r c) <= 1)%nat /\
        forall g, In g (cellGlyphs r c) ->
          INR c * cellW + 0.1 * cellW <= Gfx.gcx g
            <= INR c * cellW + 0.9 * cellW /\
          INR r * cellW + 0.1 * cellW <= Gfx.gcy g
            <= INR r * cellW + 0.9 * cellW /\
          0.5 <= Gfx.scale g /\
          Rmin 1 limit <= Gfx.scale g <= Rmax 1 limit /\
          Gfx.cpDist g = Gfx.scale g * (1 - 0.7).
Proof.
  assert (HW : 0 < 1000) by lra.
  destruct (glint_generate_defaults black1 (single_wf 0) (le_n 1) (le_n 1)
              1000 1000 HW HW) as [out Eout].
  exists out. split; [exact Eout|].
  apply (glint_glyphs_stay_in_cells black1 ∅ 1000 1000 80 5 15 0.7 out);
    try lra; try exact Eout.
  - apply single_wf.
  - intros r c g E. apply single_cell in E. lra.
  - unfold Js.num. rewrite spread_lookup, lookup_empty. reflexivity.
  - unfold Js.num. rewrite spread_lookup, lookup_empty. reflexivity.
  - unfold Js.num. rewrite spread_lookup, lookup_empty. reflexivity.
  - unfold Js.num. rewrite spread_lookup, lookup_empty. reflexivity.
Defined.

End GlintGeometry.

(** ** Line Halftone: the pieces of a line *)

Section HalftonePieces.
Local Open Scope R_scope.
Import MathUtils Spec SvgSampler.

(** X15. The static Line Halftone draws row by row and, in a row, step
    by step: at most one piece per step, so at most 300 pieces per row.
    Every piece is a horizontal stroke on the centre line of its row that
    starts where its step starts and ends 0.5 after the step ends, so it
    overlaps the piece of the next step by 0.5 and a dark run reads as
    one line.  On a grid of brightness values its width lies between 0.5
    and the stroke limit, which is 1.8 row heights at most. *)
Theorem halftone_pieces_overlap sd p W H density contrast out :
  Js.num (Js.spread LineHalftone.getDefaultParams p) "density"
    = Some density ->
  Js.num (Js.spread LineHalftone.getDefaultParams p) "contrast"
    = Some contrast ->
  LineHalftone.generate sd p W H = Some out ->
  let rows := Z.to_nat (Zfloor density) in
  let cellH := H / IZR (Zfloor density) in
  let stepW := W / INR 300 in
  let limit := Rmin contrast (cellH * 1.8) in
  exists pieces : nat -> nat -> list Gfx.stroke,
    Gfx.prims out
    = flat_map (fun r => flat_map (pieces r) (seq 0 300)) (seq 0 rows) /\
    (forall r, (length (flat_map (pieces r) (seq 0 300)) <= 300)%nat) /\
    (length (Gfx.prims out) <= rows * 300)%nat /\
    (forall r c,
       (length (pieces r c) <= 1)%nat /\
       forall k, In k (pieces r c) ->
         Gfx.x1 (Gfx.seg k) = INR c * stepW /\
         Gfx.x2 (Gfx.seg k) = (INR c + 1) * stepW + 0.5 /\
         Gfx.y1 (Gfx.seg k) = INR r * cellH + cellH / 2 /\
         Gfx.y2 (Gfx.seg k) = Gfx.y1 (Gfx.seg k) /\
         (wf_grid (grid sd) (cols sd) (SvgSampler.rows sd) ->
          (forall r c g, cell (grid sd) r c = Some g -> 0 <= g <= 1) ->
          Rmin 0.5 limit <= Gfx.lineWidth k <= Rmax 0.5 limit)) /\
    (forall r c k k', In k (pieces r c) -> In k' (pieces r (S c)) ->
       Gfx.x2 (Gfx.seg k) = Gfx.x1 (Gfx.seg k') + 0.5).
Proof.
  intros Edensity Econtrast Hgen rows cellH stepW limit.
  unfold LineHalftone.generate in Hgen. cbv zeta in Hgen.
  rewrite Edensity, Econtrast in Hgen.
  destruct (Js.num _ "pulse") as [pulse|]; [|discriminate].
  cbn [mbind option_bind] in Hgen.
  destruct (_ !! "color") as [color|]; [|discriminate].
  cbn [mbind option_bind] in Hgen.
  change LineHalftone.stepsPerLine with 300%nat in Hgen.
  fold rows cellH stepW limit in Hgen.
  destruct (Js.for_loop _ _) as [paths|] eqn:Eloop; [|discriminate].
  cbn [mbind option_bind] in Hgen. apply (inj Some) in Hgen. subst out.
  cbn [Gfx.prims].
  apply nested_loops_flat in Eloop.
  match type of Eloop with
  | _ = flat_map (fun r => flat_map (@?f r) _) _ =>
      set (pieces := f) in *
  end.
  assert (Hone : forall r c, (length (pieces r c) <= 1)%nat).
  { intros r c. unfold pieces.
    destruct (sampleBilinear _ _ _ _ _); [|cbn; lia].
    cbn [mbind option_bind]. destruct (Js.ltb _ 0.3); cbn; lia. }
  assert (Hrow : forall r,
            (length (flat_map (pieces r) (seq 0 300)) <= 300)%nat).
  { intros r.
    pose proof (flat_map_length_le (pieces r) 1 (seq 0 300) (Hone r)) as Hl.
    rewrite length_seq in Hl. lia. }
  assert (Hpiece : forall r c k, In k (pieces r c) ->
            Gfx.x1 (Gfx.seg k) = INR c * stepW /\
            Gfx.x2 (Gfx.seg k) = (INR c + 1) * stepW + 0.5 /\
            Gfx.y1 (Gfx.seg k) = INR r * cellH + cellH / 2 /\
            Gfx.y2 (Gfx.seg k) = Gfx.y1 (Gfx.seg k) /\
            (wf_grid (grid sd) (cols sd) (SvgSampler.rows sd) ->
             (forall r c g, cell (grid sd) r c = Some g -> 0 <= g <= 1) ->
             Rmin 0.5 limit <= Gfx.lineWidth k <= Rmax 0.5 limit)).
  { intros r c k. unfold pieces.
    destruct (sampleBilinear _ _ _ _ _) as [b|] eqn:Eb; [|intros []].
    cbn [mbind option_bind].
    destruct (Js.ltb (1 - b) 0.3) eqn:Ecut; [intros []|].
    intros [<-|[]]. apply ltb_false in Ecut.
    cbn [Gfx.seg Gfx.lineWidth Gfx.x1 Gfx.x2 Gfx.y1 Gfx.y2].
    refine (conj _ (conj _ (conj _ (conj _ _)))); try lra; try field.
    intros Hwf Hcells.
    pose proof (sampleBilinear_range _ _ _ 0 1 _ _ b Hwf Hcells Eb) as Hb.
    match goal with
    | |- context [lerp (?d * 0.2) ?d ?w] =>
        assert (Hweight : 0 <= lerp (d * 0.2) d w <= 1);
        [ pose proof (wave_unit (INR c / (INR 300 - 1) * PI * 2 * pulse));
          pose proof (lerp_ordered (d * 0.2) d w); lra
        | set (weight := lerp (d * 0.2) d w) in * ]
    end.
    exact (lerp_between 0.5 limit weight Hweight). }
  exists pieces. refine (conj Eloop (conj Hrow (conj _ (conj _ _)))).
  - rewrite Eloop.
    pose proof (flat_map_length_le
      (fun r => flat_map (pieces r) (seq 0 300)) 300 (seq 0 rows) Hrow)
      as Hl.
    now rewrite length_seq in Hl.
  - intros r c. split; [apply Hone | apply Hpiece].
  - intros r c k k' Hk Hk'.
    destruct (Hpiece r c k Hk) as (_ & -> & _).
    destruct (Hpiece r (S c) k' Hk') as (-> & _).
    rewrite S_INR. ring.
Qed.

Lemma halftone_pieces_overlap_witness :
  exists out,
    LineHalftone.generate black1 ∅ 1000 1000 = Some out /\
    let rows := Z.to_nat (Zfloor 80) in
    let cellH := 1000 / IZR (Zfloor 80) in
    let stepW := 1000 / INR 300 in
    let limit := Rmin 15 (cellH * 1.8) in
    exists pieces : nat -> nat -> list Gfx.stroke,
      Gfx.prims out
      = flat_map (fun r => flat_map (pieces r) (seq 0 300)) (seq 0 rows) /\
      (forall r, (length (flat_map (pieces r) (seq 0 300)) <= 300)%nat) /\
      (length (Gfx.prims out) <= rows * 300)%nat /\
      (forall r c,
         (length (pieces r c) <= 1)%nat /\
         forall k, In k (pieces r c) ->
           Gfx.x1 (Gfx.seg k) = INR c * stepW /\
           Gfx.x2 (Gfx.seg k) = (INR c + 1) * stepW + 0.5 /\
           Gfx.y1 (Gfx.seg k) = INR r * cellH + cellH / 2 /\
           Gfx.y2 (Gfx.seg k) = Gfx.y1 (Gfx.seg k) /\
           Rmin 0.5 limit <= Gfx.lineWidth k <= Rmax 0.5 limit) /\
      (forall r c k k', In k (pieces r c) -> In k' (pieces r (S c)) ->
         Gfx.x2 (Gfx.seg k) = Gfx.x1 (Gfx.seg k') + 0.5).
Proof.
  destruct (halftone_generate_defaults black1 (single_wf 0) (le_n 1)
              (le_n 1) 1000 1000) as [out Eout].
  exists out. split; [exact Eout|].
  destruct (halftone_pieces_overlap black1 ∅ 1000 1000 80 15 out)
    as (pieces & E & Hrow & Hlen & Hpiece & Hnext); try exact Eout.
  - unfold Js.num. rewrite spread_lookup, lookup_empty. reflexivity.
  - unfold Js.num. rewrite spread_lookup, lookup_empty. reflexivity.
  - exists pieces. refine (conj E (conj Hrow (conj Hlen (conj _ Hnext)))).
    intros r c. destruct (Hpiece r c) as [Hone Hk].
    split; [exact Hone|]. intros k Hin.
    destruct (Hk k Hin) as (Hx1 & Hx2 & Hy1 & Hy2 & Hw).
    refine (conj Hx1 (conj Hx2 (conj Hy1 (conj Hy2 _)))).
    apply Hw; [apply single_wf|].
    intros r' c' g Eg. apply single_cell in Eg. lra.
Defined.

End HalftonePieces.

(** ** The canvas in its container *)

Section CanvasSize.
Local Open Scope R_scope.
Import AnimatedCanvas.

(** X16. The display size of the canvas fits its container and keeps the
    aspect up to the rounding down: a container under one pixel in
    either direction is skipped; otherwise width [w] and height [h] are
    whole numbers not above those of the container, one of them is the
    container's rounded down, and [aspect * h - 1 < w < aspect * (h + 1)]:
    the width falls short of the aspect times the height by less than
    one pixel and exceeds it by less than [aspect] pixels. *)
Theorem displaySize_fits aspect cw ch :
  0 < aspect ->
  (displaySize aspect cw ch = None <-> cw < 1 \/ ch < 1) /\
  forall w h, displaySize aspect cw ch = Some (w, h) ->
    (0 <= w)%Z /\ (0 <= h)%Z /\ IZR w <= cw /\ IZR h <= ch /\
    (w = Zfloor cw \/ h = Zfloor ch) /\
    aspect * IZR h < IZR w + 1 /\ IZR w < aspect * (IZR h + 1).
Proof.
  intros Ha. unfold displaySize. cbv zeta.
  destruct (Js.ltb cw 1) eqn:Ecw;
    [apply ltb_true in Ecw | apply ltb_false in Ecw];
    destruct (Js.ltb ch 1) eqn:Ech;
    [apply ltb_true in Ech|apply ltb_false in Ech|
     apply ltb_true in Ech|apply ltb_false in Ech];
    cbn [orb]; try (split; [tauto | discriminate]).
  assert (Hinv : 0 < / aspect) by now apply Rinv_0_lt_compat.
  assert (Hfloor : forall x, 0 <= x ->
            (0 <= Zfloor x)%Z /\ IZR (Zfloor x) <= x < IZR (Zfloor x) + 1).
  { intros x Hx. pose proof (frac_range x) as Hf. split; [|lra].
    now apply (Zfloor_lub 0). }
  split.
  - split; [|lra]. destruct (Js.ltb ch (cw / aspect)); discriminate.
  - intros w h E.
    destruct (Js.ltb ch (cw / aspect)) eqn:Efit;
      [apply ltb_true in Efit | apply ltb_false in Efit];
      apply (inj Some) in E; injection E as <- <-.
    + assert (Hw : ch * aspect < cw).
      { apply (Rmult_lt_compat_r aspect) in Efit; [|exact Ha].
        unfold Rdiv in Efit. rewrite Rmult_assoc, Rinv_l in Efit; lra. }
      assert (0 <= ch * aspect) by nra.
      destruct (Hfloor (ch * aspect)) as [? ?]; [assumption|].
      destruct (Hfloor ch) as [? ?]; [lra|].
      refine (conj _ (conj _ (conj _ (conj _ (conj (or_intror eq_refl)
               (conj _ _)))))); try lia; try lra; nra.
    + assert (Hh : 0 <= cw / aspect).
      { unfold Rdiv. apply Rmult_le_pos; lra. }
      destruct (Hfloor cw) as [? ?]; [lra|].
      destruct (Hfloor (cw / aspect)) as [? ?]; [assumption|].
      assert (Hcw : cw = aspect * (cw / aspect)) by (field; lra).
      refine (conj _ (conj _ (conj _ (conj _ (conj (or_introl eq_refl)
               (conj _ _)))))); try lia; try lra; nra.
Qed.

Lemma displaySize_fits_witness :
  (displaySize 2 300 100 = None <-> 300 < 1 \/ 100 < 1) /\
  forall w h, displaySize 2 300 100 = Some (w, h) ->
    (0 <= w)%Z /\ (0 <= h)%Z /\ IZR w <= 300 /\ IZR h <= 100 /\
    (w = Zfloor 300 \/ h = Zfloor 100) /\
    2 * IZR h < IZR w + 1 /\ IZR w < 2 * (IZR h + 1).
Proof. apply (displaySize_fits 2 300 100). lra. Defined.

End CanvasSize.

(** ** The clock of the animation *)

Section Clock.
Local Open Scope R_scope.
Import AnimationLoop.

Lemma frames_started start timestamps :
  frames (Some start) timestamps
  = map (fun ts => (ts - start) / 1000) timestamps.
Proof.
  induction timestamps as [|ts rest IH]; [reflexivity|].
  cbn [frames tick map]. now rewrite IH.
Qed.

(** X17. The frames are drawn at the seconds elapsed since the first frame:
    the first one at time zero, whatever its timestamp, and a later one
    at the thousandth of the difference of its timestamp to the first;
    with timestamps that do not decrease, no frame is drawn at a
    negative time. *)
Theorem frames_count_from_first first rest :
  frames None (first :: rest)
    = 0 :: map (fun ts => (ts - first) / 1000) rest /\
  (Forall (fun ts => first <= ts) rest ->
   Forall (fun t => 0 <= t) (frames None (first :: rest))).
Proof.
  assert (E : frames None (first :: rest)
              = 0 :: map (fun ts => (ts - first) / 1000) rest).
  { cbn [frames tick]. rewrite frames_started. f_equal. field. }
  split; [exact E|].
  intros Hmono. rewrite E. constructor; [lra|].
  apply Stdlib.Lists.List.Forall_forall. intros t Ht.
  apply in_map_iff in Ht as (ts & <- & Hts).
  apply (proj1 (Stdlib.Lists.List.Forall_forall _ _) Hmono) in Hts. lra.
Qed.

End Clock.

(** ** The names of the exported files *)

Section ExportNames.
Local Open Scope N_scope.
Import AnimatedPanel.

Lemma dashRuns_chars s : forall b,
  Forall (fun c => lowerAlnum c = true \/ c = dash) (dashRuns b s).
Proof.
  induction s as [|c s IH]; intros b; cbn [dashRuns]; [constructor|].
  destruct (lowerAlnum c) eqn:Ec; [constructor; auto|].
  destruct b; [apply IH | constructor; auto].
Qed.

(** After a run has begun the output does not start with a dash, and no
    output has two dashes in a row. *)
Lemma dashRuns_no_double s : forall b l1 l2,
  dashRuns b s <> l1 ++ dash :: dash :: l2 /\
  (b = true -> forall l, dashRuns b s <> dash :: l).
Proof.
  induction s as [|c s IH]; intros b l1 l2; cbn [dashRuns].
  - split; [destruct l1; discriminate | discriminate].
  - destruct (lowerAlnum c) eqn:Ec.
    + split.
      * destruct l1 as [|x l1]; cbn [app].
        -- intros E. injection E as -> _. discriminate.
        -- intros E. injection E as _ E.
           now apply (proj1 (IH false l1 l2)).
      * intros _ l E. injection E as -> _. discriminate.
    + destruct b.
      * apply IH.
      * split; [|discriminate].
        destruct l1 as [|x l1]; cbn [app].
        -- intros E. injection E as E.
           now apply (proj2 (IH true [] []) eq_refl l2).
        -- intros E. injection E as _ E.
           now apply (proj1 (IH true l1 l2)).
Qed.

Lemma dashRuns_idem s :
  dashRuns false (dashRuns false s) = dashRuns false s /\
  dashRuns true (dashRuns true s) = dashRuns true s /\
  dashRuns false (dashRuns true s) = dashRuns true s.
Proof.
  induction s as [|c s (IH1 & IH2 & IH3)]; [now repeat split|].
  cbn [dashRuns]. destruct (lowerAlnum c) eqn:Ec.
  - cbn [dashRuns]. rewrite Ec, IH1. now repeat split.
  - cbn [dashRuns]. change (lowerAlnum dash) with false. cbv iota.
    rewrite IH2. now repeat split.
Qed.

Lemma dashRuns_no_underscore s b :
  count_occ N.eq_dec (dashRuns b s) underscore = 0%nat.
Proof.
  apply count_occ_not_In. intros Hin.
  apply (proj1 (Stdlib.Lists.List.Forall_forall _ _) (dashRuns_chars s b))
    in Hin.
  destruct Hin as [H|H]; discriminate.
Qed.

(** X18. The prefix of every exported file name, whatever the name of the
    logo and the title of the effect: it consists of small letters,
    digits and dashes around exactly one underscore, which separates the
    part of the logo from the part of the effect; the part of the effect
    has no two dashes in a row and is left alone when it is cleaned
    again. *)
Theorem exportPrefix_is_clean (toLowerCase : list N -> list N)
    (logoName title : list N) :
  let prefix := exportPrefix toLowerCase logoName title in
  Forall (fun c => lowerAlnum c = true \/ c = dash \/ c = underscore)
    prefix /\
  count_occ N.eq_dec prefix underscore = 1%nat /\
  (forall l1 l2,
     safeName toLowerCase title <> l1 ++ dash :: dash :: l2) /\
  dashRuns false (safeName toLowerCase title) = safeName toLowerCase title.
Proof.
  unfold exportPrefix, baseLogoName, safeName. cbv zeta.
  refine (conj _ (conj _ (conj _ _))).
  - apply Forall_app. split; [|constructor; [auto|]];
      (eapply Forall_impl; [apply dashRuns_chars|]);
      cbn beta; intros c [H|H]; auto.
  - rewrite !count_occ_app, !dashRuns_no_underscore. reflexivity.
  - intros l1 l2. apply dashRuns_no_double.
  - apply dashRuns_idem.
Qed.

Lemma stripExtension_inside base : forall ext,
  ext <> [] -> Forall (fun d => d <> dot /\ d <> slash) ext ->
  stripExtension (base ++ dot :: ext) = base.
Proof.
  intros ext Hne Hext.
  assert (Htail : forallb (fun d => negb ((d =? slash) || (d =? dot))) ext
                  = true).
  { apply forallb_forall. intros d Hd.
    apply (proj1 (Stdlib.Lists.List.Forall_forall _ _) Hext) in Hd
      as [H1 H2].
    apply N.eqb_neq in H1, H2. now rewrite H1, H2. }
  induction base as [|c base IH]; cbn [app stripExtension].
  - rewrite N.eqb_refl, Htail. destruct ext; [contradiction | reflexivity].
  - replace (forallb _ (base ++ dot :: ext)) with false.
    + rewrite andb_false_r. now rewrite IH.
    + symmetry. apply not_true_is_false. intros E.
      rewrite forallb_app in E. apply andb_prop in E as [_ E].
      cbn [forallb] in E. rewrite N.eqb_refl, orb_true_r in E.
      discriminate.
Qed.

(** X19. Only the last extension of the logo's file name is dropped: a final
    dot with what follows, when at least one code unit follows and none
    of them is a dot or a slash.  A name without a dot is kept, and so
    is one that ends in a dot. *)
Theorem stripExtension_drops_last_extension (base ext s : list N) :
  (ext <> [] -> Forall (fun d => d <> dot /\ d <> slash) ext ->
   stripExtension (base ++ dot :: ext) = base) /\
  (Forall (fun d => d <> dot) s -> stripExtension s = s) /\
  stripExtension (base ++ [dot]) = base ++ [dot].
Proof.
  refine (conj (stripExtension_inside base ext) (conj _ _)).
  - induction s as [|c s IH]; intros Hs; [reflexivity|].
    apply Forall_cons_1 in Hs as [Hc Hs]. cbn [stripExtension].
    apply N.eqb_neq in Hc. rewrite Hc. cbn [andb]. now rewrite IH.
  - induction base as [|c base IH]; cbn [app stripExtension].
    + rewrite N.eqb_refl. reflexivity.
    + replace (forallb _ (base ++ [dot])) with false.
      * rewrite andb_false_r. now rewrite IH.
      * symmetry. apply not_true_is_false. intros E.
        rewrite forallb_app in E. apply andb_prop in E as [_ E].
        cbn [forallb] in E. rewrite N.eqb_refl, orb_true_r in E.
        discriminate.
Qed.

Lemma stripExtension_drops_last_extension_witness :
  stripExtension [97; 46; 98; 46; 115; 118; 103] = [97; 46; 98].
Proof.
  apply (proj1 (stripExtension_drops_last_extension [97; 46; 98]
                  [115; 118; 103] [])).
  - discriminate.
  - repeat constructor; discriminate.
Defined.

End ExportNames.

(** ** Star Glint: the frames of the animated variant *)

Section GlintFrames.
Local Open Scope R_scope.
Import MathUtils Spec SvgSampler.

(** The state of [init]: the stars kept by its loops, which the four
    typed arrays hold in order. *)
Lemma glint_init_stars sd p W H st :
  StarGlintAnim.init sd p W H = Some st ->
  exists density stars,
    Js.num (Js.spread StarGlintAnim.getDefaultParams p) "density"
      = Some density /\
    (length stars
       <= Z.to_nat (Zfloor (H / (W / IZR (Zfloor density))))
          * Z.to_nat (Zfloor density))%nat /\
    StarGlintAnim.params st = Js.spread StarGlintAnim.getDefaultParams p /\
    StarGlintAnim.cellW st = W / IZR (Zfloor density) /\
    StarGlintAnim.count st = length stars /\
    forall i s, stars !! i = Some s ->
      StarGlintAnim.sx st !! i = Some (StarGlintAnim.starX s) /\
      StarGlintAnim.sy st !! i = Some (StarGlintAnim.starY s) /\
      StarGlintAnim.sd st !! i = Some (StarGlintAnim.starD s) /\
      StarGlintAnim.sPhase st !! i = Some (StarGlintAnim.starPhase s).
Proof.
  unfold StarGlintAnim.init. cbv zeta. intros E.
  destruct (Js.num _ "density") as [density|]; [|discriminate].
  destruct (Js.num _ "jitter") as [jitter|]; [|discriminate].
  cbn [mbind option_bind] in E.
  destruct (Js.div W _) as [cellW|] eqn:EcellW; [|discriminate].
  apply div_inv in EcellW as [_ ->].
  cbn [mbind option_bind] in E.
  destruct (Js.div H _) as [quot|] eqn:Equot; [|discriminate].
  apply div_inv in Equot as [_ ->].
  cbn [mbind option_bind] in E.
  destruct (Js.for_loop _ _) as [stars|] eqn:Estars; [|discriminate].
  cbn [mbind option_bind] in E.
  destruct (Js.float32Array _ (map StarGlintAnim.starX stars))
    as [ax|] eqn:Eax; [|discriminate].
  destruct (Js.float32Array _ (map StarGlintAnim.starY stars))
    as [ay|] eqn:Eay; [|discriminate].
  destruct (Js.float32Array _ (map StarGlintAnim.starD stars))
    as [ad|] eqn:Ead; [|discriminate].
  destruct (Js.float32Array _ (map StarGlintAnim.starPhase stars))
    as [ap|] eqn:Eap; [|discriminate].
  cbn [mbind option_bind] in E. apply (inj Some) in E. subst st.
  exists density, stars.
  cbn [StarGlintAnim.params StarGlintAnim.cellW StarGlintAnim.count
       StarGlintAnim.sx StarGlintAnim.sy StarGlintAnim.sd
       StarGlintAnim.sPhase].
  split; [reflexivity|]. split.
  - apply (for_loop_length_le _ (Z.to_nat (Zfloor density))) in Estars;
      [exact Estars|].
    intros r o _ Eo.
    apply (for_loop_length_le _ 1) in Eo; [lia|].
    intros c o' _ Eo'.
    destruct (sampleBilinear _ _ _ _ _); [|discriminate].
    cbn [mbind option_bind] in Eo'.
    destruct (Js.geb _ 0.3); apply (inj Some) in Eo'; subst o'; cbn; lia.
  - repeat (split; [reflexivity|]).
    intros i s Hs.
    rewrite (float32Array_read _ _ stars ax i s Eax Hs),
      (float32Array_read _ _ stars ay i s Eay Hs),
      (float32Array_read _ _ stars ad i s Ead Hs),
      (float32Array_read _ _ stars ap i s Eap Hs).
    auto.
Qed.

(** X20. Every frame of a state built by [init] of Star Glint can be drawn,
    whatever the time: the reads of the typed arrays stay inside them.
    A frame has at most one glyph per lattice cell; every glyph sits on
    a stored star, so the glyphs do not move between frames, and has a
    size of at least 0.5. *)
Theorem glint_frames_sit_on_stars sd p W H density st :
  numeric_params p ->
  Js.num (Js.spread StarGlintAnim.getDefaultParams p) "density"
    = Some density ->
  StarGlintAnim.init sd p W H = Some st ->
  forall t, exists out,
    StarGlintAnim.drawFrame st t = Some out /\
    (length (Gfx.prims out)
       <= Z.to_nat (Zfloor (H / (W / IZR (Zfloor density))))
          * Z.to_nat (Zfloor density))%nat /\
    forall g, In g (Gfx.prims out) ->
      0.5 <= Gfx.scale g /\
      exists i, (i < StarGlintAnim.count st)%nat /\
        StarGlintAnim.sx st !! i = Some (Gfx.gcx g) /\
        StarGlintAnim.sy st !! i = Some (Gfx.gcy g).
Proof.
  intros Hp Edensity Hinit t.
  destruct (glint_init_stars sd p W H st Hinit)
    as (d & stars & Ed & Hlen & Eparams & EcellW & Ecount & Hread).
  rewrite Edensity in Ed. apply (inj Some) in Ed. subst d.
  unfold StarGlintAnim.drawFrame. rewrite Eparams, Ecount, EcellW.
  read_numeric Hp.
  match goal with
  | Escale : Js.num _ "scale" = Some ?ms,
    Esharp : Js.num _ "sharpness" = Some ?sh,
    Espeed : Js.num _ "speed" = Some ?sp
    |- context [Js.for_loop (length stars) ?body] =>
      rewrite (for_loop_stored stars
                 (drawStar ms sh sp (W / IZR (Zfloor density)) t) body);
      [ set (draw := drawStar ms sh sp (W / IZR (Zfloor density)) t) |]
  end.
  - cbn [mbind option_bind]. eexists. split; [reflexivity|].
    cbn [Gfx.prims].
    assert (Hone : forall s, (length (draw s) <= 1)%nat).
    { intros s. unfold draw, drawStar. cbv zeta.
      destruct (Js.ltb _ _); cbn; lia. }
    split.
    + etransitivity; [|exact Hlen]. clear -Hone.
      induction stars as [|s stars IH]; [cbn; lia|].
      cbn [flat_map]. rewrite length_app. specialize (Hone s).
      cbn [length]. lia.
    + intros g Hg. apply in_flat_map in Hg as (s & Hs & Hg).
      apply In_nth_error in Hs as [i Hi].
      assert (His : stars !! i = Some s).
      { revert i Hi. clear. induction stars as [|x l IH]; intros [|i] H;
          try discriminate; cbn in *; auto. }
      destruct (Hread i s His) as (Hx & Hy & _).
      unfold draw, drawStar in Hg. cbv zeta in Hg.
      destruct (Js.ltb _ 0.5) eqn:Ecut; [destruct Hg|].
      destruct Hg as [<-|[]]. apply ltb_false in Ecut.
      cbn [Gfx.scale Gfx.gcx Gfx.gcy]. split; [exact Ecut|].
      exists i. split; [|auto].
      apply lookup_lt_Some in His. exact His.
  - intros i s Hs. destruct (Hread i s Hs) as (-> & -> & -> & ->).
    cbn [mbind option_bind]. unfold drawStar. cbv zeta.
    destruct (Js.ltb _ _); reflexivity.
Qed.

Lemma glint_frames_sit_on_stars_witness :
  exists st,
    StarGlintAnim.init black1 ∅ 1000 1000 = Some st /\
    forall t, exists out,
      StarGlintAnim.drawFrame st t = Some out /\
      (length (Gfx.prims out)
         <= Z.to_nat (Zfloor (1000 / (1000 / IZR (Zfloor 80))))
            * Z.to_nat (Zfloor 80))%nat /\
      forall g, In g (Gfx.prims out) ->
        0.5 <= Gfx.scale g /\
        exists i, (i < StarGlintAnim.count st)%nat /\
          StarGlintAnim.sx st !! i = Some (Gfx.gcx g) /\
          StarGlintAnim.sy st !! i = Some (Gfx.gcy g).
Proof.
  destruct (glint_init_defaults black1 (single_wf 0) (le_n 1) (le_n 1)
              1000 1000 ltac:(lra) ltac:(lra)) as [st Est].
  exists st. split; [exact Est|].
  apply (glint_frames_sit_on_stars black1 ∅ 1000 1000 80 st
           numeric_params_empty); [|exact Est].
  unfold Js.num. rewrite spread_lookup, lookup_empty. reflexivity.
Defined.

End GlintFrames.

(* ================================================================== *)
(** * Part IV: the parameter objects of the entry points *)
(* ================================================================== *)

Section Overrides.
Local Open Scope R_scope.
Import MathUtils Spec SvgSampler Layout.

(** ** What each entry point computes from the spread

    The values an entry point works with are those of the caller's object
    spread over the defaults; its result is the explicit function of
    these values that is given here. *)

Lemma vertical_generate_reads sd p W H out :
  VerticalLines.generate sd p W H = Some out ->
  let merged := Js.spread VerticalLines.getDefaultParams p in
  exists minStroke maxStroke maxLength minLength rows,
    Js.num merged "minStroke" = Some minStroke /\
    Js.num merged "maxStroke" = Some maxStroke /\
    Js.num merged "maxLength" = Some maxLength /\
    Js.num merged "minLength" = Some minLength /\
    Js.nullish p "rows" (INR (SvgSampler.rows sd)) = Some rows /\
    merged !! "color" = Some (Gfx.pathStroke out) /\
    Gfx.strokeWidth out = (minStroke + maxStroke) / 2 /\
    let cx := fun c : nat =>
      INR c * (W / INR (cols sd)) + W / INR (cols sd) / 2 in
    Js.for_loop (cols sd) (fun c =>
      verticalBars sd minLength (Rmax maxLength minLength) rows (H / rows)
        0.5 c
      ≫= fun ps =>
        Some (map (fun q => Gfx.Segment (cx c) (fst q) (cx c) (snd q)) ps))
    = Some (Gfx.pathD out).
Proof.
  unfold VerticalLines.generate. cbv zeta. intros E.
  destruct (Js.num _ "minStroke") as [minStroke|]; [|discriminate].
  destruct (Js.num _ "maxStroke") as [maxStroke|]; [|discriminate].
  destruct (Js.num _ "maxLength") as [maxLength|]; [|discriminate].
  destruct (Js.num _ "minLength") as [minLength|]; [|discriminate].
  cbn [mbind option_bind] in E.
  destruct (_ !! "color") as [color|]; [|discriminate].
  cbn [mbind option_bind] in E.
  destruct (Js.nullish _ "rows" _) as [rows|]; [|discriminate].
  cbn [mbind option_bind] in E.
  rewrite vertical_generate_loop in E.
  match type of E with
  | ?loop ≫= _ = _ => destruct loop as [pathD|] eqn:Eloop; [|discriminate]
  end.
  cbn [mbind option_bind] in E. apply (inj Some) in E. subst out.
  exists minStroke, maxStroke, maxLength, minLength, rows.
  cbn [Gfx.pathStroke Gfx.strokeWidth Gfx.pathD].
  repeat (split; [reflexivity|]). exact Eloop.
Qed.

Lemma horizontal_generate_reads sd p W H out :
  HorizontalLines.generate sd p W H = Some out ->
  let merged := Js.spread HorizontalLines.getDefaultParams p in
  exists maxLength minLength minStroke maxStroke,
    Js.num merged "maxLength" = Some maxLength /\
    Js.num merged "minLength" = Some minLength /\
    Js.num merged "minStroke" = Some minStroke /\
    Js.num merged "maxStroke" = Some maxStroke /\
    merged !! "color" = Some (Gfx.pathStroke out) /\
    let cellH := H / INR (rows sd) in
    let limit := Rmin (Rmax minStroke maxStroke) (cellH * 1.35) in
    Gfx.strokeWidth out
    = (Rmin (Rmin minStroke maxStroke) limit + limit) / 2 /\
    let cy := fun r : nat => INR r * cellH + cellH / 2 in
    Js.for_loop (rows sd) (fun r =>
      horizontalBars sd minLength (Rmax maxLength minLength)
        (INR (rows sd)) (W / INR (cols sd)) r
      ≫= fun ps =>
        Some (map (fun q => Gfx.Segment (fst q) (cy r) (snd q) (cy r)) ps))
    = Some (Gfx.pathD out).
Proof.
  unfold HorizontalLines.generate. cbv zeta. intros E.
  destruct (Js.num _ "maxLength") as [maxLength|]; [|discriminate].
  destruct (Js.num _ "minLength") as [minLength|]; [|discriminate].
  destruct (Js.num _ "minStroke") as [minStroke|]; [|discriminate].
  destruct (Js.num _ "maxStroke") as [maxStroke|]; [|discriminate].
  cbn [mbind option_bind] in E.
  destruct (_ !! "color") as [color|]; [|discriminate].
  cbn [mbind option_bind] in E.
  rewrite horizontal_generate_loop in E.
  match type of E with
  | ?loop ≫= _ = _ => destruct loop as [pathD|] eqn:Eloop; [|discriminate]
  end.
  cbn [mbind option_bind] in E. apply (inj Some) in E. subst out.
  exists maxLength, minLength, minStroke, maxStroke.
  cbn [Gfx.pathStroke Gfx.strokeWidth Gfx.pathD].
  repeat (split; [reflexivity|]). exact Eloop.
Qed.

Lemma ellipse_generate_reads sd p W H out :
  EllipseGrid.generate sd p W H = Some out ->
  let merged := Js.spread EllipseGrid.getDefaultParams p in
  exists cols maxRy eccentricity cells,
    Js.num merged "cols" = Some cols /\
    Js.num merged "maxRy" = Some maxRy /\
    Js.num merged "eccentricity" = Some eccentricity /\
    merged !! "color" = Some (Gfx.colour out) /\
    let rows := Z.max 1 (Js.round (cols / aspect sd)) in
    ellipseCells sd cols rows (W / cols) (H / IZR rows) (maxRy * (H / 1000))
      = Some cells /\
    Gfx.prims out = map (staticEllipse eccentricity) cells.
Proof.
  unfold EllipseGrid.generate. cbv zeta. intros E.
  destruct (Js.num _ "cols") as [cols|]; [|discriminate].
  destruct (Js.num _ "maxRy") as [maxRy|]; [|discriminate].
  destruct (Js.num _ "eccentricity") as [eccentricity|]; [|discriminate].
  cbn [mbind option_bind] in E.
  destruct (_ !! "color") as [color|]; [|discriminate].
  cbn [mbind option_bind] in E.
  rewrite ellipse_static_loop in E.
  destruct (ellipseCells _ _ _ _ _ _) as [cells|] eqn:Ecells;
    [|discriminate].
  cbn [mbind option_bind] in E. apply (inj Some) in E. subst out.
  exists cols, maxRy, eccentricity, cells. cbn [Gfx.colour Gfx.prims].
  cbv zeta.
  refine (conj eq_refl (conj eq_refl (conj eq_refl (conj eq_refl
            (conj Ecells _))))).
  clear. induction cells as [|q cells IH]; [reflexivity|].
  cbn [flat_map map app]. now rewrite IH.
Qed.

Lemma scatter_generate_reads sd p W H out :
  ParticleScatter.generate sd p W H = Some out ->
  let merged := Js.spread ParticleScatter.getDefaultParams p in
  exists maxDots maxRadius minRadius seed scatter ws,
    Js.num merged "maxDots" = Some maxDots /\
    Js.num merged "maxRadius" = Some maxRadius /\
    Js.num merged "minRadius" = Some minRadius /\
    Js.num merged "seed" = Some seed /\
    Js.num merged "scatter" = Some scatter /\
    merged !! "color" = Some (Gfx.colour out) /\
    ParticleScatter.cellWeights sd = Some ws /\
    let weights := ParticleScatter.cumulative 0 ws in
    let totalWeight := List.last weights 0 in
    (totalWeight = 0 -> Gfx.prims out = []) /\
    (totalWeight <> 0 ->
     ParticleScatter.dots sd weights totalWeight (W / INR (cols sd))
       (H / INR (rows sd)) W H scatter (Rmin minRadius maxRadius)
       (Rmax minRadius maxRadius) (Z.to_nat (Z.max 1 (Js.round maxDots)))
       (mulberry32 (Js.truncate seed))
     = Some (Gfx.prims out)).
Proof.
  unfold ParticleScatter.generate. cbv zeta. intros E.
  destruct (Js.num _ "maxDots") as [maxDots|]; [|discriminate].
  destruct (Js.num _ "maxRadius") as [maxRadius|]; [|discriminate].
  destruct (Js.num _ "minRadius") as [minRadius|]; [|discriminate].
  destruct (Js.num _ "seed") as [seed|]; [|discriminate].
  destruct (Js.num _ "scatter") as [scatter|]; [|discriminate].
  cbn [mbind option_bind] in E.
  destruct (_ !! "color") as [color|]; [|discriminate].
  cbn [mbind option_bind] in E.
  destruct (ParticleScatter.cellWeights sd) as [ws|]; [|discriminate].
  cbn [mbind option_bind] in E.
  exists maxDots, maxRadius, minRadius, seed, scatter, ws.
  destruct (Req_dec_T _ 0) as [Ez|Ez].
  - apply (inj Some) in E. subst out. cbn [Gfx.colour Gfx.prims].
    do 7 (split; [reflexivity|]). cbv zeta.
    split; [reflexivity | intros Hn; contradiction].
  - destruct (ParticleScatter.dots _ _ _ _ _ _ _ _ _ _ _ _)
      as [circles|] eqn:Edots; [|discriminate].
    cbn [mbind option_bind] in E. apply (inj Some) in E. subst out.
    cbn [Gfx.colour Gfx.prims].
    do 7 (split; [reflexivity|]). cbv zeta.
    split; [intros Hz; contradiction | reflexivity].
Qed.

Lemma glint_generate_reads sd p W H out :
  StarGlint.generate sd p W H = Some out ->
  let merged := Js.spread StarGlint.getDefaultParams p in
  exists density maxScale sharpness jitter,
    Js.num merged "density" = Some density /\
    Js.num merged "scale" = Some maxScale /\
    Js.num merged "sharpness" = Some sharpness /\
    Js.num merged "jitter" = Some jitter /\
    merged !! "color" = Some (Gfx.colour out) /\
    let lcols := Zfloor density in
    let cellW := W / IZR lcols in
    let lrows := Zfloor (H / cellW) in
    Gfx.prims out
    = flat_map (fun r =>
        flat_map (fun c =>
          match sampleBilinear (grid sd) (cols sd) (rows sd)
                  (Js.latticeCoord (IZR lcols) c)
                  (Js.latticeCoord (IZR lrows) r)
          with
          | Some b =>
              if Js.ltb (1 - b) 0.3 then []
              else StarGlint.glyph lcols cellW maxScale sharpness jitter
                     r c (1 - b)
          | None => []
          end) (seq 0 (Z.to_nat lcols))) (seq 0 (Z.to_nat lrows)).
Proof.
  intros E merged.
  assert (Hreads : exists density maxScale sharpness jitter,
            Js.num merged "density" = Some density /\
            Js.num merged "scale" = Some maxScale /\
            Js.num merged "sharpness" = Some sharpness /\
            Js.num merged "jitter" = Some jitter /\
            merged !! "color" = Some (Gfx.colour out)).
  { unfold StarGlint.generate in E. cbv zeta in E. fold merged in E.
    destruct (Js.num _ "density") as [density|]; [|discriminate].
    destruct (Js.num _ "scale") as [maxScale|]; [|discriminate].
    destruct (Js.num _ "sharpness") as [sharpness|]; [|discriminate].
    destruct (Js.num _ "jitter") as [jitter|]; [|discriminate].
    cbn [mbind option_bind] in E.
    destruct (_ !! "color") as [color|]; [|discriminate].
    cbn [mbind option_bind] in E.
    destruct (Js.div W _); [|discriminate]. cbn [mbind option_bind] in E.
    destruct (Js.div H _); [|discriminate]. cbn [mbind option_bind] in E.
    destruct (Js.for_loop _ _); [|discriminate].
    cbn [mbind option_bind] in E. apply (inj Some) in E. subst out.
    cbn [Gfx.colour]. eauto 10. }
  destruct Hreads as (density & maxScale & sharpness & jitter & Ed & Es
                      & Esh & Ej & Ec).
  exists density, maxScale, sharpness, jitter.
  refine (conj Ed (conj Es (conj Esh (conj Ej (conj Ec _))))).
  exact (proj2 (proj2 (glint_generate_cells sd p W H density maxScale
                         sharpness jitter out Ed Es Esh Ej E))).
Qed.

Lemma halftone_generate_reads sd p W H out :
  LineHalftone.generate sd p W H = Some out ->
  let merged := Js.spread LineHalftone.getDefaultParams p in
  exists density contrast pulse,
    Js.num merged "density" = Some density /\
    Js.num merged "contrast" = Some contrast /\
    Js.num merged "pulse" = Some pulse /\
    merged !! "color" = Some (Gfx.colour out) /\
    let lrows := Zfloor density in
    let cellH := H / IZR lrows in
    let stepW := W / INR 300 in
    Gfx.prims out
    = flat_map (fun r =>
        flat_map (fun c =>
          let u := INR c / (INR 300 - 1) in
          match sampleBilinear (grid sd) (cols sd) (rows sd) u
                  (Js.latticeCoord (IZR lrows) r)
          with
          | Some b =>
              if Js.ltb (1 - b) 0.3 then []
              else
                let wave := 0.5 + 0.5 * sin (u * PI * 2 * pulse) in
                let weight := lerp ((1 - b) * 0.2) (1 - b) wave in
                let y := INR r * cellH + cellH / 2 in
                [Gfx.Stroke
                   (Gfx.Segment (INR c * stepW + stepW / 2 - stepW / 2) y
                      (INR c * stepW + stepW / 2 + stepW / 2 + 0.5) y)
                   (lerp 0.5 (Rmin contrast (cellH * 1.8)) weight)]
          | None => []
          end) (seq 0 300)) (seq 0 (Z.to_nat lrows)).
Proof.
  unfold LineHalftone.generate. cbv zeta. intros E.
  destruct (Js.num _ "density") as [density|]; [|discriminate].
  destruct (Js.num _ "contrast") as [contrast|]; [|discriminate].
  destruct (Js.num _ "pulse") as [pulse|]; [|discriminate].
  cbn [mbind option_bind] in E.
  destruct (_ !! "color") as [color|]; [|discriminate].
  cbn [mbind option_bind] in E.
  change LineHalftone.stepsPerLine with 300%nat in E.
  destruct (Js.for_loop _ _) as [paths|] eqn:Eloop; [|discriminate].
  cbn [mbind option_bind] in E. apply (inj Some) in E. subst out.
  exists density, contrast, pulse. cbn [Gfx.colour Gfx.prims].
  repeat (split; [reflexivity|]).
  rewrite (nested_loops_flat _ _ _ _ Eloop).
  apply flat_map_ext. intros r. apply flat_map_ext. intros c.
  destruct (sampleBilinear _ _ _ _ _); [|reflexivity].
  cbn [mbind option_bind]. now destruct (Js.ltb _ 0.3).
Qed.

Lemma vertical_init_reads sd p W H st :
  VerticalLinesAnim.init sd p W H = Some st ->
  let merged := Js.spread VerticalLinesAnim.getDefaultParams p in
  exists maxLength minLength rows,
    Js.num merged "maxLength" = Some maxLength /\
    Js.num merged "minLength" = Some minLength /\
    Js.nullish merged "rows" (INR (SvgSampler.rows sd)) = Some rows /\
    VerticalLinesAnim.params st = merged /\
    VerticalLinesAnim.cols st = cols sd /\
    VerticalLinesAnim.cellW st = W / INR (cols sd) /\
    stored
      (fun c o k =>
         VerticalLinesAnim.Meta
           (INR c * (W / INR (cols sd)) + W / INR (cols sd) / 2) o k)
      (verticalBars sd minLength (Rmax maxLength minLength) rows (H / rows)
         0.3)
      (VerticalLinesAnim.colMeta st, VerticalLinesAnim.segData st)
      (cols sd).
Proof.
  intros E merged.
  destruct (vertical_init_stored sd p W H st E)
    as (maxLength & minLength & rows & Emx & Emn & Erows & Eparams & Ecols
        & EcellW & Hstored).
  exists maxLength, minLength, rows. auto 10.
Qed.

Lemma horizontal_init_reads sd p W H st :
  HorizontalLinesAnim.init sd p W H = Some st ->
  let merged := Js.spread HorizontalLinesAnim.getDefaultParams p in
  exists maxLength minLength rows,
    Js.num merged "maxLength" = Some maxLength /\
    Js.num merged "minLength" = Some minLength /\
    Js.nullish merged "rows" (INR (SvgSampler.rows sd)) = Some rows /\
    HorizontalLinesAnim.params st = merged /\
    HorizontalLinesAnim.rows st = rows /\
    (rows <> 0 -> HorizontalLinesAnim.cellH st = H / rows) /\
    stored
      (fun r o k =>
         HorizontalLinesAnim.Meta (INR r * (H / rows) + H / rows / 2) o k)
      (horizontalBars sd minLength (Rmax maxLength minLength) rows
         (W / INR (cols sd)))
      (HorizontalLinesAnim.rowMeta st, HorizontalLinesAnim.segData st)
      (Js.passes rows).
Proof.
  intros E merged.
  destruct (horizontal_init_stored sd p W H st E)
    as (maxLength & minLength & rows & Emx & Emn & Erows & Eparams & Er
        & EcellH & Hstored).
  exists maxLength, minLength, rows. auto 10.
Qed.

Lemma ellipse_init_reads sd p W H st :
  EllipseGridAnim.init sd p W H = Some st ->
  let merged := Js.spread EllipseGridAnim.getDefaultParams p in
  exists cols maxRy cells,
    Js.num merged "cols" = Some cols /\
    Js.num merged "maxRy" = Some maxRy /\
    EllipseGridAnim.params st = merged /\
    let rows :=
      Z.max 1 (Js.round (cols / (INR (SvgSampler.cols sd)
                                 / INR (SvgSampler.rows sd)))) in
    EllipseGridAnim.cols st = cols /\ EllipseGridAnim.rows st = rows /\
    (0 <= cols ->
     ellipseCells sd cols rows (W / cols) (H / IZR rows)
       (maxRy * (H / 1000)) = Some cells /\
     EllipseGridAnim.cellData st = flat_map quad cells).
Proof.
  unfold EllipseGridAnim.init. cbv zeta. intros E.
  destruct (Js.num _ "cols") as [cols|]; [|discriminate].
  destruct (Js.num _ "maxRy") as [maxRy|]; [|discriminate].
  cbn [mbind option_bind] in E.
  rewrite ellipse_init_loop in E.
  destruct (ellipseCells _ _ _ _ _ _) as [cells|] eqn:Ecells;
    [|discriminate].
  cbn [mbind option_bind] in E. apply (inj Some) in E. subst st.
  exists cols, maxRy, cells.
  cbn [EllipseGridAnim.params EllipseGridAnim.cols EllipseGridAnim.rows
       EllipseGridAnim.cellData].
  auto 10.
Qed.

Lemma scatter_init_reads sd p W H st :
  ParticleScatterAnim.init sd p W H = Some st ->
  let merged := Js.spread ParticleScatterAnim.getDefaultParams p in
  exists maxDots maxRadius minRadius seed scatter ws ps,
    Js.num merged "maxDots" = Some maxDots /\
    Js.num merged "maxRadius" = Some maxRadius /\
    Js.num merged "minRadius" = Some minRadius /\
    Js.num merged "seed" = Some seed /\
    Js.num merged "scatter" = Some scatter /\
    ParticleScatterAnim.params st = merged /\
    ParticleScatter.cellWeights sd = Some ws /\
    let weights := ParticleScatter.cumulative 0 ws in
    ParticleScatterAnim.particles
      (ParticleScatter.place sd weights (List.last weights 0)
         (W / INR (cols sd)) (H / INR (rows sd)) W H scatter
         (Rmin minRadius maxRadius) (Rmax minRadius maxRadius))
      (Z.to_nat (Z.max 1 (Js.round maxDots)))
      (mulberry32 (Js.truncate seed))
    = Some ps /\
    ParticleScatterAnim.count st = length ps /\
    forall i q, ps !! i = Some q ->
      ParticleScatterAnim.px st !! i = Some (ParticleScatterAnim.x q) /\
      ParticleScatterAnim.py st !! i = Some (ParticleScatterAnim.y q) /\
      ParticleScatterAnim.pr st !! i = Some (ParticleScatterAnim.baseR q) /\
      ParticleScatterAnim.ph st !! i = Some (ParticleScatterAnim.phase q).
Proof.
  unfold ParticleScatterAnim.init. cbv zeta. intros E.
  destruct (Js.num _ "maxDots") as [maxDots|]; [|discriminate].
  destruct (Js.num _ "maxRadius") as [maxRadius|]; [|discriminate].
  destruct (Js.num _ "minRadius") as [minRadius|]; [|discriminate].
  destruct (Js.num _ "seed") as [seed|]; [|discriminate].
  destruct (Js.num _ "scatter") as [scatter|]; [|discriminate].
  cbn [mbind option_bind] in E.
  destruct (ParticleScatter.cellWeights sd) as [ws|]; [|discriminate].
  cbn [mbind option_bind] in E.
  destruct (ParticleScatterAnim.particles _ _ _) as [ps|] eqn:Eps;
    [|discriminate].
  cbn [mbind option_bind] in E.
  destruct (Js.float32Array _ (map ParticleScatterAnim.x ps))
    as [ax|] eqn:Eax; [|discriminate].
  destruct (Js.float32Array _ (map ParticleScatterAnim.y ps))
    as [ay|] eqn:Eay; [|discriminate].
  destruct (Js.float32Array _ (map ParticleScatterAnim.baseR ps))
    as [ar|] eqn:Ear; [|discriminate].
  destruct (Js.float32Array _ (map ParticleScatterAnim.phase ps))
    as [ap|] eqn:Eap; [|discriminate].
  cbn [mbind option_bind] in E. apply (inj Some) in E. subst st.
  exists maxDots, maxRadius, minRadius, seed, scatter, ws, ps.
  cbn [ParticleScatterAnim.params ParticleScatterAnim.count
       ParticleScatterAnim.px ParticleScatterAnim.py
       ParticleScatterAnim.pr ParticleScatterAnim.ph].
  do 7 (split; [reflexivity|]). cbv zeta.
  refine (conj Eps (conj eq_refl _)).
  intros i q Hq.
  rewrite (float32Array_read _ _ ps ax i q Eax Hq),
    (float32Array_read _ _ ps ay i q Eay Hq),
    (float32Array_read _ _ ps ar i q Ear Hq),
    (float32Array_read _ _ ps ap i q Eap Hq).
  auto.
Qed.

Lemma glint_init_reads sd p W H st :
  StarGlintAnim.init sd p W H = Some st ->
  let merged := Js.spread StarGlintAnim.getDefaultParams p in
  exists density jitter,
    Js.num merged "density" = Some density /\
    Js.num merged "jitter" = Some jitter /\
    StarGlintAnim.params st = merged /\
    let lcols := Zfloor density in
    let cellW := W / IZR lcols in
    let lrows := Zfloor (H / cellW) in
    let stars :=
      flat_map (fun r =>
        flat_map (fun c =>
          match sampleBilinear (grid sd) (cols sd) (rows sd)
                  (Js.latticeCoord (IZR lcols) c)
                  (Js.latticeCoord (IZR lrows) r)
          with
          | Some b =>
              if Js.geb (1 - b) 0.3
              then [storedStar lcols cellW jitter r c (1 - b)]
              else []
          | None => []
          end) (seq 0 (Z.to_nat lcols))) (seq 0 (Z.to_nat lrows)) in
    StarGlintAnim.cellW st = cellW /\
    StarGlintAnim.count st = length stars /\
    forall i s, stars !! i = Some s ->
      StarGlintAnim.sx st !! i = Some (StarGlintAnim.starX s) /\
      StarGlintAnim.sy st !! i = Some (StarGlintAnim.starY s) /\
      StarGlintAnim.sd st !! i = Some (StarGlintAnim.starD s) /\
      StarGlintAnim.sPhase st !! i = Some (StarGlintAnim.starPhase s).
Proof.
  unfold StarGlintAnim.init. cbv zeta. intros E.
  destruct (Js.num _ "density") as [density|]; [|discriminate].
  destruct (Js.num _ "jitter") as [jitter|]; [|discriminate].
  cbn [mbind option_bind] in E.
  destruct (Js.div W _) as [cellW|] eqn:EcellW; [|discriminate].
  apply div_inv in EcellW as [_ ->].
  cbn [mbind option_bind] in E.
  destruct (Js.div H _) as [quot|] eqn:Equot; [|discriminate].
  apply div_inv in Equot as [_ ->].
  cbn [mbind option_bind] in E.
  destruct (Js.for_loop _ _) as [stars|] eqn:Estars; [|discriminate].
  cbn [mbind option_bind] in E.
  destruct (Js.float32Array _ (map StarGlintAnim.starX stars))
    as [ax|] eqn:Eax; [|discriminate].
  destruct (Js.float32Array _ (map StarGlintAnim.starY stars))
    as [ay|] eqn:Eay; [|discriminate].
  destruct (Js.float32Array _ (map StarGlintAnim.starD stars))
    as [ad|] eqn:Ead; [|discriminate].
  destruct (Js.float32Array _ (map StarGlintAnim.starPhase stars))
    as [ap|] eqn:Eap; [|discriminate].
  cbn [mbind option_bind] in E. apply (inj Some) in E. subst st.
  exists density, jitter.
  cbn [StarGlintAnim.params StarGlintAnim.cellW StarGlintAnim.count
       StarGlintAnim.sx StarGlintAnim.sy StarGlintAnim.sd
       StarGlintAnim.sPhase].
  do 3 (split; [reflexivity|]). cbv zeta.
  apply nested_loops_flat in Estars.
  match goal with
  | |- _ /\ _ = length ?l /\ _ =>
      assert (El : stars = l)
  end.
  { rewrite Estars. apply flat_map_ext. intros r.
    apply flat_map_ext. intros c.
    destruct (sampleBilinear _ _ _ _ _); [|reflexivity].
    cbn [mbind option_bind]. now destruct (Js.geb _ 0.3). }
  rewrite <- El. refine (conj eq_refl (conj eq_refl _)).
  intros i s Hs.
  rewrite (float32Array_read _ _ stars ax i s Eax Hs),
    (float32Array_read _ _ stars ay i s Eay Hs),
    (float32Array_read _ _ stars ad i s Ead Hs),
    (float32Array_read _ _ stars ap i s Eap Hs).
  auto.
Qed.

Lemma halftone_init_reads sd p W H st :
  LineHalftoneAnim.init sd p W H = Some st ->
  let merged := Js.spread LineHalftoneAnim.getDefaultParams p in
  exists density,
    Js.num merged "density" = Some density /\
    LineHalftoneAnim.params st = merged /\
    let lrows := Zfloor density in
    let cellH := H / IZR lrows in
    let stepW := W / INR 300 in
    let pieces :=
      flat_map (fun r =>
        flat_map (fun c =>
          match sampleBilinear (grid sd) (cols sd) (rows sd)
                  (Js.latticeCoord (INR 300) c)
                  (Js.latticeCoord (IZR lrows) r)
          with
          | Some b =>
              if Js.geb (1 - b) 0.3
              then [LineHalftoneAnim.Piece (INR c * stepW + stepW / 2)
                      (INR r * cellH + cellH / 2) (1 - b)]
              else []
          | None => []
          end) (seq 0 300)) (seq 0 (Z.to_nat lrows)) in
    (lrows <> 0%Z -> LineHalftoneAnim.cellH st = cellH) /\
    LineHalftoneAnim.stepW st = stepW /\
    LineHalftoneAnim.stepsPerLine st = 300%nat /\
    LineHalftoneAnim.outputWidth st = W /\
    LineHalftoneAnim.count st = length pieces /\
    forall i q, pieces !! i = Some q ->
      LineHalftoneAnim.sx st !! i = Some (LineHalftoneAnim.pieceX q) /\
      LineHalftoneAnim.sy st !! i = Some (LineHalftoneAnim.pieceY q) /\
      LineHalftoneAnim.sd st !! i = Some (LineHalftoneAnim.pieceD q).
Proof.
  unfold LineHalftoneAnim.init. cbv zeta. intros E.
  destruct (Js.num _ "density") as [density|]; [|discriminate].
  cbn [mbind option_bind] in E.
  destruct (Js.for_loop _ _) as [pieces|] eqn:Epieces; [|discriminate].
  cbn [mbind option_bind] in E.
  destruct (Js.float32Array _ (map LineHalftoneAnim.pieceX pieces))
    as [ax|] eqn:Eax; [|discriminate].
  destruct (Js.float32Array _ (map LineHalftoneAnim.pieceY pieces))
    as [ay|] eqn:Eay; [|discriminate].
  destruct (Js.float32Array _ (map LineHalftoneAnim.pieceD pieces))
    as [ad|] eqn:Ead; [|discriminate].
  cbn [mbind option_bind] in E. apply (inj Some) in E. subst st.
  exists density.
  cbn [LineHalftoneAnim.params LineHalftoneAnim.cellH
       LineHalftoneAnim.stepW LineHalftoneAnim.stepsPerLine
       LineHalftoneAnim.outputWidth LineHalftoneAnim.count
       LineHalftoneAnim.sx LineHalftoneAnim.sy LineHalftoneAnim.sd].
  do 2 (split; [reflexivity|]). cbv zeta.
  apply nested_loops_flat in Epieces.
  match goal with
  | |- _ /\ _ /\ _ /\ _ /\ _ = length ?l /\ _ =>
      assert (El : pieces = l)
  end.
  { rewrite Epieces. apply flat_map_ext. intros r.
    apply flat_map_ext. intros c.
    destruct (sampleBilinear _ _ _ _ _); [|reflexivity].
    cbn [mbind option_bind]. now destruct (Js.geb _ 0.3). }
  rewrite <- El. split; [reflexivity|]. do 4 (split; [reflexivity|]).
  intros i q Hq.
  rewrite (float32Array_read _ _ pieces ax i q Eax Hq),
    (float32Array_read _ _ pieces ay i q Eay Hq),
    (float32Array_read _ _ pieces ad i q Ead Hq).
  auto.
Qed.



End Overrides.
